(** * Correlation and deduplication engine (correlationService.js)

    A shallow embedding of the transaction correlation service: candidate
    search under amount and time constraints, the oracle gateway with its
    defensive parser, the decision loop, the field-level merge and the
    record-store calls, followed by the properties of the specification
    that were checked against it.

    Conventions of the embedding
    - a JavaScript number that the code computes with is a rational ([Q]);
      [None] stands for [undefined]/[NaN], for which every comparison is
      false.  The arithmetic of the candidate search and of the decision is
      exact; the amount test is given a second time with every operation
      rounded as binary64 arithmetic rounds it (module [Rounded]);
    - a timestamp is a point on the server's local time axis, in
      milliseconds since 1970-01-01T00:00 local time (a fixed UTC offset);
    - the record store is a list of documents, in the order the store
      returns them. *)

From Stdlib Require Import ZArith QArith Qabs Qminmax Qround Qpower.
From Stdlib Require Import List String Ascii Bool Lia Lqa.
From Stdlib Require Import Floats DecimalString.
Import ListNotations.

#[local] Open Scope Z_scope.

(* ================================================================== *)
(** * 1. Numbers and dates                                             *)
(* ================================================================== *)

(** Constructor fields of [CorrelationService]. *)
Definition amountTolerance : Q := 5 # 100.
Definition timeWindowHours : Z := 1.
Definition timeWindowDays : Z := 1.

(** A transaction's [timestamp] field: missing (or the empty string, both
    falsy), a string that [new Date] cannot read, or a readable instant. *)
Inductive timestamp_value : Type :=
  | TsAbsent
  | TsInvalid
  | TsAt (ms : Z).

(** [new Date(timestamp)]: the time value, [None] for an Invalid Date. *)
Definition newDate (t : timestamp_value) : option Z :=
  match t with
  | TsAt ms => Some ms
  | TsAbsent | TsInvalid => None
  end.

Definition msPerSecond : Z := 1000.
Definition msPerMinute : Z := 60 * 1000.
Definition msPerHour : Z := 1000 * 60 * 60.
Definition msPerDay : Z := 24 * msPerHour.

(** Getters of [Date]; each is [NaN] ([None]) on an Invalid Date. *)
Definition getHours (d : option Z) : option Z :=
  option_map (fun ms => (ms / msPerHour) mod 24) d.

Definition getMinutes (d : option Z) : option Z :=
  option_map (fun ms => (ms / msPerMinute) mod 60) d.

Definition getSeconds (d : option Z) : option Z :=
  option_map (fun ms => (ms / msPerSecond) mod 60) d.

(** Day of the month (1..31) of the proleptic Gregorian date that lies
    [z] days after 1970-01-01. *)
Definition dayOfMonth (z : Z) : Z :=
  let z' := z + 719468 in
  let era := z' / 146097 in
  let doe := z' - era * 146097 in
  let yoe := (doe - doe / 1460 + doe / 36524 - doe / 146096) / 365 in
  let doy := doe - (365 * yoe + yoe / 4 - yoe / 100) in
  let mp := (5 * doy + 2) / 153 in
  doy - (153 * mp + 2) / 5 + 1.

Definition getDate (d : option Z) : option Z :=
  option_map (fun ms => dayOfMonth (ms / msPerDay)) d.

(** [x === 0] on a number that may be [NaN]. *)
Definition isZero (x : option Z) : bool :=
  match x with
  | Some v => v =? 0
  | None => false
  end.

(** [hasPreciseTime(timestamp)] *)
Definition hasPreciseTime (t : timestamp_value) : bool :=
  let date := newDate t in
  negb (isZero (getHours date) && isZero (getMinutes date) && isZero (getSeconds date)).

(** [Math.abs(x - y)] on numbers that may be [NaN]. *)
Definition absDiff (x y : option Z) : option Z :=
  match x, y with
  | Some a, Some b => Some (Z.abs (a - b))
  | _, _ => None
  end.

(** [isTimeMatch(timestamp1, timestamp2)] *)
Definition isTimeMatch (timestamp1 timestamp2 : timestamp_value) : bool :=
  let time1 := newDate timestamp1 in
  let time2 := newDate timestamp2 in
  if hasPreciseTime timestamp1 && hasPreciseTime timestamp2 then
    match absDiff time1 time2 with
    | Some d =>
        let diffHours := (inject_Z d / inject_Z msPerHour)%Q in
        Qle_bool diffHours (inject_Z timeWindowHours)
    | None => false
    end
  else
    match absDiff (getDate time1) (getDate time2) with
    | Some diffDays => diffDays <=? timeWindowDays
    | None => false
    end.

(** [calculateTimeWindow(timestamp)]: the pair (start, end); [None] when
    [toISOString] throws on an Invalid Date. *)
Definition calculateTimeWindow (t : timestamp_value) : option (Z * Z) :=
  match newDate t with
  | Some baseTime =>
      if hasPreciseTime t then
        Some (baseTime - timeWindowHours * msPerHour, baseTime + timeWindowHours * msPerHour)
      else
        Some (baseTime - timeWindowDays * msPerDay, baseTime + timeWindowDays * msPerDay)
  | None => None
  end.

(** [isAmountMatch(amount1, amount2)] in exact arithmetic, as the
    candidate search is modelled.  The code computes it in binary64
    arithmetic: that is [Rounded.isAmountMatch] below, which gives the same
    answer except within a margin of [2 ^ -51] of the boundary. *)
Definition isAmountMatch (amount1 amount2 : option Q) : bool :=
  match amount1, amount2 with
  | Some a1, Some a2 =>
      let tolerance := (Qmax a1 a2 * amountTolerance)%Q in
      let difference := Qabs (a1 - a2) in
      Qle_bool difference tolerance
  | _, _ => false
  end.

(** The same test on IEEE 754 binary64 numbers, the numbers JavaScript
    computes with; it is used to evaluate the test at given amounts. *)
Module Binary64.

(** [Math.max(a, b)] *)
Definition max (a b : float) : float :=
  if PrimFloat.is_nan a || PrimFloat.is_nan b then PrimFloat.nan
  else if PrimFloat.ltb a b then b else a.

Definition amountTolerance : float := 0x1.999999999999ap-5%float.

(** [isAmountMatch(amount1, amount2)] *)
Definition isAmountMatch (amount1 amount2 : float) : bool :=
  let tolerance := PrimFloat.mul (max amount1 amount2) amountTolerance in
  let difference := PrimFloat.abs (PrimFloat.sub amount1 amount2) in
  PrimFloat.leb difference tolerance.

End Binary64.

(** Binary64 arithmetic on the rationals: a number of the code is the
    rational it stands for, and the result of an operation is the exact
    result rounded to the nearest binary64 number. *)
Module Rounded.

(** The integer [k] with [2 ^ k <= x < 2 ^ (k + 1)], for a positive [x]. *)
Definition ilog2 (x : Q) : Z :=
  let k := Z.log2 (Qnum x) - Z.log2 (Z.pos (Qden x)) in
  if Qle_bool (2 ^ k) x then k else k - 1.

(** The integer nearest to [x]; halfway between two integers, the even one. *)
Definition roundHalfEven (x : Q) : Z :=
  let f := Qfloor x in
  match (x - inject_Z f ?= 1 # 2)%Q with
  | Lt => f
  | Gt => f + 1
  | Eq => if Z.even f then f else f + 1
  end.

(** The exponent of the last bit of the binary64 numbers around [x]:
    53 significant bits, and no exponent below that of the subnormal
    numbers. *)
Definition exponentOf (x : Q) : Z := Z.max (ilog2 (Qabs x) - 52) (-1074).

(** Rounding to the nearest binary64 number, ties to even.  Overflow is
    left out: it takes a magnitude of [2 ^ 1024]. *)
Definition round64 (x : Q) : Q :=
  if Qeq_bool x 0 then 0%Q
  else (inject_Z (roundHalfEven (x / 2 ^ exponentOf x)) * 2 ^ exponentOf x)%Q.

(** The number that the literal [0.05] of the constructor denotes. *)
Definition amountTolerance : Q := round64 (5 # 100).

(** [isAmountMatch(amount1, amount2)], each operation rounded;
    [Math.max] and [Math.abs] are exact. *)
Definition isAmountMatch (amount1 amount2 : option Q) : bool :=
  match amount1, amount2 with
  | Some a1, Some a2 =>
      let tolerance := round64 (Qmax a1 a2 * amountTolerance) in
      let difference := Qabs (round64 (a1 - a2)) in
      Qle_bool difference tolerance
  | _, _ => false
  end.

(** The rational that a binary64 number stands for; [None] for the
    infinities and [NaN]. *)
Definition valueOf (f : float) : option Q :=
  match Prim2SF f with
  | SpecFloat.S754_zero _ => Some 0%Q
  | SpecFloat.S754_finite negative m e =>
      Some ((if negative then -1 else 1) * inject_Z (Z.pos m) * 2 ^ e)%Q
  | _ => None
  end.

Definition sameValue (x : option Q) (y : Q) : bool :=
  match x with
  | Some v => Qeq_bool v y
  | None => false
  end.


End Rounded.


(** The [else] branch of [isTimeMatch]: the day window. *)
Definition dayWindowMatch (timestamp1 timestamp2 : timestamp_value) : bool :=
  match absDiff (getDate (newDate timestamp1)) (getDate (newDate timestamp2)) with
  | Some diffDays => diffDays <=? timeWindowDays
  | None => false
  end.

(** [chooseBetterTimestamp(existing, newTimestamp)] *)
Definition chooseBetterTimestamp (existing newTimestamp : timestamp_value) : timestamp_value :=
  match existing, newTimestamp with
  | TsAbsent, _ => newTimestamp
  | _, TsAbsent => existing
  | _, _ =>
      if hasPreciseTime newTimestamp && negb (hasPreciseTime existing)
      then newTimestamp
      else existing
  end.

(* ================================================================== *)
(** * 2. Transactions and the field-level merge                        *)
(* ================================================================== *)

#[local] Open Scope string_scope.
#[local] Open Scope list_scope.

(** An entry of [items]. *)
Record item : Type := mkItem {
  name : option string;
  quantity : option Q;
  price : option Q
}.

(** An entry of [sources]. *)
Record source : Type := mkSource {
  input_type : string;
  uri : option string;
  added_at : option Z
}.

(** The [correlation_info] object that a merge writes on the winner. *)
Record correlationInfo : Type := mkCorrelationInfo {
  merged_at : Z;
  info_correlation_type : string;
  info_confidence : Q;
  info_reason : option string;
  merged_transaction_id : string
}.

(** A transaction document.  [id] is absent on a transaction that has not
    been saved yet; optional fields are [undefined] when [None]. *)
Record transaction : Type := mkTransaction {
  id : option string;
  userId : option string;
  merchant : option string;
  amount : option Q;
  currency : option string;
  category : option string;
  timestamp : timestamp_value;
  items : option (list item);
  sources : option (list source);
  correlation_id : option string;
  correlation_info : option correlationInfo;
  updated_at : option Z;
  status : option string
}.

(** The [inputData] of a request: its [type] and [metadata?.uri]. *)
Record inputData : Type := mkInputData {
  type : string;
  metadata_uri : option string
}.

(** Truthiness of an optional string and of an optional number. *)
Definition truthyString (s : option string) : bool :=
  match s with
  | Some v => negb (v =? "")
  | None => false
  end.

Definition truthyNumber (q : option Q) : bool :=
  match q with
  | Some v => negb (Qeq_bool v 0)
  | None => false
  end.

(** [a || b] on optional strings and numbers. *)
Definition orString (a b : option string) : option string :=
  if truthyString a then a else b.

Definition orNumber (a b : option Q) : option Q :=
  if truthyNumber a then a else b.

(** [a || 'literal'], where the literal is a non-empty string. *)
Definition orDefault (a : option string) (fallback : string) : string :=
  match a with
  | Some v => if v =? "" then fallback else v
  | None => fallback
  end.

(** [String.prototype.toLowerCase], on the ASCII letters. *)
Definition lowerAscii (c : ascii) : ascii :=
  let n := nat_of_ascii c in
  if ((65 <=? n) && (n <=? 90))%nat then ascii_of_nat (n + 32) else c.

Fixpoint toLowerCase (s : string) : string :=
  match s with
  | EmptyString => EmptyString
  | String c rest => String (lowerAscii c) (toLowerCase rest)
  end.

(** [x === y] on values that are a string or [undefined]. *)
Definition strictEqString (x y : option string) : bool :=
  match x, y with
  | Some a, Some b => a =? b
  | None, None => true
  | _, _ => false
  end.

(** The callback of [merged.find] in [mergeItems]:
    [item.name?.toLowerCase() === newItem.name?.toLowerCase()]. *)
Definition sameItemName (newItem it : item) : bool :=
  strictEqString (option_map toLowerCase (name it))
                 (option_map toLowerCase (name newItem)).

(** The [for (const newItem of newItems)] loop of [mergeItems]. *)
Fixpoint pushMissing (merged newItems : list item) : list item :=
  match newItems with
  | [] => merged
  | newItem :: rest =>
      match find (sameItemName newItem) merged with
      | Some _ => pushMissing merged rest
      | None => pushMissing (merged ++ [newItem]) rest
      end
  end.

(** [newItem] has a namesake in [merged]. *)
Definition named (merged : list item) (newItem : item) : Prop :=
  find (sameItemName newItem) merged <> None.

Definition isEmptyOrMissing {A : Type} (l : option (list A)) : bool :=
  match l with
  | None | Some [] => true
  | Some (_ :: _) => false
  end.

Definition orEmpty {A : Type} (l : option (list A)) : list A :=
  match l with
  | Some v => v
  | None => []
  end.

(** [mergeItems(existingItems, newItems)] *)
Definition mergeItems (existingItems newItems : option (list item)) : list item :=
  if isEmptyOrMissing existingItems then orEmpty newItems
  else if isEmptyOrMissing newItems then orEmpty existingItems
  else pushMissing (orEmpty existingItems) (orEmpty newItems).

(* ================================================================== *)
(** * 3. The oracle's verdicts and the defensive parser                *)
(* ================================================================== *)

(** One entry of [correlations] as the callers read it, after the
    parser's defaults have been applied. *)
Record analysis : Type := mkAnalysis {
  transaction_index : option Z;
  is_correlated : bool;
  confidence : Q;
  correlation_type : string;
  reason : option string;
  recommended_action : string
}.

(** An object of the oracle's [correlations] array as [JSON.parse] returns
    it: every property may be missing. *)
Record rawCorrelation : Type := mkRaw {
  raw_transaction_index : option Z;
  raw_is_correlated : option bool;
  raw_confidence : option Q;
  raw_correlation_type : option string;
  raw_reason : option string;
  raw_recommended_action : option string
}.

(** An element of the array: an object, or [null] or a primitive value, on
    which the property assignments of the parser throw a TypeError (class
    bodies are strict code). *)
Inductive jsonEntry : Type :=
  | EntryObject (r : rawCorrelation)
  | EntryPrimitive.

(** The value of [JSON.parse(jsonText)], as far as the parser looks at it:
    [null] or a primitive (the access to [.correlations] throws), or an
    object whose [correlations] property is an array or is not. *)
Inductive jsonValue : Type :=
  | JsonPrimitive
  | JsonObject (correlations : option (list jsonEntry)).

(** The default verdict with the given index and reason. *)
Definition defaultAnalysis (index : Z) (why : string) : analysis :=
  {| transaction_index := Some index;
     is_correlated := false;
     confidence := 0;
     correlation_type := "unrelated";
     reason := Some why;
     recommended_action := "keep_separate" |}.

(** [Array.from({ length: n }, (_, index) => default(index + 1))], also
    [potentialMatches.map((_, index) => default(index + 1))]. *)
Definition defaultsFor (n : nat) (why : string) : list analysis :=
  map (fun index => defaultAnalysis (Z.of_nat index + 1) why) (seq 0 n).

(** The object pushed by the padding loop. *)
Definition paddingEntry (len : nat) : jsonEntry :=
  EntryObject
    {| raw_transaction_index := Some (Z.of_nat len + 1);
       raw_is_correlated := Some false;
       raw_confidence := Some 0%Q;
       raw_correlation_type := Some "unrelated";
       raw_reason := Some "No analysis provided";
       raw_recommended_action := Some "keep_separate" |}.

(** [while (correlations.length < expectedCount) correlations.push(...)];
    [missing] is the number of rounds, [expectedCount - length]. *)
Fixpoint padCorrelations (missing : nat) (correlations : list jsonEntry) : list jsonEntry :=
  match missing with
  | O => correlations
  | S missing' =>
      padCorrelations missing' (correlations ++ [paddingEntry (List.length correlations)])
  end.

(** The body of the [forEach] that sets the defaults of one entry;
    [None] when the assignment throws. *)
Definition setDefaults (e : jsonEntry) : option analysis :=
  match e with
  | EntryPrimitive => None
  | EntryObject r =>
      Some {| transaction_index := raw_transaction_index r;
              is_correlated := match raw_is_correlated r with
                               | Some b => b || false
                               | None => false
                               end;
              confidence := match raw_confidence r with
                            | Some q => if Qeq_bool q 0 then 0%Q else q
                            | None => 0%Q
                            end;
              correlation_type := orDefault (raw_correlation_type r) "unrelated";
              reason := raw_reason r;
              recommended_action := orDefault (raw_recommended_action r) "keep_separate" |}
  end.

Fixpoint setDefaultsAll (l : list jsonEntry) : option (list analysis) :=
  match l with
  | [] => Some []
  | e :: rest =>
      match setDefaults e, setDefaultsAll rest with
      | Some a, Some rest' => Some (a :: rest')
      | _, _ => None
      end
  end.

(** The [try] block of [parseMultipleCorrelationResponse].  [JSON_parse]
    stands for the text clean-up followed by [JSON.parse]; it is [None]
    when that throws.  The result is [None] when the block throws. *)
Definition parseMultipleCorrelationBody (JSON_parse : string -> option jsonValue)
    (responseText : string) (expectedCount : nat) : option (list analysis) :=
  match JSON_parse responseText with
  | None => None
  | Some JsonPrimitive => None
  | Some (JsonObject found) =>
      let correlations := orEmpty found in
      let padded := padCorrelations (expectedCount - List.length correlations) correlations in
      setDefaultsAll padded
  end.

(** [parseMultipleCorrelationResponse(responseText, expectedCount)]: the
    [correlations] array of the returned object. *)
Definition parseMultipleCorrelationResponse (JSON_parse : string -> option jsonValue)
    (responseText : string) (expectedCount : nat) : list analysis :=
  match parseMultipleCorrelationBody JSON_parse responseText expectedCount with
  | Some correlations => correlations
  | None => defaultsFor expectedCount "Failed to parse analysis"
  end.

(** The no-correlation verdict of the specification, whatever its index
    and reason. *)
Definition isDefaultVerdict (a : analysis) : Prop :=
  is_correlated a = false /\ confidence a = 0%Q /\
  correlation_type a = "unrelated" /\ recommended_action a = "keep_separate".

(* ================================================================== *)
(** * 4. Effects: the record store, the oracle and the clock           *)
(* ================================================================== *)

(** The outcome of a call that may throw. *)
Inductive result (A : Type) : Type :=
  | Ok (a : A)
  | Failed (message : string).

Arguments Ok {A} a.
Arguments Failed {A} message.

(** The [mergedData] object that [mergeTransactions] writes on the winner. *)
Record mergedData : Type := mkMergedData {
  md_sources : list source;
  md_merchant : option string;
  md_amount : option Q;
  md_currency : option string;
  md_category : option string;
  md_items : list item;
  md_timestamp : timestamp_value;
  md_correlation_info : correlationInfo;
  md_updated_at : Z
}.

(** The calls the service makes to its collaborators.  All but [Now] are
    awaited: other requests may run while the answer is pending. *)
Inductive effect : Type -> Type :=
  | GetUserTransactions (user : option string) (startDate endDate : Z) (limit : nat)
      : effect (list transaction)
  | UpdateTransaction (transactionId : option string) (data : mergedData) : effect unit
  | DeleteDoc (transactionId : string) : effect unit
  | SaveTransaction (data : transaction) : effect string
  | CallGemini (newTransaction : transaction) (potentialMatches : list transaction)
      : effect string
  | Now : effect Z.

(** An asynchronous function: it returns, throws, or makes a call and goes
    on with its outcome. *)
Inductive prog (A : Type) : Type :=
  | Ret (a : A)
  | Raise (message : string)
  | Vis (X : Type) (e : effect X) (k : result X -> prog A).

Arguments Ret {A} a.
Arguments Raise {A} message.
Arguments Vis {A X} e k.

Fixpoint bind {A B : Type} (p : prog A) (f : A -> prog B) : prog B :=
  match p with
  | Ret a => f a
  | Raise m => Raise m
  | Vis e k => Vis e (fun r => bind (k r) f)
  end.

(** [try { p } catch (error) { handler(error.message) }] *)
Fixpoint tryCatch {A : Type} (p : prog A) (handler : string -> prog A) : prog A :=
  match p with
  | Ret a => Ret a
  | Raise m => handler m
  | Vis e k => Vis e (fun r => tryCatch (k r) handler)
  end.

(** A call whose failure is thrown at the call site. *)
Definition call {X : Type} (e : effect X) : prog X :=
  Vis e (fun r => match r with
                  | Ok x => Ret x
                  | Failed m => Raise m
                  end).

Notation "x <- c ;; k" := (bind c (fun x => k))
  (at level 61, c at next level, right associativity).

(** What the store and the oracle were asked, in order. *)
Inductive event : Type :=
  | EvQuery (user : option string) (startDate endDate : Z)
  | EvUpdate (transactionId : option string) (data : mergedData)
  | EvDelete (transactionId : string)
  | EvSave (data : transaction)
  | EvOracle (newTransaction : transaction) (potentialMatches : list transaction).

(** The state outside the service: the documents of the [transactions]
    collection, the faults the next store calls will meet ([true]: the call
    fails), the clock, the counter of generated ids and the calls made. *)
Record world : Type := mkWorld {
  docs : list transaction;
  faults : list bool;
  clock : Z;
  nextId : nat;
  calls : list event
}.

Definition setDocs (w : world) (d : list transaction) : world :=
  {| docs := d; faults := faults w; clock := clock w; nextId := nextId w; calls := calls w |}.

Definition logCall (w : world) (e : event) : world :=
  {| docs := docs w; faults := faults w; clock := clock w; nextId := nextId w;
     calls := calls w ++ [e] |}.

(** Takes the fault of the next store call. *)
Definition nextFault (w : world) : bool * world :=
  match faults w with
  | [] => (false, w)
  | f :: rest =>
      (f, {| docs := docs w; faults := rest; clock := clock w; nextId := nextId w;
             calls := calls w |})
  end.

Definition tick (w : world) : world :=
  {| docs := docs w; faults := faults w; clock := (clock w + 1)%Z; nextId := nextId w;
     calls := calls w |}.

Definition bumpId (w : world) : world :=
  {| docs := docs w; faults := faults w; clock := clock w; nextId := S (nextId w);
     calls := calls w |}.

(** ** The queries of [firebaseService] *)

Definition timeOf (t : transaction) : Z :=
  match timestamp t with
  | TsAt ms => ms
  | TsAbsent | TsInvalid => 0%Z
  end.

(** [where('timestamp', '>=', startDate)] and [where('timestamp', '<=', endDate)].
    The store compares the timestamp strings as text; for strings written
    as [toISOString] writes them that is the order of the instants, which
    is what is compared here. *)
Definition inRange (startDate endDate : Z) (t : transaction) : bool :=
  match timestamp t with
  | TsAt ms => ((startDate <=? ms) && (ms <=? endDate))%Z
  | TsAbsent | TsInvalid => false
  end.

Definition strictEqId (x y : option string) : bool := strictEqString x y.

(** [orderBy('timestamp', 'desc')]; documents of equal time keep the
    order of the collection. *)
Fixpoint insertByTimeDesc (t : transaction) (l : list transaction) : list transaction :=
  match l with
  | [] => [t]
  | x :: rest =>
      if (timeOf x <=? timeOf t)%Z then t :: l else x :: insertByTimeDesc t rest
  end.

Definition orderByTimestampDesc (l : list transaction) : list transaction :=
  fold_right insertByTimeDesc [] l.

(** The query built by [getUserTransactions(userId, { startDate, endDate, limit })]. *)
Definition queryTransactions (user : option string) (startDate endDate : Z) (limit : nat)
    (collection : list transaction) : list transaction :=
  let selected :=
    filter (fun d => strictEqString (userId d) user
                     && inRange startDate endDate d
                     && strictEqString (status d) (Some "active")) collection in
  firstn limit (orderByTimestampDesc selected).

(** [updateDoc] refuses data in which a field is [undefined] ("Unsupported
    field value: undefined"; the store is not configured to ignore such
    fields).  Of the fields of [mergedData] these can be: the four fields
    filled by [||], the chosen timestamp and the reason of the verdict, for
    which the parser sets no default. *)
Definition isDefined {A : Type} (x : option A) : bool :=
  match x with
  | Some _ => true
  | None => false
  end.

Definition definedData (data : mergedData) : bool :=
  isDefined (md_merchant data) && isDefined (md_amount data)
  && isDefined (md_currency data) && isDefined (md_category data)
  && match md_timestamp data with
     | TsAbsent => false
     | TsInvalid | TsAt _ => true
     end
  && isDefined (info_reason (md_correlation_info data)).

(** [updateDoc]: the fields of [mergedData] replace the document's;
    [updateTransaction] stamps [updated_at] itself. *)
Definition applyUpdate (data : mergedData) (stamp : Z) (d : transaction) : transaction :=
  {| id := id d;
     userId := userId d;
     merchant := md_merchant data;
     amount := md_amount data;
     currency := md_currency data;
     category := md_category data;
     timestamp := md_timestamp data;
     items := Some (md_items data);
     sources := Some (md_sources data);
     correlation_id := correlation_id d;
     correlation_info := Some (md_correlation_info data);
     updated_at := Some stamp;
     status := status d |}.

Definition hasId (i : option string) (d : transaction) : bool := strictEqId (id d) i.

Fixpoint updateFirst (i : option string) (f : transaction -> transaction)
    (l : list transaction) : list transaction :=
  match l with
  | [] => []
  | d :: rest => if hasId i d then f d :: rest else d :: updateFirst i f rest
  end.

(** Ids generated by [addDoc]: [doc0], [doc1], ... *)
Definition freshId (n : nat) : string :=
  "doc" ++ NilZero.string_of_uint (Nat.to_uint n).

(** The collaborators' answer to a call.  [oracle] is [callGemini]: the
    text it returns, or its failure (time-out, transport error). *)
Definition handle (oracle : transaction -> list transaction -> result string)
    {X : Type} (e : effect X) (w : world) : result X * world :=
  match e in effect T return result T * world with
  | GetUserTransactions user startDate endDate limit =>
      let (fault, w') := nextFault (logCall w (EvQuery user startDate endDate)) in
      if fault then (Failed "Failed to fetch transactions", w')
      else (Ok (queryTransactions user startDate endDate limit (docs w')), w')
  | UpdateTransaction transactionId data =>
      if definedData data then
        let (fault, w') := nextFault (logCall w (EvUpdate transactionId data)) in
        if fault then (Failed "Failed to update transaction", w')
        else
          match transactionId with
          | Some _ =>
              if existsb (hasId transactionId) (docs w') then
                (Ok tt, tick (setDocs w' (updateFirst transactionId
                                            (applyUpdate data (clock w')) (docs w'))))
              else (Failed "Failed to update transaction", w')
          | None => (Failed "Failed to update transaction", w')
          end
      else
        (Failed "Failed to update transaction", logCall w (EvUpdate transactionId data))
  | DeleteDoc transactionId =>
      let (fault, w') := nextFault (logCall w (EvDelete transactionId)) in
      if fault then (Failed "Failed to delete transaction", w')
      else (Ok tt, setDocs w' (filter (fun d => negb (hasId (Some transactionId) d)) (docs w')))
  | SaveTransaction data =>
      let (fault, w') := nextFault (logCall w (EvSave data)) in
      if fault then (Failed "Failed to save transaction", w')
      else
        let newId := freshId (nextId w') in
        let saved :=
          {| id := Some newId; userId := userId data; merchant := merchant data;
             amount := amount data; currency := currency data; category := category data;
             timestamp := timestamp data; items := items data; sources := sources data;
             correlation_id := correlation_id data; correlation_info := correlation_info data;
             updated_at := Some (clock w'); status := Some "active" |} in
        (Ok newId, tick (bumpId (setDocs w' (docs w' ++ [saved]))))
  | CallGemini newTransaction potentialMatches =>
      (oracle newTransaction potentialMatches,
       logCall w (EvOracle newTransaction potentialMatches))
  | Now => (Ok (clock w), tick w)
  end.

(** Runs an asynchronous function to its end with nothing else running. *)
Fixpoint run {A : Type} (oracle : transaction -> list transaction -> result string)
    (p : prog A) (w : world) : result A * world :=
  match p with
  | Ret a => (Ok a, w)
  | Raise m => (Failed m, w)
  | Vis e k => let (r, w') := handle oracle e w in run oracle (k r) w'
  end.

(* ================================================================== *)
(** * 5. The correlation service                                       *)
(* ================================================================== *)

(** The [for (const transaction of recentTransactions)] loop of
    [findPotentialMatches]. *)
Fixpoint candidateLoop (newTransaction : transaction) (recentTransactions : list transaction)
    : list transaction :=
  match recentTransactions with
  | [] => []
  | transaction :: rest =>
      if strictEqId (id transaction) (id newTransaction) then
        candidateLoop newTransaction rest
      else if truthyString (correlation_id transaction)
              || truthyString (correlation_id newTransaction) then
        candidateLoop newTransaction rest
      else if isAmountMatch (amount newTransaction) (amount transaction) then
        if isTimeMatch (timestamp newTransaction) (timestamp transaction) then
          transaction :: candidateLoop newTransaction rest
        else candidateLoop newTransaction rest
      else candidateLoop newTransaction rest
  end.

(** [findPotentialMatches(newTransaction, userId)] *)
Definition findPotentialMatches (newTransaction : transaction) (user : option string)
    : prog (list transaction) :=
  tryCatch
    (match calculateTimeWindow (timestamp newTransaction) with
     | None => Raise "Invalid time value"
     | Some (startDate, endDate) =>
         recentTransactions <- call (GetUserTransactions user startDate endDate 50) ;;
         Ret (candidateLoop newTransaction recentTransactions)
     end)
    (fun _ => Ret []).

(** What the candidate search returns in a given world, and the world it
    leaves: the query is logged and takes the next fault. *)
Definition candidatesFound (newTransaction : transaction) (user : option string) (w : world)
    : list transaction :=
  match calculateTimeWindow (timestamp newTransaction) with
  | None => []
  | Some (startDate, endDate) =>
      if fst (nextFault w) then []
      else candidateLoop newTransaction (queryTransactions user startDate endDate 50 (docs w))
  end.

Definition worldAfterSearch (newTransaction : transaction) (user : option string) (w : world)
    : world :=
  match calculateTimeWindow (timestamp newTransaction) with
  | None => w
  | Some (startDate, endDate) => snd (nextFault (logCall w (EvQuery user startDate endDate)))
  end.

(** [analyzeMultipleCorrelationsWithGemini(newTransaction, potentialMatches)] *)
Definition analyzeMultipleCorrelationsWithGemini (JSON_parse : string -> option jsonValue)
    (newTransaction : transaction) (potentialMatches : list transaction)
    : prog (list analysis) :=
  tryCatch
    (response <- call (CallGemini newTransaction potentialMatches) ;;
     Ret (parseMultipleCorrelationResponse JSON_parse response (List.length potentialMatches)))
    (fun _ => Ret (defaultsFor (List.length potentialMatches) "Analysis failed")).

(** What the gateway returns, as a function of the oracle's answer. *)
Definition gatewayVerdicts (JSON_parse : string -> option jsonValue)
    (oracle : transaction -> list transaction -> result string)
    (newTransaction : transaction) (potentialMatches : list transaction) : list analysis :=
  match oracle newTransaction potentialMatches with
  | Ok response =>
      parseMultipleCorrelationResponse JSON_parse response (List.length potentialMatches)
  | Failed _ => defaultsFor (List.length potentialMatches) "Analysis failed"
  end.

(** [bestMatch] of [findCorrelations]. *)
Record bestMatch : Type := mkBestMatch {
  best_transaction : transaction;
  best_analysis : analysis
}.

Definition Qlt_bool (x y : Q) : bool := negb (Qle_bool y x).

(** The loop of [findCorrelations] over the indices of [potentialMatches];
    [correlations[i]] is [undefined] past the end of [correlations]. *)
Fixpoint bestCorrelation (potentialMatches : list transaction) (correlations : list analysis)
    (best : option bestMatch) (bestConfidence : Q) : option bestMatch * Q :=
  match potentialMatches with
  | [] => (best, bestConfidence)
  | candidate :: rest =>
      match correlations with
      | [] => bestCorrelation rest [] best bestConfidence
      | a :: others =>
          if is_correlated a && Qlt_bool bestConfidence (confidence a) then
            bestCorrelation rest others
              (Some {| best_transaction := candidate; best_analysis := a |}) (confidence a)
          else bestCorrelation rest others best bestConfidence
      end
  end.

(** The decision of [findCorrelations]: the best match, when there is one
    and [bestConfidence >= 70]. *)
Definition decide (potentialMatches : list transaction) (correlations : list analysis)
    : option bestMatch :=
  match bestCorrelation potentialMatches correlations None 0%Q with
  | (Some b, bestConfidence) => if Qle_bool 70 bestConfidence then Some b else None
  | (None, _) => None
  end.

(** One round of the loop, on a candidate and the verdict at its index. *)
Definition considerPair (state : option bestMatch * Q) (pair : transaction * analysis)
    : option bestMatch * Q :=
  let (candidate, a) := pair in
  if is_correlated a && Qlt_bool (snd state) (confidence a) then
    (Some {| best_transaction := candidate; best_analysis := a |}, confidence a)
  else state.

(** Bounds on the confidence of a correlated verdict. *)
Definition below (bound : Q) (pair : transaction * analysis) : Prop :=
  is_correlated (snd pair) = true -> (confidence (snd pair) < bound)%Q.

Definition atMost (bound : Q) (pair : transaction * analysis) : Prop :=
  is_correlated (snd pair) = true -> (confidence (snd pair) <= bound)%Q.

(** [inputData.metadata?.uri || null] *)
Definition uriOrNull (input : inputData) : option string :=
  if truthyString (metadata_uri input) then metadata_uri input else None.

(** The [mergedData] object of [mergeTransactions]; the three readings of
    the clock are those of [added_at], [merged_at] and [updated_at]. *)
Definition buildMergedData (existingTransaction newTransaction : transaction)
    (input : inputData) (a : analysis) (addedAt mergedAt updatedAt : Z) : mergedData :=
  {| md_sources :=
       orEmpty (sources existingTransaction)
       ++ [ {| input_type := type input; uri := uriOrNull input; added_at := Some addedAt |} ];
     md_merchant := orString (merchant existingTransaction) (merchant newTransaction);
     md_amount := orNumber (amount existingTransaction) (amount newTransaction);
     md_currency := orString (currency existingTransaction) (currency newTransaction);
     md_category := orString (category existingTransaction) (category newTransaction);
     md_items := mergeItems (items existingTransaction) (items newTransaction);
     md_timestamp :=
       chooseBetterTimestamp (timestamp existingTransaction) (timestamp newTransaction);
     md_correlation_info :=
       {| merged_at := mergedAt;
          info_correlation_type := correlation_type a;
          info_confidence := confidence a;
          info_reason := reason a;
          merged_transaction_id := orDefault (id newTransaction) "unknown" |};
     md_updated_at := updatedAt |}.

(** The merged data of the pair holds no [undefined]: the store accepts
    it. *)
Definition writable (existingTransaction newTransaction : transaction)
    (input : inputData) (a : analysis) : Prop :=
  forall addedAt mergedAt updatedAt,
    definedData (buildMergedData existingTransaction newTransaction input a
                   addedAt mergedAt updatedAt) = true.

(** The winner as the store holds it once the update of a merge has been
    written: [existingTransaction] is the winner as it was read. *)
Definition mergedWinner (existingTransaction newTransaction : transaction)
    (input : inputData) (a : analysis) (addedAt mergedAt updatedAt stamp : Z) : transaction :=
  applyUpdate
    (buildMergedData existingTransaction newTransaction input a addedAt mergedAt updatedAt)
    stamp existingTransaction.

(** [mergeTransactions(existingTransaction, newTransaction, inputData, analysis)] *)
Definition mergeTransactions (existingTransaction newTransaction : transaction)
    (input : inputData) (a : analysis) : prog (option string) :=
  tryCatch
    (addedAt <- call Now ;;
     mergedAt <- call Now ;;
     updatedAt <- call Now ;;
     _ <- call (UpdateTransaction (id existingTransaction)
                  (buildMergedData existingTransaction newTransaction input a
                     addedAt mergedAt updatedAt)) ;;
     _ <- match id newTransaction with
          | Some duplicate =>
              if truthyString (id newTransaction) then call (DeleteDoc duplicate) else Ret tt
          | None => Ret tt
          end ;;
     Ret (id existingTransaction))
    (fun m => Raise m).

(** The object returned by [findCorrelations] after a merge. *)
Record merged : Type := mkMerged {
  existing_transaction_id : option string;
  merged_confidence : Q;
  merged_correlation_type : string
}.

(** [findCorrelations(newTransaction, userId, inputData)]; [None] is [null]. *)
Definition findCorrelations (JSON_parse : string -> option jsonValue)
    (newTransaction : transaction) (user : option string) (input : inputData)
    : prog (option merged) :=
  tryCatch
    (potentialMatches <- findPotentialMatches newTransaction user ;;
     match potentialMatches with
     | [] => Ret None
     | _ :: _ =>
         correlations <-
           analyzeMultipleCorrelationsWithGemini JSON_parse newTransaction potentialMatches ;;
         match decide potentialMatches correlations with
         | Some b =>
             _ <- mergeTransactions (best_transaction b) newTransaction input (best_analysis b) ;;
             Ret (Some {| existing_transaction_id := id (best_transaction b);
                          merged_confidence := confidence (best_analysis b);
                          merged_correlation_type := correlation_type (best_analysis b) |})
         | None => Ret None
         end
     end)
    (fun _ => Ret None).

(* ================================================================== *)
(** * 6. The receipt service around it, and interleaved requests       *)
(* ================================================================== *)

(** The fields of the extraction result that the expense branch reads. *)
Record processedData : Type := mkProcessed {
  expense_detected : bool;
  pd_merchant : option string;
  pd_amount : option Q;
  pd_currency : option string;
  pd_category : option string;
  pd_timestamp : timestamp_value;
  pd_items : option (list item)
}.

(** [processedData.timestamp || new Date().toISOString()] *)
Definition timestampOrNow (t : timestamp_value) : prog timestamp_value :=
  match t with
  | TsAbsent => now <- call Now ;; Ret (TsAt now)
  | TsInvalid | TsAt _ => Ret t
  end.

(** [processedData.amount > 0] *)
Definition isPositive (q : option Q) : bool :=
  match q with
  | Some v => Qlt_bool 0 v
  | None => false
  end.

(** The [transactionData] object of [createTransaction]; the wallet pass
    it may carry is not among the fields modelled here. *)
Definition transactionData (processed : processedData) (user : option string)
    (input : inputData) (stamp : timestamp_value) : transaction :=
  {| id := None;
     userId := user;
     merchant := orString (pd_merchant processed) (Some "Unknown Merchant");
     amount := pd_amount processed;
     currency := orString (pd_currency processed) (Some "INR");
     category := orString (pd_category processed) (Some "other");
     timestamp := stamp;
     items := Some (orEmpty (pd_items processed));
     sources := Some [ {| input_type := type input; uri := uriOrNull input;
                          added_at := None |} ];
     correlation_id := None;
     correlation_info := None;
     updated_at := None;
     status := None |}.

(** [createTransaction(processedData, userId, inputData)] *)
Definition createTransaction (processed : processedData) (user : option string)
    (input : inputData) : prog string :=
  tryCatch
    (stamp <- timestampOrNow (pd_timestamp processed) ;;
     call (SaveTransaction (transactionData processed user input stamp)))
    (fun _ => Raise "Failed to create transaction").

(** The [tempTransaction] object of [processReceipt]. *)
Definition tempTransaction (processed : processedData) (stamp : timestamp_value)
    : transaction :=
  {| id := None;
     userId := None;
     merchant := pd_merchant processed;
     amount := pd_amount processed;
     currency := pd_currency processed;
     category := pd_category processed;
     timestamp := stamp;
     items := Some (orEmpty (pd_items processed));
     sources := None;
     correlation_id := None;
     correlation_info := None;
     updated_at := None;
     status := None |}.

(** The [transaction] object of [triggerBackgroundProcesses]. *)
Definition backgroundTransaction (transactionId : string) (processed : processedData)
    (user : option string) (stamp : timestamp_value) : transaction :=
  {| id := Some transactionId;
     userId := user;
     merchant := pd_merchant processed;
     amount := pd_amount processed;
     currency := pd_currency processed;
     category := pd_category processed;
     timestamp := stamp;
     items := Some (orEmpty (pd_items processed));
     sources := None;
     correlation_id := None;
     correlation_info := None;
     updated_at := None;
     status := None |}.

(** [analyzeForCorrelations], as started by [triggerBackgroundProcesses]
    on the transaction that was just saved. *)
Definition analyzeForCorrelations (JSON_parse : string -> option jsonValue)
    (transactionId : string) (processed : processedData) (user : option string)
    (input : inputData) : prog (option merged) :=
  stamp <- timestampOrNow (pd_timestamp processed) ;;
  tryCatch
    (findCorrelations JSON_parse (backgroundTransaction transactionId processed user stamp)
       user input)
    (fun _ => Ret None).

Inductive receiptOutcome : Type :=
  | ExpenseMerged (correlation : merged)
  | ExpenseCreated (transaction_id : string)
  | NoExpense.

(** The expense branch of [processReceipt(inputData, userId)], from the
    extraction result on; the dispatch on [action_type] that precedes it
    is [ReceiptService.processReceipt] below.  The background correlation
    that it starts without awaiting is run here after the transaction is
    saved, as the rest of the same request. *)
Definition processReceipt (JSON_parse : string -> option jsonValue)
    (processed : processedData) (user : option string) (input : inputData)
    : prog receiptOutcome :=
  tryCatch
    (if expense_detected processed && isPositive (pd_amount processed) then
       stamp <- timestampOrNow (pd_timestamp processed) ;;
       correlation <-
         findCorrelations JSON_parse (tempTransaction processed stamp) user input ;;
       match correlation with
       | Some c => Ret (ExpenseMerged c)
       | None =>
           transactionId <- createTransaction processed user input ;;
           _ <- analyzeForCorrelations JSON_parse transactionId processed user input ;;
           Ret (ExpenseCreated transactionId)
       end
     else Ret NoExpense)
    (fun _ => Raise "Failed to process receipt").

(** Awaited calls: the points where another request may run. *)
Definition isAwaited {X : Type} (e : effect X) : bool :=
  match e with
  | Now => false
  | _ => true
  end.

(** Runs a request up to and including its next awaited call. *)
Fixpoint advance {A : Type} (oracle : transaction -> list transaction -> result string)
    (p : prog A) (w : world) : prog A * world :=
  match p with
  | Vis e k =>
      let (r, w') := handle oracle e w in
      if isAwaited e then (k r, w') else advance oracle (k r) w'
  | Ret _ | Raise _ => (p, w)
  end.

Fixpoint replaceNth {A : Type} (n : nat) (x : A) (l : list A) : list A :=
  match l, n with
  | [], _ => []
  | _ :: rest, O => x :: rest
  | y :: rest, S n' => y :: replaceNth n' x rest
  end.

(** Runs the requests of [pool] interleaved: each entry of [schedule]
    names the request that makes its next awaited call. *)
Fixpoint runSchedule {A : Type} (oracle : transaction -> list transaction -> result string)
    (schedule : list nat) (pool : list (prog A)) (w : world) : list (prog A) * world :=
  match schedule with
  | [] => (pool, w)
  | i :: rest =>
      match nth_error pool i with
      | Some p =>
          let (p', w') := advance oracle p w in
          runSchedule oracle rest (replaceNth i p' pool) w'
      | None => runSchedule oracle rest pool w
      end
  end.

(** A request that has returned or thrown. *)
Definition finished {A : Type} (p : prog A) : bool :=
  match p with
  | Vis _ _ => false
  | Ret _ | Raise _ => true
  end.

(** One request after the other, each run to its end. *)
Fixpoint runSequentially {A : Type} (oracle : transaction -> list transaction -> result string)
    (pool : list (prog A)) (w : world) : world :=
  match pool with
  | [] => w
  | p :: rest => runSequentially oracle rest (snd (run oracle p w))
  end.

(** The active documents of the collection. *)
Definition activeDocs (w : world) : list transaction :=
  filter (fun d => strictEqString (status d) (Some "active")) (docs w).

(** The requests for a list of receipts of one user. *)
Definition receipts (JSON_parse : string -> option jsonValue) (user : option string)
    (inputs : list (processedData * inputData)) : list (prog receiptOutcome) :=
  map (fun r => processReceipt JSON_parse (fst r) user (snd r)) inputs.

(** Calls that only read. *)
Definition isRead (ev : event) : Prop :=
  match ev with
  | EvQuery _ _ _ | EvOracle _ _ => True
  | EvUpdate _ _ | EvDelete _ | EvSave _ => False
  end.

(* ================================================================== *)
(** * 7. Scenarios                                                     *)
(* ================================================================== *)

(** Local times on 2025-01-24 and around the end of January 2025. *)
Definition jan24_0000 : Z := 1737676800000.
Definition jan24_1430 : Z := 1737729000000.
Definition jan24_1435 : Z := 1737729300000.

(** A stored, active transaction of user [u1]. *)
Definition storedTransaction (docId : string) (kind : string) (value : Q) (at_ms : Z)
    (correlation : option string) (updated : Z) : transaction :=
  {| id := Some docId;
     userId := Some "u1";
     merchant := Some "Cafe X";
     amount := Some value;
     currency := Some "INR";
     category := Some "food";
     timestamp := TsAt at_ms;
     items := Some [];
     sources := Some [ {| input_type := kind; uri := None; added_at := None |} ];
     correlation_id := correlation;
     correlation_info := None;
     updated_at := Some updated;
     status := Some "active" |}.

(** An incoming transaction as [processReceipt] hands it to
    [findCorrelations]: not saved yet. *)
Definition incomingTransaction (value : Q) (at_ms : Z) (goods : list item) : transaction :=
  {| id := None;
     userId := None;
     merchant := Some "Cafe X";
     amount := Some value;
     currency := Some "INR";
     category := Some "food";
     timestamp := TsAt at_ms;
     items := Some goods;
     sources := None;
     correlation_id := None;
     correlation_info := None;
     updated_at := None;
     status := None |}.

Definition latte : item := {| name := Some "Latte"; quantity := None; price := Some 252%Q |}.

(** The SMS record of 250 at 14:30, and the e-mail receipt of 252 at 14:35. *)
Definition cafeSms : transaction := storedTransaction "A" "sms" 250 jan24_1430 None jan24_1430.
Definition cafeEmail : transaction := incomingTransaction 252 jan24_1435 [latte].
Definition emailInput : inputData := {| type := "email"; metadata_uri := None |}.
Definition smsInput : inputData := {| type := "sms"; metadata_uri := None |}.

(** A verdict of the oracle, as parsed JSON. *)
Definition rawVerdict (index : Z) (correlated : bool) (value : Q) (kind action : string)
    : jsonEntry :=
  EntryObject {| raw_transaction_index := Some index;
                 raw_is_correlated := Some correlated;
                 raw_confidence := Some value;
                 raw_correlation_type := Some kind;
                 raw_reason := Some "same merchant and amount";
                 raw_recommended_action := Some action |}.

(** Oracles: one that answers with some text, one that times out. *)
Definition oracleAnswers (_ : transaction) (_ : list transaction) : result string :=
  Ok "{ ... }".

Definition oracleTimesOut (_ : transaction) (_ : list transaction) : result string :=
  Failed "timeout".

(** Parsers: the text holds the given verdicts, or cannot be parsed. *)
Definition parsesTo (entries : list jsonEntry) (_ : string) : option jsonValue :=
  Some (JsonObject (Some entries)).

Definition unparsable (_ : string) : option jsonValue := None.

(** The oracle that finds every candidate a duplicate, with confidence 95. *)
Definition parsesAllDuplicates (_ : string) : option jsonValue :=
  Some (JsonObject (Some [ rawVerdict 1 true 95 "duplicate" "merge";
                           rawVerdict 2 true 95 "duplicate" "merge";
                           rawVerdict 3 true 95 "duplicate" "merge" ])).

(** A world whose store holds the given documents and works. *)
Definition worldWith (stored : list transaction) : world :=
  {| docs := stored; faults := []; clock := jan24_1435; nextId := 0; calls := [] |}.

(** The same, with the next store call failing. *)
Definition worldStoreDown (stored : list transaction) : world :=
  {| docs := stored; faults := [true]; clock := jan24_1435; nextId := 0; calls := [] |}.

(** Two candidates of equal amount and time; the second was updated more
    recently. *)
Definition staleCandidate : transaction :=
  storedTransaction "B" "sms" 250 jan24_1430 None jan24_1430.

Definition freshCandidate : transaction :=
  storedTransaction "C" "image" 250 jan24_1430 None jan24_1435.

(** A correlated verdict of the given classification and confidence. *)
Definition correlatedVerdict (index : Z) (kind : string) (value : Q) : analysis :=
  {| transaction_index := Some index;
     is_correlated := true;
     confidence := value;
     correlation_type := kind;
     reason := None;
     recommended_action := "merge" |}.

(** The same, with the reason the oracle gave. *)
Definition reasonedVerdict (index : Z) (kind : string) (value : Q) : analysis :=
  {| transaction_index := Some index;
     is_correlated := true;
     confidence := value;
     correlation_type := kind;
     reason := Some "same merchant and amount";
     recommended_action := "merge" |}.

(** The SMS record, bound to a correlation record by an earlier
    [createCorrelationRecord]. *)
Definition cafeSmsCorrelated : transaction :=
  storedTransaction "A" "sms" 250 jan24_1430 (Some "corr_1737700000000_k3x9") jan24_1430.

(** The e-mail receipt once it has been saved on its own, as the
    background correlation sees it. *)
Definition cafeEmailSaved : transaction :=
  storedTransaction "B" "email" 252 jan24_1435 None jan24_1435.

(** A working store in which the third call fails: the query and the
    update of the winner succeed, the deletion of the duplicate does not. *)
Definition worldDeleteFails (stored : list transaction) : world :=
  {| docs := stored; faults := [false; false; true]; clock := jan24_1435; nextId := 0;
     calls := [] |}.

(** The kinds of the sources of each stored document. *)
Definition sourceKinds (w : world) : list (option string * list string) :=
  map (fun d => (id d, map input_type (orEmpty (sources d)))) (docs w).

(** Receipts of the same purchase at the cafe, from different channels. *)
Definition cafeReceipt (kind : string) (value : Q) (at_ms : Z)
    : processedData * inputData :=
  ({| expense_detected := true;
      pd_merchant := Some "Cafe X";
      pd_amount := Some value;
      pd_currency := Some "INR";
      pd_category := Some "food";
      pd_timestamp := TsAt at_ms;
      pd_items := None |},
   {| type := kind; metadata_uri := None |}).

(** The kind of a call. *)
Definition eventName (ev : event) : string :=
  match ev with
  | EvQuery _ _ _ => "query"
  | EvUpdate _ _ => "update"
  | EvDelete _ => "delete"
  | EvSave _ => "save"
  | EvOracle _ _ => "oracle"
  end.

(** Two requests taking turns at every awaited call. *)
Definition takingTurns : list nat := [0; 1; 0; 1; 0; 1; 0; 1; 0; 1; 0; 1]%nat.

(* ================================================================== *)
(** * 8. Single verdicts, correlation records and the rest of the store *)
(* ================================================================== *)

(** The name under which [mergeItems] compares an item. *)
Definition itemKey (it : item) : option string := option_map toLowerCase (name it).

(** ** One pair of transactions *)

(** The verdict returned when the analysis of a single pair fails. *)
Definition failedAnalysis (why : string) : analysis :=
  {| transaction_index := None;
     is_correlated := false;
     confidence := 0;
     correlation_type := "unrelated";
     reason := Some why;
     recommended_action := "keep_separate" |}.

(** [parseGeminiCorrelationResponse(responseText)]; [JSON_parse] stands
    for the text clean-up followed by [JSON.parse], [None] when it throws. *)
Definition parseGeminiCorrelationResponse (JSON_parse : string -> option jsonEntry)
    (responseText : string) : analysis :=
  match JSON_parse responseText with
  | Some parsed =>
      match setDefaults parsed with
      | Some a => a
      | None => failedAnalysis "Failed to parse analysis"
      end
  | None => failedAnalysis "Failed to parse analysis"
  end.

(** [analyzeCorrelationWithGemini(transaction1, transaction2)]; the oracle
    is asked about the first transaction and the list of the second. *)
Definition analyzeCorrelationWithGemini (JSON_parse : string -> option jsonEntry)
    (transaction1 transaction2 : transaction) : prog analysis :=
  tryCatch
    (response <- call (CallGemini transaction1 [transaction2]) ;;
     Ret (parseGeminiCorrelationResponse JSON_parse response))
    (fun _ => Ret (failedAnalysis "Analysis failed")).

(** ** Store calls made outside the correlation attempt

    They are written in state-passing style on the same world; like the
    calls of [handle] each takes the next fault. *)

(** [getDoc(doc(db, 'transactions', transactionId))]: the document, if it
    exists. *)
Definition getDoc (transactionId : string) (w : world)
    : result (option transaction) * world :=
  let (fault, w') := nextFault w in
  if fault then (Failed "Failed to fetch transaction", w')
  else (Ok (find (hasId (Some transactionId)) (docs w')), w').

(** [firebaseService.updateTransaction(transactionId, updateData)] for an
    update that changes the document by [change]; [updated_at] is stamped. *)
Definition updateFields (transactionId : option string)
    (change : transaction -> transaction) (w : world) : result unit * world :=
  let (fault, w') := nextFault w in
  if fault then (Failed "Failed to update transaction", w')
  else
    match transactionId with
    | Some _ =>
        if existsb (hasId transactionId) (docs w') then
          (Ok tt,
           tick (setDocs w'
                   (updateFirst transactionId
                      (fun d =>
                         let d' := change d in
                         {| id := id d'; userId := userId d'; merchant := merchant d';
                            amount := amount d'; currency := currency d';
                            category := category d'; timestamp := timestamp d';
                            items := items d'; sources := sources d';
                            correlation_id := correlation_id d';
                            correlation_info := correlation_info d';
                            updated_at := Some (clock w'); status := status d' |})
                      (docs w'))))
        else (Failed "Failed to update transaction", w')
    | None => (Failed "Failed to update transaction", w')
    end.

(** The update [{ status: 'deleted' }]. *)
Definition setDeleted (d : transaction) : transaction :=
  {| id := id d; userId := userId d; merchant := merchant d; amount := amount d;
     currency := currency d; category := category d; timestamp := timestamp d;
     items := items d; sources := sources d; correlation_id := correlation_id d;
     correlation_info := correlation_info d; updated_at := updated_at d;
     status := Some "deleted" |}.

(** The update [{ correlation_id: correlationId, correlation_role: ... }];
    the role and the confidence it also writes are not among the fields
    modelled. *)
Definition setCorrelationId (correlationId : string) (d : transaction) : transaction :=
  {| id := id d; userId := userId d; merchant := merchant d; amount := amount d;
     currency := currency d; category := category d; timestamp := timestamp d;
     items := items d; sources := sources d; correlation_id := Some correlationId;
     correlation_info := correlation_info d; updated_at := updated_at d;
     status := status d |}.

(** [firebaseService.getTransaction(transactionId, userId)] *)
Definition getTransaction (transactionId : string) (user : option string) (w : world)
    : result transaction * world :=
  match getDoc transactionId w with
  | (Ok (Some d), w') =>
      if strictEqString (userId d) user then (Ok d, w')
      else (Failed "Failed to fetch transaction: Unauthorized to access this transaction", w')
  | (Ok None, w') => (Failed "Failed to fetch transaction: Transaction not found", w')
  | (Failed _, w') => (Failed "Failed to fetch transaction", w')
  end.

(** [firebaseService.deleteTransaction(transactionId, userId)]: a soft
    delete, after the ownership check. *)
Definition deleteTransaction (transactionId : string) (user : option string) (w : world)
    : result bool * world :=
  match getDoc transactionId w with
  | (Ok (Some d), w') =>
      if strictEqString (userId d) user then
        match updateFields (Some transactionId) setDeleted w' with
        | (Ok _, w'') => (Ok true, w'')
        | (Failed _, w'') => (Failed "Failed to delete transaction", w'')
        end
      else (Failed "Failed to delete transaction: Unauthorized to delete this transaction", w')
  | (Ok None, w') => (Failed "Failed to delete transaction: Transaction not found", w')
  | (Failed _, w') => (Failed "Failed to delete transaction", w')
  end.

(** The query built by [getUserTransactions(userId, { limit })]: the
    active documents of the user, latest first.  Documents without a
    readable timestamp are left out of the ordering, as in [inRange]. *)
Definition recentTransactions (user : option string) (limit : nat)
    (collection : list transaction) : list transaction :=
  let selected :=
    filter (fun d => strictEqString (userId d) user
                     && match timestamp d with TsAt _ => true | _ => false end
                     && strictEqString (status d) (Some "active")) collection in
  firstn limit (orderByTimestampDesc selected).

(** [getUserTransactions(userId, { limit })] as a store call. *)
Definition getRecentTransactions (user : option string) (limit : nat) (w : world)
    : result (list transaction) * world :=
  let (fault, w') := nextFault w in
  if fault then (Failed "Failed to fetch transactions", w')
  else (Ok (recentTransactions user limit (docs w')), w').

(** ** Deletion requests (receiptService) *)

(** [String.prototype.includes] *)
Fixpoint includes (s target : string) : bool :=
  prefix target s
  || match s with
     | EmptyString => false
     | String _ rest => includes rest target
     end.

(** [processedData.deletion_target?.toLowerCase() || ''] *)
Definition deletionTargetOf (deletion_target : option string) : string :=
  match deletion_target with
  | Some v => toLowerCase v
  | None => ""
  end.

(** The test of the loop of [handleDeletion]:
    [transaction.merchant?.toLowerCase().includes(deletionTarget) ||
     transaction.category?.toLowerCase().includes(deletionTarget)]. *)
Definition matchesDeletionTarget (deletionTarget : string) (t : transaction) : bool :=
  match merchant t with
  | Some m => includes (toLowerCase m) deletionTarget
  | None => false
  end
  || match category t with
     | Some c => includes (toLowerCase c) deletionTarget
     | None => false
     end.

(** [handleDeletion(processedData, userId)]: the [deleted_count] it
    returns.  The loop stops at the first match. *)
Definition handleDeletion (deletion_target : option string) (user : option string)
    (w : world) : result nat * world :=
  match getRecentTransactions user 10 w with
  | (Ok transactions, w') =>
      match find (matchesDeletionTarget (deletionTargetOf deletion_target)) transactions with
      | Some t =>
          match id t with
          | Some transactionId =>
              match deleteTransaction transactionId user w' with
              | (Ok _, w'') => (Ok 1%nat, w'')
              | (Failed _, w'') => (Failed "Failed to process deletion", w'')
              end
          | None => (Failed "Failed to process deletion", w')
          end
      | None => (Ok 0%nat, w')
      end
  | (Failed _, w') => (Failed "Failed to process deletion", w')
  end.

(** ** Queries (receiptService) *)

(** [firebaseService.getSpendingBaseline(userId)] as a store call: it reads
    the clock for the cut-off date and queries the store; the totals it
    computes from the answer are not modelled. *)
Definition getSpendingBaseline (w : world) : result unit * world :=
  let (fault, w') := nextFault (tick w) in
  if fault then (Failed "Failed to get spending baseline", w') else (Ok tt, w').

(** [handleQuery(processedData, userId)]: the [recent_transactions] of the
    object it returns. *)
Definition handleQuery (user : option string) (w : world)
    : result (list transaction) * world :=
  match getRecentTransactions user 20 w with
  | (Ok transactions, w') =>
      match getSpendingBaseline w' with
      | (Ok _, w'') => (Ok (firstn 5 transactions), w'')
      | (Failed _, w'') => (Failed "Failed to process query", w'')
      end
  | (Failed _, w') => (Failed "Failed to process query", w')
  end.

(** What [processReceipt] answers, by the branch taken. *)
Inductive receiptAnswer : Type :=
  | DeletionAnswer (deleted_count : nat)
  | QueryAnswer (recent_transactions : list transaction)
  | ExpenseAnswer (outcome : receiptOutcome).

(** The fields of the extraction result that the dispatch reads. *)
Record requestedAction : Type := mkRequestedAction {
  action_type : option string;
  deletion_target : option string
}.

Module ReceiptService.

(** [processReceipt(inputData, userId)] from the extraction result on: the
    dispatch on [action_type], then the expense branch. *)
Definition processReceipt (JSON_parse : string -> option jsonValue)
    (oracle : transaction -> list transaction -> result string)
    (action : requestedAction) (processed : processedData) (user : option string)
    (input : inputData) (w : world) : result receiptAnswer * world :=
  if strictEqString (action_type action) (Some "deletion") then
    match handleDeletion (deletion_target action) user w with
    | (Ok deleted_count, w') => (Ok (DeletionAnswer deleted_count), w')
    | (Failed _, w') => (Failed "Failed to process receipt", w')
    end
  else if strictEqString (action_type action) (Some "query") then
    match handleQuery user w with
    | (Ok recent, w') => (Ok (QueryAnswer recent), w')
    | (Failed _, w') => (Failed "Failed to process receipt", w')
    end
  else
    match run oracle (processReceipt JSON_parse processed user input) w with
    | (Ok outcome, w') => (Ok (ExpenseAnswer outcome), w')
    | (Failed m, w') => (Failed m, w')
    end.

End ReceiptService.

(** The request reaches the expense branch. *)
Definition isExpenseRequest (action : requestedAction) : Prop :=
  action_type action <> Some "deletion" /\ action_type action <> Some "query".

(** ** Correlation records *)

(** An entry of the [correlations] argument of [createCorrelationRecord]:
    a transaction and its verdict. *)
Record correlated : Type := mkCorrelated {
  cor_transaction : transaction;
  cor_correlation : analysis
}.

(** The callback of the [reduce] of [createCorrelationRecord]. *)
Definition betterCorrelation (best current : correlated) : correlated :=
  if Qlt_bool (confidence (cor_correlation best)) (confidence (cor_correlation current))
  then current else best.

(** [correlations.reduce((best, current) => ...)], without an initial
    value: [None] stands for the TypeError on the empty array. *)
Definition bestCorrelationOf (correlations : list correlated) : option correlated :=
  match correlations with
  | [] => None
  | first :: rest => Some (fold_left betterCorrelation rest first)
  end.

(** The loop of [updateTransactionsWithCorrelation] over the correlated
    transactions. *)
Fixpoint updateCorrelated (correlations : list correlated) (correlationId : string)
    (w : world) : result unit * world :=
  match correlations with
  | [] => (Ok tt, w)
  | c :: rest =>
      match updateFields (id (cor_transaction c)) (setCorrelationId correlationId) w with
      | (Ok _, w') => updateCorrelated rest correlationId w'
      | (Failed m, w') => (Failed m, w')
      end
  end.

(** [updateTransactionsWithCorrelation(primaryTransactionId, correlations,
    correlationId)] *)
Definition updateTransactionsWithCorrelation (primaryTransactionId : option string)
    (correlations : list correlated) (correlationId : string) (w : world)
    : result unit * world :=
  match updateFields primaryTransactionId (setCorrelationId correlationId) w with
  | (Ok _, w') => updateCorrelated correlations correlationId w'
  | (Failed m, w') => (Failed m, w')
  end.

(** [saveCorrelationRecord(correlationData)]: the [correlations]
    collection it writes to is not part of the world modelled, nor is the
    record it is given, which [addDoc] refuses when it holds [undefined];
    the call takes the next fault. *)
Definition saveCorrelationRecord (w : world) : result unit * world :=
  let (fault, w') := nextFault w in
  if fault then (Failed "Error saving correlation record", w') else (Ok tt, w').

(** The [best_match] of the record that [createCorrelationRecord]
    returns, for the correlation id [corr_<suffix>] it generated. *)
Definition createCorrelationRecord (newTransaction : transaction)
    (correlations : list correlated) (suffix : string) (w : world)
    : result correlated * world :=
  let correlationId := String.append "corr_" suffix in
  match bestCorrelationOf correlations with
  | None => (Failed "Reduce of empty array with no initial value", w)
  | Some best =>
      match saveCorrelationRecord w with
      | (Ok _, w1) =>
          match updateTransactionsWithCorrelation (id newTransaction) correlations
                  correlationId w1 with
          | (Ok _, w2) => (Ok best, w2)
          | (Failed m, w2) => (Failed m, w2)
          end
      | (Failed m, w1) => (Failed m, w1)
      end
  end.

(** ** What a program never asks for *)

Definition isSave (ev : event) : Prop :=
  match ev with
  | EvSave _ => True
  | _ => False
  end.

Definition isSaveEffect {X : Type} (e : effect X) : bool :=
  match e with
  | SaveTransaction _ => true
  | _ => false
  end.

(** A program that never calls [saveTransaction], whatever the answers to
    its calls. *)
Inductive savesNothing {A : Type} : prog A -> Prop :=
  | savesNothing_ret (a : A) : savesNothing (Ret a)
  | savesNothing_raise (m : string) : savesNothing (Raise m)
  | savesNothing_vis (X : Type) (e : effect X) (k : result X -> prog A) :
      isSaveEffect e = false -> (forall r, savesNothing (k r)) -> savesNothing (Vis e k).

(** The documents other than those of ids [i] and [j] are still stored. *)
Definition untouched (i j : string) (w w' : world) : Prop :=
  forall d, In d (docs w) -> id d <> Some i -> id d <> Some j -> In d (docs w').

(** Every stored document has its own id. *)
Definition uniqueIds (w : world) : Prop := NoDup (map id (docs w)).

(** ** Orders used in the statements *)

(** [c] has a lower confidence than [best]. *)
Definition lowerThan (best : correlated) (c : correlated) : Prop :=
  (confidence (cor_correlation c) < confidence (cor_correlation best))%Q.

(** [c] has a confidence no higher than that of [best]. *)
Definition notHigherThan (best : correlated) (c : correlated) : Prop :=
  (confidence (cor_correlation c) <= confidence (cor_correlation best))%Q.

(** The documents whose id is in [marked] carry the correlation id. *)
Definition carry (correlationId : string) (marked : list (option string)) (w : world) : Prop :=
  forall d, In d (docs w) -> In (id d) marked -> correlation_id d = Some correlationId.

(* ================================================================== *)
(** * Properties                                                       *)
(* ================================================================== *)

(** ** Dates *)

Example dayOfMonth_epoch : dayOfMonth 0 = 1.
Proof. reflexivity. Qed.

Example dayOfMonth_leap_day : dayOfMonth 19782 = 29 /\ dayOfMonth 19783 = 1.
Proof. split; reflexivity. Qed.

Lemma diffHours_le (d : Z) :
  Qle_bool (inject_Z d / inject_Z msPerHour) (inject_Z timeWindowHours) = true
  <-> d <= msPerHour.
Proof.
  rewrite Qle_bool_iff.
  unfold Qle, Qdiv, Qmult, Qinv, inject_Z, msPerHour, timeWindowHours.
  simpl. lia.
Qed.

(** Two time-bearing timestamps match exactly when they are at most one
    hour apart. *)
Lemma isTimeMatch_precise (a b : Z) :
  hasPreciseTime (TsAt a) = true ->
  hasPreciseTime (TsAt b) = true ->
  (isTimeMatch (TsAt a) (TsAt b) = true <-> Z.abs (a - b) <= msPerHour).
Proof.
  intros Ha Hb. unfold isTimeMatch. rewrite Ha, Hb. simpl.
  apply diffHours_le.
Qed.

(** As soon as one of the two timestamps is date-only, the day-of-month
    rule decides. *)
Lemma isTimeMatch_date_only (t1 t2 : timestamp_value) :
  hasPreciseTime t1 = false \/ hasPreciseTime t2 = false ->
  isTimeMatch t1 t2 = dayWindowMatch t1 t2.
Proof.
  intros [H | H]; unfold isTimeMatch; rewrite H.
  - reflexivity.
  - rewrite andb_false_r. reflexivity.
Qed.

Example time_45_minutes : isTimeMatch (TsAt 1737729000000) (TsAt 1737731700000) = true.
Proof. reflexivity. Qed.

Example time_90_minutes : isTimeMatch (TsAt 1737729000000) (TsAt 1737734400000) = false.
Proof. reflexivity. Qed.

Example time_dates_1_day : isTimeMatch (TsAt 1737676800000) (TsAt 1737763200000) = true.
Proof. reflexivity. Qed.

Example time_dates_2_days : isTimeMatch (TsAt 1737676800000) (TsAt 1737849600000) = false.
Proof. reflexivity. Qed.

(** C5.  The hour window holds as stated, but the day window is computed
    on days of the month: 2025-01-31 and 2025-02-01, both date-only and one
    day of elapsed time apart, do not match, although the window that
    [calculateTimeWindow] opens around the first contains the second; and
    2025-01-15 and 2025-02-15, 31 days apart, do match. *)
Theorem isTimeMatch_month_boundary :
  let jan31 := 1738281600000 in
  let feb01 := 1738368000000 in
  let jan15 := 1736899200000 in
  let feb15 := 1739577600000 in
  hasPreciseTime (TsAt jan31) = false /\ hasPreciseTime (TsAt feb01) = false /\
  feb01 - jan31 = msPerDay /\
  getDate (Some jan31) = Some 31 /\ getDate (Some feb01) = Some 1 /\
  isTimeMatch (TsAt jan31) (TsAt feb01) = false /\
  calculateTimeWindow (TsAt jan31) = Some (jan31 - msPerDay, feb01) /\
  feb15 - jan15 = 31 * msPerDay /\
  isTimeMatch (TsAt jan15) (TsAt feb15) = true.
Proof. repeat split; reflexivity. Qed.

(** ** The rounding of binary64 arithmetic *)

Section Rounding.

Import Rounded.
#[local] Open Scope Q_scope.










(** The rounding on the rationals gives the numbers that binary64
    arithmetic gives: literals, a difference, products, a tie, a subnormal
    number. *)
Example round64_agrees_with_binary64 :
  sameValue (valueOf 0x1.aca3d70a3d70ap+4%float) (round64 (2679 # 100)) = true /\
  sameValue (valueOf 0x1.999999999999ap-5%float) (round64 (5 # 100)) = true /\
  sameValue (valueOf (0x1.aca3d70a3d70ap+4 - 0x1.c333333333333p+4)%float)
    (round64 (round64 (2679 # 100) - round64 (282 # 10))) = true /\
  sameValue (valueOf (0x1.c333333333333p+4 * 0x1.999999999999ap-5)%float)
    (round64 (round64 (282 # 10) * round64 (5 # 100))) = true /\
  sameValue (valueOf (1000 * 0x1.999999999999ap-5)%float)
    (round64 (1000 * round64 (5 # 100))) = true /\
  sameValue (valueOf 0x1p+53%float) (round64 9007199254740993) = true /\
  sameValue (valueOf 0x1.0000000000002p+53%float) (round64 9007199254740995) = true /\
  sameValue (valueOf (0x0.00000000007e8p-1022 * 0x1.3333333333333p-2)%float)
    (round64 (round64 (1 # 10 ^ 320) * round64 (3 # 10))) = true.
Proof. repeat split; vm_compute; reflexivity. Qed.

(** ** Amounts *)




End Rounding.

(** On exact amounts 1.9 against 2 is within tolerance; the binary64
    number nearest to 1.9 lies just outside, and the pair is refused. *)
Example amount_boundary_binary64 :
  isAmountMatch (Some (19 # 10)) (Some 2%Q) = true /\
  Binary64.isAmountMatch 0x1.e666666666666p+0%float 2%float = false /\
  Rounded.isAmountMatch (Some (Rounded.round64 (19 # 10))) (Some 2%Q) = false.
Proof. repeat split; vm_compute; reflexivity. Qed.

Lemma isAmountMatch_sym (a1 a2 : option Q) :
  isAmountMatch a1 a2 = isAmountMatch a2 a1.
Proof.
  destruct a1 as [x |], a2 as [y |]; try reflexivity.
  unfold isAmountMatch.
  apply eq_true_iff_eq. rewrite !Qle_bool_iff.
  assert (Hd : (Qabs (x - y) == Qabs (y - x))%Q).
  { rewrite <- (Qabs_opp (x - y)). apply Qabs_wd. ring. }
  rewrite Hd, (Q.max_comm x y). reflexivity.
Qed.

(** ** Midnight *)

(** C10.  A timestamp whose local hours, minutes and seconds are all zero
    is classified as date-only: the day-window branch decides every match
    it takes part in, the search window around it is one day each way, and
    in a merge any timestamp classified as time-bearing is preferred to
    it. *)
Theorem midnight_is_date_only (ms : Z) :
  getHours (Some ms) = Some 0 ->
  getMinutes (Some ms) = Some 0 ->
  getSeconds (Some ms) = Some 0 ->
  hasPreciseTime (TsAt ms) = false /\
  (forall other, isTimeMatch (TsAt ms) other = dayWindowMatch (TsAt ms) other /\
                 isTimeMatch other (TsAt ms) = dayWindowMatch other (TsAt ms)) /\
  calculateTimeWindow (TsAt ms) = Some (ms - msPerDay, ms + msPerDay) /\
  (forall other, other <> TsAbsent -> hasPreciseTime other = true ->
                 chooseBetterTimestamp (TsAt ms) other = other /\
                 chooseBetterTimestamp other (TsAt ms) = other).
Proof.
  intros Hh Hm Hs.
  assert (Hp : hasPreciseTime (TsAt ms) = false).
  { unfold hasPreciseTime. simpl newDate. rewrite Hh, Hm, Hs. reflexivity. }
  split; [exact Hp |]. split; [| split].
  - intros other. split; apply isTimeMatch_date_only; auto.
  - unfold calculateTimeWindow. simpl newDate. rewrite Hp.
    reflexivity.
  - intros other Hne Hother. split.
    + destruct other; [congruence | |]; simpl; rewrite ?Hother, Hp; reflexivity.
    + destruct other; [congruence | |]; simpl; rewrite ?Hother, Hp; reflexivity.
Qed.

Lemma midnight_is_date_only_witness :
  hasPreciseTime (TsAt 1737676800000) = false /\
  isTimeMatch (TsAt 1737676800000) (TsAt 1737729000000)
  = dayWindowMatch (TsAt 1737676800000) (TsAt 1737729000000) /\
  chooseBetterTimestamp (TsAt 1737676800000) (TsAt 1737729000000) = TsAt 1737729000000.
Proof.
  destruct (midnight_is_date_only 1737676800000 eq_refl eq_refl eq_refl)
    as [Hp [Hmatch [_ Hbetter]]].
  split; [exact Hp |]. split.
  - apply Hmatch.
  - apply Hbetter; [discriminate | reflexivity].
Defined.

(** ** Running asynchronous functions *)

Section Run.

Variable oracle : transaction -> list transaction -> result string.

Lemma run_bind {A B : Type} (p : prog A) (f : A -> prog B) (w : world) :
  run oracle (bind p f) w =
  match run oracle p w with
  | (Ok a, w') => run oracle (f a) w'
  | (Failed m, w') => (Failed m, w')
  end.
Proof.
  revert w. induction p as [a | m | X e k IH]; intros w; simpl; try reflexivity.
  destruct (handle oracle e w) as [r w']. apply IH.
Qed.

Lemma run_tryCatch {A : Type} (p : prog A) (handler : string -> prog A) (w : world) :
  run oracle (tryCatch p handler) w =
  match run oracle p w with
  | (Ok a, w') => (Ok a, w')
  | (Failed m, w') => run oracle (handler m) w'
  end.
Proof.
  revert w. induction p as [a | m | X e k IH]; intros w; simpl; try reflexivity.
  destruct (handle oracle e w) as [r w']. apply IH.
Qed.

Lemma run_call {X : Type} (e : effect X) (w : world) :
  run oracle (call e) w = handle oracle e w.
Proof.
  unfold call. simpl. destruct (handle oracle e w) as [[x | m] w']; reflexivity.
Qed.

(** The gateway never throws and leaves the store alone. *)
Lemma run_analyze (JSON_parse : string -> option jsonValue) (newTransaction : transaction)
    (potentialMatches : list transaction) (w : world) :
  run oracle (analyzeMultipleCorrelationsWithGemini JSON_parse newTransaction potentialMatches) w
  = (Ok (gatewayVerdicts JSON_parse oracle newTransaction potentialMatches),
     logCall w (EvOracle newTransaction potentialMatches)).
Proof.
  unfold analyzeMultipleCorrelationsWithGemini, gatewayVerdicts.
  rewrite run_tryCatch, run_bind, run_call. simpl.
  destruct (oracle newTransaction potentialMatches); reflexivity.
Qed.

End Run.

(** ** The defensive parser *)

Lemma defaultsFor_length (n : nat) (why : string) : List.length (defaultsFor n why) = n.
Proof. unfold defaultsFor. rewrite length_map, length_seq. reflexivity. Qed.

Lemma defaultsFor_default (n : nat) (why : string) : Forall isDefaultVerdict (defaultsFor n why).
Proof.
  unfold defaultsFor. apply Forall_forall. intros a Ha.
  apply in_map_iff in Ha. destruct Ha as [i [<- _]].
  repeat split.
Qed.

Lemma padCorrelations_spec (missing : nat) (l : list jsonEntry) :
  padCorrelations missing l = l ++ map paddingEntry (seq (List.length l) missing).
Proof.
  revert l. induction missing as [| n IH]; intros l; simpl.
  - symmetry. apply app_nil_r.
  - rewrite IH, <- app_assoc, length_app. simpl.
    replace (List.length l + 1)%nat with (S (List.length l)) by lia. reflexivity.
Qed.

Lemma setDefaultsAll_app (l1 l2 : list jsonEntry) :
  setDefaultsAll (l1 ++ l2) =
  match setDefaultsAll l1, setDefaultsAll l2 with
  | Some a1, Some a2 => Some (a1 ++ a2)
  | _, _ => None
  end.
Proof.
  induction l1 as [| e l1 IH]; simpl.
  - destruct (setDefaultsAll l2); reflexivity.
  - rewrite IH. destruct (setDefaults e), (setDefaultsAll l1), (setDefaultsAll l2); reflexivity.
Qed.

Lemma setDefaultsAll_length (l : list jsonEntry) (v : list analysis) :
  setDefaultsAll l = Some v -> List.length v = List.length l.
Proof.
  revert v. induction l as [| e l IH]; intros v; simpl.
  - intros [= <-]. reflexivity.
  - destruct (setDefaults e); [| discriminate].
    destruct (setDefaultsAll l); [| discriminate].
    intros [= <-]. simpl. f_equal. apply IH. reflexivity.
Qed.

Lemma setDefaultsAll_padding (start n : nat) :
  exists v, setDefaultsAll (map paddingEntry (seq start n)) = Some v /\
            List.length v = n /\ Forall isDefaultVerdict v.
Proof.
  revert start. induction n as [| n IH]; intros start; simpl.
  - exists []. repeat split. constructor.
  - destruct (IH (S start)) as [v [Hv [Hlen Hdef]]]. rewrite Hv.
    eexists. split; [reflexivity |]. split; [simpl; congruence |].
    constructor; [repeat split | exact Hdef].
Qed.

(** What the parser returns when [JSON.parse] gave an object: the given
    entries with their defaults set, then the padding. *)
Lemma parse_object (JSON_parse : string -> option jsonValue) (responseText : string)
    (expectedCount : nat) (found : option (list jsonEntry)) (given : list analysis) :
  JSON_parse responseText = Some (JsonObject found) ->
  setDefaultsAll (orEmpty found) = Some given ->
  exists padding,
    parseMultipleCorrelationResponse JSON_parse responseText expectedCount = given ++ padding /\
    List.length padding = (expectedCount - List.length (orEmpty found))%nat /\
    Forall isDefaultVerdict padding.
Proof.
  intros Hparse Hgiven.
  unfold parseMultipleCorrelationResponse, parseMultipleCorrelationBody.
  rewrite Hparse, padCorrelations_spec, setDefaultsAll_app, Hgiven.
  destruct (setDefaultsAll_padding (List.length (orEmpty found))
              (expectedCount - List.length (orEmpty found))) as [v [Hv [Hlen Hdef]]].
  rewrite Hv. exists v. auto.
Qed.

(** When an entry of the array is not an object, the [catch] block
    answers for the whole batch. *)
Lemma parse_bad_entry (JSON_parse : string -> option jsonValue) (responseText : string)
    (expectedCount : nat) (found : option (list jsonEntry)) :
  JSON_parse responseText = Some (JsonObject found) ->
  setDefaultsAll (orEmpty found) = None ->
  parseMultipleCorrelationResponse JSON_parse responseText expectedCount
  = defaultsFor expectedCount "Failed to parse analysis".
Proof.
  intros Hparse Hgiven.
  unfold parseMultipleCorrelationResponse, parseMultipleCorrelationBody.
  rewrite Hparse, padCorrelations_spec, setDefaultsAll_app, Hgiven. reflexivity.
Qed.

Lemma parse_failure (JSON_parse : string -> option jsonValue) (responseText : string)
    (expectedCount : nat) :
  JSON_parse responseText = None \/ JSON_parse responseText = Some JsonPrimitive ->
  parseMultipleCorrelationResponse JSON_parse responseText expectedCount
  = defaultsFor expectedCount "Failed to parse analysis".
Proof.
  unfold parseMultipleCorrelationResponse, parseMultipleCorrelationBody.
  intros [-> | ->]; reflexivity.
Qed.

(** The parser returns at least one verdict per candidate. *)
Lemma parse_length (JSON_parse : string -> option jsonValue) (responseText : string)
    (expectedCount : nat) :
  (expectedCount <= List.length
     (parseMultipleCorrelationResponse JSON_parse responseText expectedCount))%nat.
Proof.
  destruct (JSON_parse responseText) as [[| found] |] eqn:Hparse.
  - rewrite parse_failure, defaultsFor_length; auto.
  - destruct (setDefaultsAll (orEmpty found)) as [given |] eqn:Hgiven.
    + destruct (parse_object _ _ expectedCount _ _ Hparse Hgiven) as [padding [-> [Hlen _]]].
      rewrite length_app, Hlen, (setDefaultsAll_length _ _ Hgiven). lia.
    + rewrite (parse_bad_entry _ _ _ _ Hparse Hgiven), defaultsFor_length. lia.
  - rewrite parse_failure, defaultsFor_length; auto.
Qed.

(** Past the entries the oracle gave, the parser's verdicts are defaults. *)
Lemma parse_padding (JSON_parse : string -> option jsonValue) (responseText : string)
    (expectedCount : nat) (found : option (list jsonEntry)) (i : nat) :
  JSON_parse responseText = Some (JsonObject found) ->
  (List.length (orEmpty found) <= i < expectedCount)%nat ->
  exists a,
    nth_error (parseMultipleCorrelationResponse JSON_parse responseText expectedCount) i = Some a
    /\ isDefaultVerdict a.
Proof.
  intros Hparse Hi.
  destruct (setDefaultsAll (orEmpty found)) as [given |] eqn:Hgiven.
  - destruct (parse_object _ _ expectedCount _ _ Hparse Hgiven) as [padding [-> [Hlen Hdef]]].
    pose proof (setDefaultsAll_length _ _ Hgiven) as Hg.
    rewrite nth_error_app2 by lia.
    destruct (nth_error padding (i - List.length given)) as [a |] eqn:Hnth.
    + exists a. split; [reflexivity |].
      rewrite Forall_forall in Hdef. apply Hdef. eapply nth_error_In; eauto.
    + apply nth_error_None in Hnth. lia.
  - rewrite (parse_bad_entry _ _ _ _ Hparse Hgiven).
    destruct (nth_error (defaultsFor expectedCount "Failed to parse analysis") i) as [a |] eqn:Hnth.
    + exists a. split; [reflexivity |].
      pose proof (defaultsFor_default expectedCount "Failed to parse analysis") as Hdef.
      rewrite Forall_forall in Hdef. apply Hdef. eapply nth_error_In; eauto.
    + apply nth_error_None in Hnth. rewrite defaultsFor_length in Hnth. lia.
Qed.

(** C7.  Whatever the oracle does, the gateway returns verdicts and does
    not throw, and it does not touch the store.  When the oracle's text
    cannot be parsed, there is exactly one verdict per candidate and each
    is the default one; when the parsed object holds fewer verdicts than
    there are candidates, every missing position holds the default
    verdict. *)
Theorem gateway_self_heals (JSON_parse : string -> option jsonValue)
    (oracle : transaction -> list transaction -> result string)
    (newTransaction : transaction) (potentialMatches : list transaction) (w : world) :
  exists verdicts,
    run oracle (analyzeMultipleCorrelationsWithGemini JSON_parse newTransaction potentialMatches) w
    = (Ok verdicts, logCall w (EvOracle newTransaction potentialMatches)) /\
    (List.length potentialMatches <= List.length verdicts)%nat /\
    (forall response,
        oracle newTransaction potentialMatches = Ok response ->
        JSON_parse response = None ->
        List.length verdicts = List.length potentialMatches /\
        Forall isDefaultVerdict verdicts) /\
    (forall response found i,
        oracle newTransaction potentialMatches = Ok response ->
        JSON_parse response = Some (JsonObject found) ->
        (List.length (orEmpty found) <= i < List.length potentialMatches)%nat ->
        exists a, nth_error verdicts i = Some a /\ isDefaultVerdict a).
Proof.
  exists (gatewayVerdicts JSON_parse oracle newTransaction potentialMatches).
  split; [apply run_analyze |].
  unfold gatewayVerdicts.
  destruct (oracle newTransaction potentialMatches) as [response | m] eqn:Horacle.
  - split; [apply parse_length |]. split.
    + intros response' [= <-] Hparse.
      rewrite parse_failure by auto.
      split; [apply defaultsFor_length | apply defaultsFor_default].
    + intros response' found i [= <-] Hparse Hi.
      eapply parse_padding; eauto.
  - split; [rewrite defaultsFor_length; lia |].
    split; intros; discriminate.
Qed.

(** Unparsable text for a batch of three candidates: three default
    verdicts. *)
Lemma gateway_self_heals_witness :
  exists verdicts,
    fst (run oracleAnswers
           (analyzeMultipleCorrelationsWithGemini unparsable cafeEmail
              [cafeSms; staleCandidate; freshCandidate]) (worldWith []))
    = Ok verdicts /\
    List.length verdicts = 3%nat /\ Forall isDefaultVerdict verdicts.
Proof.
  destruct (gateway_self_heals unparsable oracleAnswers cafeEmail
              [cafeSms; staleCandidate; freshCandidate] (worldWith []))
    as [verdicts [Hrun [_ [Hfail _]]]].
  exists verdicts. split; [rewrite Hrun; reflexivity |].
  apply (Hfail "{ ... }"); reflexivity.
Defined.

(** A time-out of the oracle is answered in the same way. *)
Lemma gateway_oracle_failure (JSON_parse : string -> option jsonValue)
    (oracle : transaction -> list transaction -> result string)
    (newTransaction : transaction) (potentialMatches : list transaction) (m : string) :
  oracle newTransaction potentialMatches = Failed m ->
  List.length (gatewayVerdicts JSON_parse oracle newTransaction potentialMatches)
  = List.length potentialMatches /\
  Forall isDefaultVerdict (gatewayVerdicts JSON_parse oracle newTransaction potentialMatches).
Proof.
  intros H. unfold gatewayVerdicts. rewrite H.
  split; [apply defaultsFor_length | apply defaultsFor_default].
Qed.

(** ** The decision loop *)

Lemma Qlt_bool_iff (x y : Q) : Qlt_bool x y = true <-> (x < y)%Q.
Proof.
  unfold Qlt_bool. rewrite negb_true_iff.
  split; intros H.
  - apply Qnot_le_lt. rewrite <- Qle_bool_iff. congruence.
  - apply not_true_is_false. rewrite Qle_bool_iff. apply Qlt_not_le. exact H.
Qed.

Lemma Qlt_bool_false (x y : Q) : Qlt_bool x y = false <-> (y <= x)%Q.
Proof.
  unfold Qlt_bool. rewrite negb_false_iff. apply Qle_bool_iff.
Qed.

Lemma bestCorrelation_fold (potentialMatches : list transaction) (correlations : list analysis)
    (best : option bestMatch) (bestConfidence : Q) :
  bestCorrelation potentialMatches correlations best bestConfidence
  = fold_left considerPair (combine potentialMatches correlations) (best, bestConfidence).
Proof.
  revert correlations best bestConfidence.
  induction potentialMatches as [| c rest IH]; intros correlations best bc; simpl.
  - reflexivity.
  - destruct correlations as [| a others]; simpl.
    + rewrite IH. destruct rest; reflexivity.
    + destruct (is_correlated a && Qlt_bool bc (confidence a)); apply IH.
Qed.

(** The loop keeps its state when no correlated verdict exceeds the
    running confidence; otherwise it ends on the first pair that carries
    the greatest confidence among the correlated ones. *)
Lemma fold_considerPair (pairs : list (transaction * analysis)) (best : option bestMatch)
    (bc : Q) :
  (fold_left considerPair pairs (best, bc) = (best, bc) /\ Forall (atMost bc) pairs)
  \/
  (exists before c a after,
      pairs = before ++ (c, a) :: after /\
      fold_left considerPair pairs (best, bc)
      = (Some {| best_transaction := c; best_analysis := a |}, confidence a) /\
      is_correlated a = true /\ (bc < confidence a)%Q /\
      Forall (below (confidence a)) before /\ Forall (atMost (confidence a)) after).
Proof.
  revert best bc. induction pairs as [| [c a] rest IH]; intros best bc.
  - left. split; [reflexivity | constructor].
  - simpl. destruct (is_correlated a && Qlt_bool bc (confidence a)) eqn:Hsel.
    + apply andb_true_iff in Hsel. destruct Hsel as [Hcorr Hlt].
      apply Qlt_bool_iff in Hlt.
      destruct (IH (Some {| best_transaction := c; best_analysis := a |}) (confidence a))
        as [[Hkeep Hall] | [before [c' [a' [after [Hsplit [Hres [Hc' [Hlt' [Hb Ha]]]]]]]]]].
      * right. exists [], c, a, rest. repeat split; auto.
      * right. exists ((c, a) :: before), c', a', after. subst rest.
        repeat split; auto.
        -- lra.
        -- constructor; [intros _; exact Hlt' | exact Hb].
    + assert (Hle : atMost bc (c, a)).
      { intros Hcorr. simpl in *. rewrite Hcorr in Hsel. simpl in Hsel.
        apply Qlt_bool_false. exact Hsel. }
      destruct (IH best bc)
        as [[Hkeep Hall] | [before [c' [a' [after [Hsplit [Hres [Hc' [Hlt' [Hb Ha]]]]]]]]]].
      * left. split; [exact Hkeep | constructor; assumption].
      * right. exists ((c, a) :: before), c', a', after. subst rest.
        repeat split; auto.
        constructor; [| exact Hb].
        intros Hcorr. specialize (Hle Hcorr). simpl in *. lra.
Qed.

(** A decision names the first of the pairs that carry the greatest
    confidence among the correlated ones, and that confidence is at least
    70. *)
Lemma decide_some (potentialMatches : list transaction) (correlations : list analysis)
    (b : bestMatch) :
  decide potentialMatches correlations = Some b ->
  exists before after,
    combine potentialMatches correlations
    = before ++ (best_transaction b, best_analysis b) :: after /\
    is_correlated (best_analysis b) = true /\
    (70 <= confidence (best_analysis b))%Q /\
    Forall (below (confidence (best_analysis b))) before /\
    Forall (atMost (confidence (best_analysis b))) after.
Proof.
  unfold decide. rewrite bestCorrelation_fold.
  destruct (fold_considerPair (combine potentialMatches correlations) None 0)
    as [[Hkeep _] | [before [c [a [after [Hsplit [Hres [Hc [Hlt [Hb Ha]]]]]]]]]].
  - rewrite Hkeep. discriminate.
  - rewrite Hres. destruct (Qle_bool 70 (confidence a)) eqn:Hth; [| discriminate].
    intros [= <-]. simpl. apply Qle_bool_iff in Hth.
    exists before, after. auto.
Qed.

Lemma decide_none_below (potentialMatches : list transaction) (correlations : list analysis) :
  Forall (atMost 69) (combine potentialMatches correlations) ->
  decide potentialMatches correlations = None.
Proof.
  intros Hall.
  destruct (decide potentialMatches correlations) as [b |] eqn:Hd; [| reflexivity].
  destruct (decide_some _ _ _ Hd) as [before [after [Hsplit [Hc [Hth _]]]]].
  rewrite Forall_forall in Hall.
  assert (Hin : In (best_transaction b, best_analysis b)
                   (combine potentialMatches correlations)).
  { rewrite Hsplit. apply in_elt. }
  specialize (Hall _ Hin Hc). simpl in Hall. lra.
Qed.


(** ** Candidate search and the correlation attempt, run in a world *)

Lemma nextFault_logCall (w : world) (ev : event) :
  fst (nextFault (logCall w ev)) = fst (nextFault w) /\
  docs (snd (nextFault (logCall w ev))) = docs w /\
  calls (snd (nextFault (logCall w ev))) = calls w ++ [ev].
Proof.
  unfold nextFault, logCall. simpl. destruct (faults w); simpl; auto.
Qed.

Section Service.

Variable oracle : transaction -> list transaction -> result string.
Variable JSON_parse : string -> option jsonValue.



Lemma run_findPotentialMatches (newTransaction : transaction) (user : option string)
    (w : world) :
  run oracle (findPotentialMatches newTransaction user) w
  = (Ok (candidatesFound newTransaction user w), worldAfterSearch newTransaction user w).
Proof.
  unfold findPotentialMatches, candidatesFound, worldAfterSearch.
  rewrite run_tryCatch.
  destruct (calculateTimeWindow (timestamp newTransaction)) as [[startDate endDate] |];
    [| reflexivity].
  rewrite run_bind, run_call. simpl.
  destruct (nextFault_logCall w (EvQuery user startDate endDate)) as [Hf [Hd _]].
  destruct (nextFault (logCall w (EvQuery user startDate endDate))) as [fault w'].
  simpl in *. rewrite <- Hf, <- Hd.
  destruct fault; reflexivity.
Qed.

Lemma worldAfterSearch_docs (newTransaction : transaction) (user : option string)
    (w : world) :
  docs (worldAfterSearch newTransaction user w) = docs w.
Proof.
  unfold worldAfterSearch.
  destruct (calculateTimeWindow (timestamp newTransaction)) as [[startDate endDate] |];
    [| reflexivity].
  apply nextFault_logCall.
Qed.

Lemma worldAfterSearch_calls (newTransaction : transaction) (user : option string)
    (w : world) (ev : event) :
  In ev (calls (worldAfterSearch newTransaction user w)) ->
  In ev (calls w) \/ exists startDate endDate, ev = EvQuery user startDate endDate.
Proof.
  unfold worldAfterSearch.
  destruct (calculateTimeWindow (timestamp newTransaction)) as [[startDate endDate] |];
    [| auto].
  destruct (nextFault_logCall w (EvQuery user startDate endDate)) as [_ [_ ->]].
  intros Hin. apply in_app_or in Hin. destruct Hin as [Hin | [<- | []]]; eauto.
Qed.

(** The correlation attempt, step by step. *)
Lemma run_findCorrelations (newTransaction : transaction) (user : option string)
    (input : inputData) (w : world) :
  run oracle (findCorrelations JSON_parse newTransaction user input) w =
  let potentialMatches := candidatesFound newTransaction user w in
  let w1 := worldAfterSearch newTransaction user w in
  match potentialMatches with
  | [] => (Ok None, w1)
  | _ :: _ =>
      let w2 := logCall w1 (EvOracle newTransaction potentialMatches) in
      match decide potentialMatches
              (gatewayVerdicts JSON_parse oracle newTransaction potentialMatches) with
      | None => (Ok None, w2)
      | Some b =>
          match run oracle (mergeTransactions (best_transaction b) newTransaction input
                              (best_analysis b)) w2 with
          | (Ok _, w3) =>
              (Ok (Some {| existing_transaction_id := id (best_transaction b);
                           merged_confidence := confidence (best_analysis b);
                           merged_correlation_type := correlation_type (best_analysis b) |}),
               w3)
          | (Failed _, w3) => (Ok None, w3)
          end
      end
  end.
Proof.
  unfold findCorrelations.
  rewrite run_tryCatch, run_bind, run_findPotentialMatches.
  destruct (candidatesFound newTransaction user w) as [| c rest]; [reflexivity |].
  cbv zeta. rewrite run_bind, run_analyze.
  destruct (decide (c :: rest) (gatewayVerdicts JSON_parse oracle newTransaction (c :: rest)))
    as [b |]; [| reflexivity].
  rewrite run_bind.
  destruct (run oracle (mergeTransactions (best_transaction b) newTransaction input
                          (best_analysis b)) _) as [[i | m] w3]; reflexivity.
Qed.

(** The correlation attempt never throws. *)
Lemma findCorrelations_returns (newTransaction : transaction) (user : option string)
    (input : inputData) (w : world) :
  exists outcome, fst (run oracle (findCorrelations JSON_parse newTransaction user input) w)
                  = Ok outcome.
Proof.
  rewrite run_findCorrelations. cbv zeta.
  destruct (candidatesFound newTransaction user w); [eexists; reflexivity |].
  destruct (decide _ _); [| eexists; reflexivity].
  destruct (run oracle _ _) as [[i | m] w3]; eexists; reflexivity.
Qed.


Lemma run_now {A : Type} (k : Z -> prog A) (w : world) :
  run oracle (bind (call Now) k) w = run oracle (k (clock w)) (tick w).
Proof. rewrite run_bind, run_call. reflexivity. Qed.




End Service.

(** ** The confidence threshold *)



(** ** Ties *)

(** C4, as the code has it.  A decision names a candidate whose verdict is
    correlated and has the greatest confidence among the correlated
    verdicts; every correlated verdict before it in the candidate list has
    a strictly smaller confidence, so that among several verdicts of the
    greatest confidence the first in the order of the candidate list is
    chosen. *)
Theorem decide_first_of_greatest (potentialMatches : list transaction)
    (correlations : list analysis) (b : bestMatch) :
  decide potentialMatches correlations = Some b ->
  exists before after,
    combine potentialMatches correlations
    = before ++ (best_transaction b, best_analysis b) :: after /\
    is_correlated (best_analysis b) = true /\
    Forall (below (confidence (best_analysis b))) before /\
    Forall (atMost (confidence (best_analysis b))) after.
Proof.
  intros Hd.
  destruct (decide_some _ _ _ Hd) as [before [after [Hsplit [Hc [_ [Hb Ha]]]]]].
  exists before, after. auto.
Qed.

Lemma decide_first_of_greatest_witness :
  exists before after,
    combine [staleCandidate; freshCandidate]
      [correlatedVerdict 1 "related" 90; correlatedVerdict 2 "duplicate" 90]
    = before ++ (staleCandidate, correlatedVerdict 1 "related" 90) :: after /\
    Forall (below 90) before /\ Forall (atMost 90) after.
Proof.
  destruct (decide_first_of_greatest [staleCandidate; freshCandidate]
              [correlatedVerdict 1 "related" 90; correlatedVerdict 2 "duplicate" 90]
              {| best_transaction := staleCandidate;
                 best_analysis := correlatedVerdict 1 "related" 90 |} eq_refl)
    as [before [after [Hsplit [_ [Hb Ha]]]]].
  exists before, after. auto.
Defined.

(** Two correlated verdicts tie at 90: the first is [related] and its
    candidate is the staler record, the second is [duplicate] and its
    candidate the fresher one.  The first is chosen. *)
Lemma tie_keeps_first_candidate :
  decide [staleCandidate; freshCandidate]
    [correlatedVerdict 1 "related" 90; correlatedVerdict 2 "duplicate" 90]
  = Some {| best_transaction := staleCandidate;
            best_analysis := correlatedVerdict 1 "related" 90 |}
  /\ confidence (correlatedVerdict 1 "related" 90)
     = confidence (correlatedVerdict 2 "duplicate" 90)
  /\ updated_at staleCandidate = Some jan24_1430
  /\ updated_at freshCandidate = Some jan24_1435
  /\ jan24_1430 < jan24_1435.
Proof. repeat split. Qed.

(** ** Records bound to a correlation *)

Lemma candidateLoop_in (newTransaction : transaction) (recentTransactions : list transaction)
    (t : transaction) :
  In t (candidateLoop newTransaction recentTransactions) <->
  In t recentTransactions /\
  strictEqId (id t) (id newTransaction) = false /\
  truthyString (correlation_id t) = false /\
  truthyString (correlation_id newTransaction) = false /\
  isAmountMatch (amount newTransaction) (amount t) = true /\
  isTimeMatch (timestamp newTransaction) (timestamp t) = true.
Proof.
  induction recentTransactions as [| x rest IH]; simpl.
  - tauto.
  - destruct (strictEqId (id x) (id newTransaction)) eqn:Hid.
    { rewrite IH. split; [tauto |]. intros [[<- | Hin] H]; [| tauto]. 
      destruct H as [H _]. congruence. }
    destruct (truthyString (correlation_id x) || truthyString (correlation_id newTransaction))
      eqn:Hcorr.
    { rewrite IH. split; [tauto |]. intros [[<- | Hin] H]; [| tauto].
      destruct H as [_ [H1 [H2 _]]]. rewrite H1, H2 in Hcorr. discriminate. }
    apply orb_false_iff in Hcorr. destruct Hcorr as [Hcx Hcn].
    destruct (isAmountMatch (amount newTransaction) (amount x)) eqn:Hamount.
    + destruct (isTimeMatch (timestamp newTransaction) (timestamp x)) eqn:Htime.
      * simpl. rewrite IH. split.
        -- intros [<- | H]; [| tauto]. repeat split; auto.
        -- intros [[<- | Hin] H]; [left; reflexivity | tauto].
      * rewrite IH. split; [tauto |]. intros [[<- | Hin] H]; [| tauto].
        destruct H as [_ [_ [_ [_ H]]]]. congruence.
    + rewrite IH. split; [tauto |]. intros [[<- | Hin] H]; [| tauto].
      destruct H as [_ [_ [_ [H _]]]]. congruence.
Qed.

(** C8, as the code has it.  The candidate search returns no record that
    carries a correlation id, and returns nothing at all for an incoming
    transaction that carries one.  A merge leaves the winner's correlation
    id as it was, so the winner of an earlier merge stays eligible as long
    as it has none. *)
Theorem candidates_carry_no_correlation_id
    (oracle : transaction -> list transaction -> result string)
    (newTransaction : transaction) (user : option string) (w : world) :
  exists found,
    fst (run oracle (findPotentialMatches newTransaction user) w) = Ok found /\
    Forall (fun t => truthyString (correlation_id t) = false) found /\
    (truthyString (correlation_id newTransaction) = true -> found = []) /\
    (forall existingTransaction incoming input a addedAt mergedAt updatedAt stamp,
        correlation_id
          (mergedWinner existingTransaction incoming input a addedAt mergedAt updatedAt stamp)
        = correlation_id existingTransaction).
Proof.
  exists (candidatesFound newTransaction user w).
  rewrite run_findPotentialMatches. split; [reflexivity |].
  assert (Hall : forall t, In t (candidatesFound newTransaction user w) ->
                           truthyString (correlation_id t) = false /\
                           truthyString (correlation_id newTransaction) = false).
  { unfold candidatesFound. intros t.
    destruct (calculateTimeWindow (timestamp newTransaction)) as [[s e] |]; [| intros []].
    destruct (fst (nextFault w)); [intros [] |].
    rewrite candidateLoop_in. tauto. }
  split; [| split].
  - apply Forall_forall. intros t Hin. apply (Hall t Hin).
  - intros Hnew. destruct (candidatesFound newTransaction user w) as [| t rest]; [reflexivity |].
    destruct (Hall t (or_introl eq_refl)) as [_ H]. congruence.
  - reflexivity.
Qed.

Lemma candidates_carry_no_correlation_id_witness :
  exists found,
    fst (run oracleAnswers
           (findPotentialMatches
              {| id := None; userId := None; merchant := Some "Cafe X";
                 amount := Some 252%Q; currency := Some "INR"; category := Some "food";
                 timestamp := TsAt jan24_1435; items := Some []; sources := None;
                 correlation_id := Some "corr_1"; correlation_info := None;
                 updated_at := None; status := None |}
              (Some "u1")) (worldWith [cafeSms])) = Ok found /\
    found = [].
Proof.
  destruct (candidates_carry_no_correlation_id oracleAnswers
              {| id := None; userId := None; merchant := Some "Cafe X";
                 amount := Some 252%Q; currency := Some "INR"; category := Some "food";
                 timestamp := TsAt jan24_1435; items := Some []; sources := None;
                 correlation_id := Some "corr_1"; correlation_info := None;
                 updated_at := None; status := None |}
              (Some "u1") (worldWith [cafeSms]))
    as [found [Hrun [_ [Hnew _]]]].
  exists found. split; [exact Hrun | apply Hnew; reflexivity].
Defined.

(** The SMS record is active, of the same owner, within 5% and within the
    hour of the e-mail receipt; bound to a correlation record it is not
    returned, and without the binding it is. *)
Lemma correlated_record_is_skipped :
  status cafeSmsCorrelated = Some "active" /\
  isAmountMatch (amount cafeEmail) (amount cafeSmsCorrelated) = true /\
  isTimeMatch (timestamp cafeEmail) (timestamp cafeSmsCorrelated) = true /\
  fst (run oracleAnswers (findPotentialMatches cafeEmail (Some "u1"))
         (worldWith [cafeSmsCorrelated])) = Ok [] /\
  fst (run oracleAnswers (findPotentialMatches cafeEmail (Some "u1"))
         (worldWith [cafeSms])) = Ok [cafeSms].
Proof. repeat split. Qed.

(** ** A failing store *)

(** C9, as the code has it.  When the query of the candidate search
    fails, the search returns the empty list and the correlation attempt
    returns [null] without throwing; the store is left as it was. *)
Theorem store_read_failure_is_swallowed (JSON_parse : string -> option jsonValue)
    (oracle : transaction -> list transaction -> result string)
    (newTransaction : transaction) (user : option string) (input : inputData)
    (w : world) (later : list bool) :
  faults w = true :: later ->
  fst (run oracle (findPotentialMatches newTransaction user) w) = Ok [] /\
  fst (run oracle (findCorrelations JSON_parse newTransaction user input) w) = Ok None /\
  docs (snd (run oracle (findCorrelations JSON_parse newTransaction user input) w)) = docs w.
Proof.
  intros Hfault.
  assert (Hnone : candidatesFound newTransaction user w = []).
  { unfold candidatesFound, nextFault. rewrite Hfault.
    destruct (calculateTimeWindow (timestamp newTransaction)) as [[s e] |]; reflexivity. }
  rewrite run_findPotentialMatches, run_findCorrelations. cbv zeta.
  rewrite Hnone. simpl. repeat split. apply worldAfterSearch_docs.
Qed.

Lemma store_read_failure_is_swallowed_witness :
  fst (run oracleAnswers (findPotentialMatches cafeEmail (Some "u1"))
         (worldStoreDown [cafeSms])) = Ok [] /\
  fst (run oracleAnswers
         (findCorrelations (parsesTo [rawVerdict 1 true 88 "same_purchase" "merge"])
            cafeEmail (Some "u1") emailInput) (worldStoreDown [cafeSms])) = Ok None.
Proof.
  destruct (store_read_failure_is_swallowed
              (parsesTo [rawVerdict 1 true 88 "same_purchase" "merge"]) oracleAnswers
              cafeEmail (Some "u1") emailInput (worldStoreDown [cafeSms]) [] eq_refl)
    as [Hsearch [Hattempt _]].
  split; assumption.
Defined.

(** The store holds a record that matches the e-mail receipt, and its
    query fails: the search answers with no candidate and the attempt
    with [null], as if the store were empty, and not with an error. *)
Lemma store_failure_not_propagated :
  fst (handle oracleAnswers
         (GetUserTransactions (Some "u1") (jan24_1435 - msPerHour) (jan24_1435 + msPerHour) 50)
         (worldStoreDown [cafeSms])) = Failed "Failed to fetch transactions" /\
  fst (run oracleAnswers (findPotentialMatches cafeEmail (Some "u1"))
         (worldWith [cafeSms])) = Ok [cafeSms] /\
  fst (run oracleAnswers (findPotentialMatches cafeEmail (Some "u1"))
         (worldStoreDown [cafeSms])) = Ok [] /\
  fst (run oracleAnswers (findPotentialMatches cafeEmail (Some "u1"))
         (worldWith [])) = Ok [] /\
  fst (run oracleAnswers
         (findCorrelations (parsesTo [rawVerdict 1 true 88 "same_purchase" "merge"])
            cafeEmail (Some "u1") emailInput) (worldStoreDown [cafeSms])) = Ok None /\
  fst (run oracleAnswers
         (findCorrelations (parsesTo [rawVerdict 1 true 88 "same_purchase" "merge"])
            cafeEmail (Some "u1") emailInput) (worldWith [])) = Ok None.
Proof. repeat split. Qed.

(** ** Merging again *)

Lemma orString_again (a b : option string) : orString (orString a b) b = orString a b.
Proof.
  unfold orString. destruct (truthyString a) eqn:Ha.
  - rewrite Ha. reflexivity.
  - destruct (truthyString b); reflexivity.
Qed.

Lemma orNumber_again (a b : option Q) : orNumber (orNumber a b) b = orNumber a b.
Proof.
  unfold orNumber. destruct (truthyNumber a) eqn:Ha.
  - rewrite Ha. reflexivity.
  - destruct (truthyNumber b); reflexivity.
Qed.

Lemma hasPreciseTime_invalid : hasPreciseTime TsInvalid = true.
Proof. reflexivity. Qed.

Lemma chooseBetterTimestamp_again (existing newTimestamp : timestamp_value) :
  chooseBetterTimestamp (chooseBetterTimestamp existing newTimestamp) newTimestamp
  = chooseBetterTimestamp existing newTimestamp.
Proof.
  destruct existing as [| | e], newTimestamp as [| | n]; try reflexivity;
    unfold chooseBetterTimestamp; rewrite ?hasPreciseTime_invalid;
    try (destruct (hasPreciseTime (TsAt e)) eqn:He);
    try (destruct (hasPreciseTime (TsAt n)) eqn:Hn);
    cbn [andb negb]; rewrite ?hasPreciseTime_invalid, ?He, ?Hn; reflexivity.
Qed.

Lemma sameItemName_refl (x : item) : sameItemName x x = true.
Proof.
  unfold sameItemName, strictEqString.
  destruct (option_map toLowerCase (name x)); [apply String.eqb_refl | reflexivity].
Qed.

Lemma named_app (merged more : list item) (newItem : item) :
  named merged newItem -> named (merged ++ more) newItem.
Proof.
  unfold named. induction merged as [| x merged IH]; simpl.
  - congruence.
  - destruct (sameItemName newItem x); [congruence | exact IH].
Qed.

Lemma named_last (merged : list item) (newItem : item) : named (merged ++ [newItem]) newItem.
Proof.
  unfold named. induction merged as [| x merged IH]; simpl.
  - rewrite sameItemName_refl. congruence.
  - destruct (sameItemName newItem x); [congruence | exact IH].
Qed.

(** Nothing is pushed when every new item has a namesake already. *)
Lemma pushMissing_nothing (merged newItems : list item) :
  Forall (named merged) newItems -> pushMissing merged newItems = merged.
Proof.
  induction 1 as [| x rest Hx _ IH]; simpl; [reflexivity |].
  unfold named in Hx. destruct (find (sameItemName x) merged); [exact IH | congruence].
Qed.

(** The loop only appends, and afterwards every new item has a namesake. *)
Lemma pushMissing_covers (newItems merged : list item) :
  (exists pushed, pushMissing merged newItems = merged ++ pushed) /\
  Forall (named (pushMissing merged newItems)) newItems.
Proof.
  revert merged. induction newItems as [| x rest IH]; intros merged; simpl.
  - split; [exists []; symmetry; apply app_nil_r | constructor].
  - destruct (find (sameItemName x) merged) eqn:Hfind.
    + destruct (IH merged) as [[pushed Hp] Hall]. split; [eauto |].
      constructor; [| exact Hall].
      rewrite Hp. apply named_app. unfold named. congruence.
    + destruct (IH (merged ++ [x])) as [[pushed Hp] Hall]. split.
      * exists ([x] ++ pushed). rewrite Hp. symmetry. apply app_assoc.
      * constructor; [| exact Hall].
        rewrite Hp. apply named_app, named_last.
Qed.

Lemma named_self (l : list item) : Forall (named l) l.
Proof.
  apply Forall_forall. intros x Hin. apply in_split in Hin.
  destruct Hin as [l1 [l2 ->]].
  replace (l1 ++ x :: l2) with ((l1 ++ [x]) ++ l2) by (rewrite <- app_assoc; reflexivity).
  apply named_app, named_last.
Qed.

(** Merging the same new items into the merged list changes nothing. *)
Lemma mergeItems_again (existingItems newItems : option (list item)) :
  mergeItems (Some (mergeItems existingItems newItems)) newItems
  = mergeItems existingItems newItems.
Proof.
  assert (Hself : forall y m, mergeItems (Some (y :: m)) (Some (y :: m)) = y :: m).
  { intros y m. change (pushMissing (y :: m) (y :: m) = y :: m).
    apply pushMissing_nothing, named_self. }
  destruct existingItems as [[| x l] |], newItems as [[| y m] |];
    try reflexivity; try apply Hself.
  change (mergeItems (Some (pushMissing (x :: l) (y :: m))) (Some (y :: m))
          = pushMissing (x :: l) (y :: m)).
  destruct (pushMissing_covers (y :: m) (x :: l)) as [[pushed Hp] Hall].
  destruct (pushMissing (x :: l) (y :: m)) as [| z r] eqn:Hr; [discriminate |].
  change (pushMissing (z :: r) (y :: m) = z :: r).
  apply pushMissing_nothing. exact Hall.
Qed.

(** C1, as the code has it.  Merging the same incoming record into the
    winner as the first merge left it resolves merchant, amount, currency,
    category, timestamp and items to the same values (no item is added),
    and leaves id, owner, status and correlation id alone; the list of
    sources gets one more entry, as on every merge. *)
Theorem merge_again_same_fields_one_more_source
    (existingTransaction newTransaction : transaction) (input : inputData)
    (a a' : analysis) (addedAt mergedAt updatedAt stamp addedAt' mergedAt' updatedAt' stamp' : Z) :
  let once :=
    mergedWinner existingTransaction newTransaction input a addedAt mergedAt updatedAt stamp in
  let twice := mergedWinner once newTransaction input a' addedAt' mergedAt' updatedAt' stamp' in
  merchant twice = merchant once /\
  amount twice = amount once /\
  currency twice = currency once /\
  category twice = category once /\
  timestamp twice = timestamp once /\
  items twice = items once /\
  id twice = id once /\ userId twice = userId once /\
  status twice = status once /\ correlation_id twice = correlation_id once /\
  sources twice
  = Some (orEmpty (sources once)
          ++ [ {| input_type := type input; uri := uriOrNull input;
                  added_at := Some addedAt' |} ]) /\
  List.length (orEmpty (sources twice)) = S (List.length (orEmpty (sources once))).
Proof.
  cbv zeta. unfold mergedWinner, applyUpdate, buildMergedData. simpl.
  repeat split.
  - apply orString_again.
  - apply orNumber_again.
  - apply orString_again.
  - apply orString_again.
  - apply chooseBetterTimestamp_again.
  - f_equal. apply mergeItems_again.
  - rewrite !length_app. simpl. lia.
Qed.

(** The second attempt of the same merge, after the deletion of the
    duplicate failed in the first, appends the source of the duplicate to
    the winner once more; a single successful attempt appends it once. *)
Lemma retry_appends_source_again :
  let attempt :=
    findCorrelations (parsesTo [rawVerdict 1 true 88 "same_purchase" "merge"])
      cafeEmailSaved (Some "u1") emailInput in
  let failed := run oracleAnswers attempt (worldDeleteFails [cafeSms; cafeEmailSaved]) in
  let retried := run oracleAnswers attempt (snd failed) in
  let once := run oracleAnswers attempt (worldWith [cafeSms; cafeEmailSaved]) in
  sourceKinds (snd failed) = [(Some "A", ["sms"; "email"]); (Some "B", ["email"])] /\
  sourceKinds (snd retried) = [(Some "A", ["sms"; "email"; "email"])] /\
  sourceKinds (snd once) = [(Some "A", ["sms"; "email"])] /\
  sources (mergedWinner (mergedWinner cafeSms cafeEmailSaved emailInput
                           (correlatedVerdict 1 "same_purchase" 88) 0 0 0 0)
             cafeEmailSaved emailInput (correlatedVerdict 1 "same_purchase" 88) 0 0 0 0)
  <> sources (mergedWinner cafeSms cafeEmailSaved emailInput
                (correlatedVerdict 1 "same_purchase" 88) 0 0 0 0).
Proof.
  cbv zeta. repeat split; try (vm_compute; reflexivity).
  vm_compute. discriminate.
Qed.

(** The scenario of the specification: the e-mail receipt of 252 with its
    item is merged into the SMS record of 250 at confidence 88. *)
Example cafe_scenario :
  let outcome :=
    run oracleAnswers
      (findCorrelations (parsesTo [rawVerdict 1 true 88 "same_purchase" "merge"])
         cafeEmail (Some "u1") emailInput) (worldWith [cafeSms]) in
  fst outcome = Ok (Some {| existing_transaction_id := Some "A";
                            merged_confidence := 88;
                            merged_correlation_type := "same_purchase" |}) /\
  sourceKinds (snd outcome) = [(Some "A", ["sms"; "email"])] /\
  map items (docs (snd outcome)) = [Some [latte]] /\
  map amount (docs (snd outcome)) = [Some 250%Q].
Proof. cbv zeta. repeat split; vm_compute; reflexivity. Qed.

(** ** Requests one after the other, and interleaved *)

Lemma nextFault_nil (w : world) : faults w = [] -> nextFault w = (false, w).
Proof. unfold nextFault. intros ->. reflexivity. Qed.

Section Sequential.
Variable oracle : transaction -> list transaction -> result string.
Variable JSON_parse : string -> option jsonValue.

(** On a working store that holds the winner, a merge replaces the
    winner's fields by the merged data and removes the duplicate when it
    has an id. *)
Lemma run_merge_stored (existingTransaction newTransaction : transaction)
    (input : inputData) (a : analysis) (w : world) (i : string) :
  faults w = [] -> id existingTransaction = Some i ->
  existsb (hasId (Some i)) (docs w) = true ->
  writable existingTransaction newTransaction input a ->
  exists w' addedAt mergedAt updatedAt stamp,
    run oracle (mergeTransactions existingTransaction newTransaction input a) w
    = (Ok (Some i), w') /\
    faults w' = [] /\
    docs w' =
    let updated :=
      updateFirst (Some i)
        (applyUpdate (buildMergedData existingTransaction newTransaction input a
                        addedAt mergedAt updatedAt) stamp) (docs w) in
    if truthyString (id newTransaction)
    then filter (fun d => negb (hasId (id newTransaction) d)) updated
    else updated.
Proof.
  intros Hf Hi Hstored Hw. unfold mergeTransactions.
  rewrite run_tryCatch, !run_now, run_bind, run_call. cbn [handle]. rewrite Hw.
  rewrite nextFault_nil by exact Hf. rewrite Hi. simpl docs. rewrite Hstored. cbv iota.
  destruct (id newTransaction) as [duplicate |] eqn:Hn.
  - destruct (truthyString (Some duplicate)) eqn:Htruthy.
    + rewrite run_bind, run_call. simpl handle.
      rewrite nextFault_nil by exact Hf. simpl.
      do 5 eexists. split; [reflexivity |]. split; [exact Hf |]. reflexivity.
    + simpl. do 5 eexists. split; [reflexivity |]. split; [exact Hf |]. reflexivity.
  - simpl. do 5 eexists. split; [reflexivity |]. split; [exact Hf |]. reflexivity.
Qed.
End Sequential.

(** Two receipts of the same purchase arrive together and their requests
    take turns at every awaited call: each is saved before the other is
    searched for, each background correlation then finds the other's
    record, updates it as the winner and deletes its own as the duplicate.
    Both requests finish and no record is left; processed one after the
    other, the same two requests leave one. *)
Lemma interleaved_requests_leave_no_record :
  let pool :=
    receipts parsesAllDuplicates (Some "u1")
      [cafeReceipt "sms" 250 jan24_1430; cafeReceipt "email" 250 jan24_1430] in
  let outcome := runSchedule oracleAnswers takingTurns pool (worldWith []) in
  map finished (fst outcome) = [true; true] /\
  map eventName (calls (snd outcome))
  = ["query"; "query"; "save"; "save"; "query"; "query"; "oracle"; "oracle";
     "update"; "update"; "delete"; "delete"] /\
  docs (snd outcome) = [] /\
  activeDocs (snd outcome) = [] /\
  List.length (activeDocs (runSequentially oracleAnswers pool (worldWith []))) = 1%nat.
Proof. cbv zeta. repeat split; vm_compute; reflexivity. Qed.

(* ================================================================== *)
(** * Further properties of the code                                   *)
(* ================================================================== *)

(** ** The two candidate tests *)

Lemma absDiff_sym (x y : option Z) : absDiff x y = absDiff y x.
Proof.
  destruct x as [a |], y as [b |]; simpl; try reflexivity.
  f_equal. rewrite <- (Z.abs_opp (a - b)). f_equal. lia.
Qed.

(** X1.  Both candidate tests are symmetric: which of the two transactions
    is the incoming one makes no difference to the amount test nor to the
    time test. *)
Theorem candidate_tests_symmetric (a1 a2 : option Q) (t1 t2 : timestamp_value) :
  isAmountMatch a1 a2 = isAmountMatch a2 a1 /\ isTimeMatch t1 t2 = isTimeMatch t2 t1.
Proof.
  split; [apply isAmountMatch_sym |].
  unfold isTimeMatch. rewrite (andb_comm (hasPreciseTime t1)).
  rewrite (absDiff_sym (newDate t1)), (absDiff_sym (getDate (newDate t1))). reflexivity.
Qed.



(** X4.  A readable timestamp is classified as date-only exactly when it
    falls in the first second of a local day: milliseconds are not looked
    at. *)
Theorem date_only_is_first_second_of_day (ms : Z) :
  hasPreciseTime (TsAt ms) = false <-> 0 <= ms mod msPerDay < msPerSecond.
Proof.
  unfold hasPreciseTime, getHours, getMinutes, getSeconds, isZero. simpl.
  rewrite negb_false_iff, !andb_true_iff, !Z.eqb_eq.
  unfold msPerDay, msPerHour, msPerMinute, msPerSecond.
  split.
  - intros [[Hh Hm] Hs]. Z.div_mod_to_equations. lia.
  - intros H. repeat split; Z.div_mod_to_equations; lia.
Qed.

(** X5.  Two readable, time-bearing timestamps match exactly when they are
    at most one hour (3 600 000 ms) apart. *)
Theorem hour_window_is_exact (a b : Z) :
  hasPreciseTime (TsAt a) = true ->
  hasPreciseTime (TsAt b) = true ->
  (isTimeMatch (TsAt a) (TsAt b) = true <-> Z.abs (a - b) <= 3600000).
Proof. intros Ha Hb. apply (isTimeMatch_precise a b Ha Hb). Qed.

Lemma hour_window_is_exact_witness :
  isTimeMatch (TsAt jan24_1430) (TsAt (jan24_1430 + 3600000)) = true /\
  isTimeMatch (TsAt jan24_1430) (TsAt (jan24_1430 + 3600001)) = false.
Proof.
  split.
  - apply (proj2 (hour_window_is_exact jan24_1430 (jan24_1430 + 3600000) eq_refl eq_refl)).
    vm_compute. discriminate.
  - apply not_true_is_false. intros H.
    apply (proj1 (hour_window_is_exact jan24_1430 (jan24_1430 + 3600001) eq_refl eq_refl)) in H.
    vm_compute in H. apply H. reflexivity.
Defined.

(** X7.  For a time-bearing incoming timestamp and a time-bearing stored
    one, the window that the search asks the store for and the time test
    agree: the stored timestamp lies in the window exactly when it
    matches. *)
Theorem search_window_agrees_with_time_test (t s : Z) :
  hasPreciseTime (TsAt t) = true ->
  hasPreciseTime (TsAt s) = true ->
  exists startDate endDate,
    calculateTimeWindow (TsAt t) = Some (startDate, endDate) /\
    (isTimeMatch (TsAt t) (TsAt s) = true <-> startDate <= s <= endDate).
Proof.
  intros Ht Hs. unfold calculateTimeWindow. simpl newDate. rewrite Ht.
  do 2 eexists. split; [reflexivity |].
  rewrite (isTimeMatch_precise t s Ht Hs).
  unfold timeWindowHours, msPerHour. lia.
Qed.

Lemma search_window_agrees_with_time_test_witness :
  exists startDate endDate,
    calculateTimeWindow (TsAt jan24_1435) = Some (startDate, endDate) /\
    (isTimeMatch (TsAt jan24_1435) (TsAt jan24_1430) = true
     <-> startDate <= jan24_1430 <= endDate).
Proof.
  apply (search_window_agrees_with_time_test jan24_1435 jan24_1430); reflexivity.
Defined.

(** X8.  The timestamp chosen by a merge is always one of the two it was
    given; it is absent only when both are; and a present timestamp
    classified as time-bearing is never replaced. *)
Theorem chooseBetterTimestamp_choice (existing newTimestamp : timestamp_value) :
  let chosen := chooseBetterTimestamp existing newTimestamp in
  (chosen = existing \/ chosen = newTimestamp) /\
  (chosen = TsAbsent -> existing = TsAbsent /\ newTimestamp = TsAbsent) /\
  (existing <> TsAbsent -> hasPreciseTime existing = true -> chosen = existing).
Proof.
  cbv zeta.
  destruct existing as [| | e], newTimestamp as [| | n];
    try (simpl; repeat split; auto; congruence);
    unfold chooseBetterTimestamp;
    match goal with
    | |- context [hasPreciseTime ?n && negb (hasPreciseTime ?e)] =>
        destruct (hasPreciseTime n) eqn:Hn; destruct (hasPreciseTime e) eqn:He
    end;
    simpl; repeat split; auto; congruence.
Qed.

Lemma chooseBetterTimestamp_choice_witness :
  chooseBetterTimestamp (TsAt jan24_1430) (TsAt jan24_1435) = TsAt jan24_1430.
Proof.
  destruct (chooseBetterTimestamp_choice (TsAt jan24_1430) (TsAt jan24_1435)) as [_ [_ H]].
  apply H; [discriminate | reflexivity].
Defined.

(** ** Items *)

Lemma strictEqString_eq (x y : option string) : strictEqString x y = true <-> x = y.
Proof.
  destruct x as [a |], y as [b |]; simpl; try (split; congruence).
  rewrite String.eqb_eq. split; congruence.
Qed.

Lemma find_namesake_none (x : item) (merged : list item) :
  find (sameItemName x) merged = None <-> ~ In (itemKey x) (map itemKey merged).
Proof.
  induction merged as [| y merged IH]; simpl.
  - tauto.
  - destruct (sameItemName x y) eqn:Hxy.
    + split; [discriminate |]. intros H. exfalso. apply H. left.
      apply strictEqString_eq. exact Hxy.
    + rewrite IH. split; [| tauto]. intros H [Heq | Hin]; [| tauto].
      assert (Hyes : sameItemName x y = true) by (apply strictEqString_eq; exact Heq).
      congruence.
Qed.

(** What the loop appends comes from the new items and has no namesake
    among the items it started with. *)
Lemma pushMissing_pushed (newItems merged : list item) :
  exists pushed,
    pushMissing merged newItems = merged ++ pushed /\
    incl pushed newItems /\
    Forall (fun x => find (sameItemName x) merged = None) pushed.
Proof.
  revert merged. induction newItems as [| x rest IH]; intros merged; simpl.
  - exists []. split; [symmetry; apply app_nil_r |]. split; [apply incl_nil_l | constructor].
  - destruct (find (sameItemName x) merged) eqn:Hfind.
    + destruct (IH merged) as [pushed [Hp [Hincl Hnone]]].
      exists pushed. split; [exact Hp |]. split; [apply incl_tl; exact Hincl | exact Hnone].
    + destruct (IH (merged ++ [x])) as [pushed [Hp [Hincl Hnone]]].
      exists (x :: pushed). split; [rewrite Hp, <- app_assoc; reflexivity |].
      split.
      * intros y [<- | Hy]; [left; reflexivity | right; apply Hincl; exact Hy].
      * constructor; [exact Hfind |].
        rewrite Forall_forall in *. intros y Hy. specialize (Hnone y Hy).
        apply find_namesake_none in Hnone. apply find_namesake_none.
        intros Hin. apply Hnone. rewrite map_app. apply in_or_app. left. exact Hin.
Qed.

(** X9.  The merged item list starts with the existing items, unchanged
    and in their order; what follows is taken from the new items; and every
    new item has an item of the same name, up to the case of letters, in
    the result. *)
Theorem mergeItems_keeps_existing_covers_new (existingItems newItems : option (list item)) :
  exists pushed,
    mergeItems existingItems newItems = orEmpty existingItems ++ pushed /\
    incl pushed (orEmpty newItems) /\
    Forall (fun x => In (itemKey x) (map itemKey (mergeItems existingItems newItems)))
      (orEmpty newItems).
Proof.
  assert (Hnamed : forall l x, named l x -> In (itemKey x) (map itemKey l)).
  { intros l x. unfold named. induction l as [| y l IH]; simpl; [congruence |].
    destruct (sameItemName x y) eqn:Hxy.
    - intros _. left. apply strictEqString_eq. exact Hxy.
    - intros H. right. apply IH. exact H. }
  unfold mergeItems. destruct (isEmptyOrMissing existingItems) eqn:He.
  - exists (orEmpty newItems).
    destruct existingItems as [[| x l] |]; try discriminate; simpl;
      (split; [reflexivity |]); (split; [apply incl_refl |]);
      apply Forall_forall; intros y Hy; apply in_map; exact Hy.
  - destruct (isEmptyOrMissing newItems) eqn:Hn.
    + exists []. split; [symmetry; apply app_nil_r |].
      destruct newItems as [[| y m] |]; try discriminate; simpl;
        (split; [apply incl_nil_l | constructor]).
    + destruct (pushMissing_pushed (orEmpty newItems) (orEmpty existingItems))
        as [pushed [Hp [Hincl _]]].
      exists pushed. split; [exact Hp |]. split; [exact Hincl |].
      destruct (pushMissing_covers (orEmpty newItems) (orEmpty existingItems)) as [_ Hall].
      rewrite Forall_forall in *. intros y Hy. apply Hnamed, Hall, Hy.
Qed.

Lemma pushMissing_distinct (newItems merged : list item) :
  NoDup (map itemKey merged) -> NoDup (map itemKey (pushMissing merged newItems)).
Proof.
  revert merged. induction newItems as [| x rest IH]; intros merged Hnd; simpl.
  - exact Hnd.
  - destruct (find (sameItemName x) merged) eqn:Hfind; [apply IH; exact Hnd |].
    apply IH. rewrite map_app. simpl.
    apply find_namesake_none in Hfind.
    apply NoDup_app; [exact Hnd | constructor; [intros [] | constructor] |].
    intros k Hk [<- | []]. contradiction.
Qed.

(** X10.  When the existing items have pairwise different names, up to the
    case of letters, and there is at least one of them, so have the merged
    items, whatever the new items are; when there is no existing item the
    new items are taken as they are, so the same holds only if their own
    names are pairwise different. *)
Theorem mergeItems_keeps_names_distinct (existingItems newItems : option (list item)) :
  NoDup (map itemKey (orEmpty existingItems)) ->
  isEmptyOrMissing existingItems = false \/ NoDup (map itemKey (orEmpty newItems)) ->
  NoDup (map itemKey (mergeItems existingItems newItems)).
Proof.
  intros He Hor. unfold mergeItems.
  destruct (isEmptyOrMissing existingItems) eqn:Hempty.
  - destruct Hor as [H | H]; [discriminate | exact H].
  - destruct (isEmptyOrMissing newItems); [exact He |].
    apply pushMissing_distinct. exact He.
Qed.

Lemma mergeItems_keeps_names_distinct_witness :
  NoDup (map itemKey
           (mergeItems (Some [latte])
              (Some [ {| name := Some "LATTE"; quantity := None; price := Some 250%Q |};
                      {| name := Some "Scone"; quantity := None; price := Some 90%Q |};
                      {| name := Some "scone"; quantity := None; price := Some 90%Q |} ]))).
Proof.
  apply mergeItems_keeps_names_distinct.
  - simpl. constructor; [intros [] | constructor].
  - left. reflexivity.
Defined.

(** ** The decision *)

(** X13.  Verdicts past the number of candidates are never looked at: the
    decision is the same as on the verdicts cut to that number. *)
Theorem decide_ignores_surplus_verdicts (potentialMatches : list transaction)
    (correlations : list analysis) :
  decide potentialMatches correlations
  = decide potentialMatches (firstn (List.length potentialMatches) correlations).
Proof.
  unfold decide. rewrite !bestCorrelation_fold, <- combine_firstn_l. reflexivity.
Qed.

(** ** The gateway and the attempt *)

Lemma setDefaultsAll_nth (l : list jsonEntry) (v : list analysis) (i : nat) (a : analysis) :
  setDefaultsAll l = Some v -> nth_error v i = Some a ->
  exists e, nth_error l i = Some e /\ setDefaults e = Some a.
Proof.
  revert v i. induction l as [| e l IH]; intros v i; simpl.
  - intros [= <-]. destruct i; discriminate.
  - destruct (setDefaults e) as [a0 |] eqn:He; [| discriminate].
    destruct (setDefaultsAll l) as [v' |]; [| discriminate].
    intros [= <-]. destruct i as [| i]; simpl.
    + intros [= <-]. exists e. auto.
    + intros Hnth. apply (IH v' i); auto.
Qed.

Lemma default_not_correlated (l : list analysis) (i : nat) (a : analysis) :
  Forall isDefaultVerdict l -> nth_error l i = Some a -> is_correlated a = false.
Proof.
  intros Hall Hnth. rewrite Forall_forall in Hall.
  apply (Hall a). eapply nth_error_In; eauto.
Qed.

(** X11.  The gateway reports a correlation only where the oracle asserted
    one: a verdict returned as correlated stands at the position of an
    object of the oracle's parsed answer whose [is_correlated] is [true].
    Padding and the answers to failures are never correlated. *)
Theorem correlated_verdict_comes_from_oracle (JSON_parse : string -> option jsonValue)
    (oracle : transaction -> list transaction -> result string)
    (newTransaction : transaction) (potentialMatches : list transaction)
    (i : nat) (a : analysis) :
  nth_error (gatewayVerdicts JSON_parse oracle newTransaction potentialMatches) i = Some a ->
  is_correlated a = true ->
  exists response found r,
    oracle newTransaction potentialMatches = Ok response /\
    JSON_parse response = Some (JsonObject (Some found)) /\
    nth_error found i = Some (EntryObject r) /\
    raw_is_correlated r = Some true /\
    setDefaults (EntryObject r) = Some a.
Proof.
  unfold gatewayVerdicts. intros Hnth Hc.
  destruct (oracle newTransaction potentialMatches) as [response | m].
  2: { rewrite (default_not_correlated _ _ _ (defaultsFor_default _ _) Hnth) in Hc.
       discriminate. }
  destruct (JSON_parse response) as [[| found] |] eqn:Hparse.
  1, 3: rewrite parse_failure in Hnth by auto;
        rewrite (default_not_correlated _ _ _ (defaultsFor_default _ _) Hnth) in Hc;
        discriminate.
  destruct (setDefaultsAll (orEmpty found)) as [given |] eqn:Hgiven.
  2: { rewrite (parse_bad_entry _ _ _ _ Hparse Hgiven) in Hnth.
       rewrite (default_not_correlated _ _ _ (defaultsFor_default _ _) Hnth) in Hc.
       discriminate. }
  destruct (parse_object _ _ (List.length potentialMatches) _ _ Hparse Hgiven)
    as [padding [Heq [_ Hdef]]].
  rewrite Heq in Hnth.
  destruct (Nat.lt_ge_cases i (List.length given)) as [Hlt | Hge].
  - rewrite nth_error_app1 in Hnth by exact Hlt.
    destruct (setDefaultsAll_nth _ _ _ _ Hgiven Hnth) as [e [He Hset]].
    destruct e as [r |]; [| discriminate].
    destruct found as [found |]; [| destruct i; discriminate].
    exists response, found, r. repeat split; auto.
    simpl in Hset. injection Hset as <-. simpl in Hc.
    destruct (raw_is_correlated r) as [[] |]; simpl in Hc; congruence.
  - rewrite nth_error_app2 in Hnth by exact Hge.
    rewrite (default_not_correlated _ _ _ Hdef Hnth) in Hc. discriminate.
Qed.

Lemma correlated_verdict_comes_from_oracle_witness :
  exists response found r,
    oracleAnswers cafeEmail [cafeSms] = Ok response /\
    parsesTo [rawVerdict 1 true 88 "same_purchase" "merge"] response
    = Some (JsonObject (Some found)) /\
    nth_error found 0 = Some (EntryObject r) /\
    raw_is_correlated r = Some true.
Proof.
  destruct (correlated_verdict_comes_from_oracle
              (parsesTo [rawVerdict 1 true 88 "same_purchase" "merge"]) oracleAnswers
              cafeEmail [cafeSms] 0
              {| transaction_index := Some 1; is_correlated := true; confidence := 88;
                 correlation_type := "same_purchase";
                 reason := Some "same merchant and amount";
                 recommended_action := "merge" |} eq_refl eq_refl)
    as [response [found [r [H1 [H2 [H3 [H4 _]]]]]]].
  exists response, found, r. auto.
Defined.

Lemma run_timestampOrNow (oracle : transaction -> list transaction -> result string)
    (t : timestamp_value) (w : world) :
  run oracle (timestampOrNow t) w =
  match t with
  | TsAbsent => (Ok (TsAt (clock w)), tick w)
  | TsInvalid | TsAt _ => (Ok t, w)
  end.
Proof. destruct t; reflexivity. Qed.

Section Attempt.

Variable oracle : transaction -> list transaction -> result string.
Variable JSON_parse : string -> option jsonValue.

(** An attempt that reaches no decision returns [null], leaves the
    documents alone and only reads. *)
Lemma run_findCorrelations_undecided (newTransaction : transaction) (user : option string)
    (input : inputData) (w : world) :
  decide (candidatesFound newTransaction user w)
    (gatewayVerdicts JSON_parse oracle newTransaction (candidatesFound newTransaction user w))
  = None ->
  fst (run oracle (findCorrelations JSON_parse newTransaction user input) w) = Ok None /\
  docs (snd (run oracle (findCorrelations JSON_parse newTransaction user input) w)) = docs w /\
  (forall ev,
      In ev (calls (snd (run oracle (findCorrelations JSON_parse newTransaction user input) w))) ->
      In ev (calls w) \/ isRead ev).
Proof.
  intros Hd. rewrite run_findCorrelations. cbv zeta.
  destruct (candidatesFound newTransaction user w) as [| c rest] eqn:Hpm.
  - simpl. split; [reflexivity |]. split; [apply worldAfterSearch_docs |].
    intros ev Hin. apply worldAfterSearch_calls in Hin.
    destruct Hin as [Hin | [s [e ->]]]; [auto | right; exact I].
  - rewrite Hd. simpl. split; [reflexivity |]. split; [apply worldAfterSearch_docs |].
    intros ev Hin. apply in_app_or in Hin. destruct Hin as [Hin | [<- | []]].
    + apply worldAfterSearch_calls in Hin.
      destruct Hin as [Hin | [s [e ->]]]; [auto | right; exact I].
    + right. exact I.
Qed.

Lemma decide_defaults (potentialMatches : list transaction) (correlations : list analysis) :
  Forall isDefaultVerdict correlations -> decide potentialMatches correlations = None.
Proof.
  intros Hall. apply decide_none_below.
  apply Forall_forall. intros [c a] Hin Hc. simpl in *.
  apply in_combine_r in Hin. rewrite Forall_forall in Hall.
  destruct (Hall a Hin) as [Hfalse _]. congruence.
Qed.

End Attempt.

(** X12.  A failure of the oracle never causes a merge: when the oracle
    call fails, or its text cannot be parsed, the attempt returns [null],
    the documents are unchanged and no writing call is made. *)
Theorem failed_oracle_never_merges (JSON_parse : string -> option jsonValue)
    (oracle : transaction -> list transaction -> result string)
    (newTransaction : transaction) (user : option string) (input : inputData) (w : world) :
  (exists m, oracle newTransaction (candidatesFound newTransaction user w) = Failed m) \/
  (exists response,
      oracle newTransaction (candidatesFound newTransaction user w) = Ok response /\
      JSON_parse response = None) ->
  let outcome := run oracle (findCorrelations JSON_parse newTransaction user input) w in
  fst outcome = Ok None /\ docs (snd outcome) = docs w /\
  (forall ev, In ev (calls (snd outcome)) -> In ev (calls w) \/ isRead ev).
Proof.
  intros Hfail. cbv zeta. apply run_findCorrelations_undecided.
  apply decide_defaults. unfold gatewayVerdicts.
  destruct Hfail as [[m ->] | [response [-> Hp]]].
  - apply defaultsFor_default.
  - rewrite parse_failure by auto. apply defaultsFor_default.
Qed.

Lemma failed_oracle_never_merges_witness :
  fst (run oracleTimesOut
         (findCorrelations (parsesTo [rawVerdict 1 true 95 "duplicate" "merge"])
            cafeEmail (Some "u1") emailInput) (worldWith [cafeSms])) = Ok None.
Proof.
  apply (failed_oracle_never_merges (parsesTo [rawVerdict 1 true 95 "duplicate" "merge"])
           oracleTimesOut cafeEmail (Some "u1") emailInput (worldWith [cafeSms])).
  left. exists "timeout". reflexivity.
Defined.

(** X6.  An incoming transaction whose timestamp cannot be read matches no
    stored timestamp, and its search does not even ask the store: the
    search returns no candidate and the attempt returns [null] in the world
    as it was. *)
Theorem unreadable_timestamp_is_never_correlated (JSON_parse : string -> option jsonValue)
    (oracle : transaction -> list transaction -> result string)
    (newTransaction : transaction) (user : option string) (input : inputData) (w : world) :
  timestamp newTransaction = TsInvalid \/ timestamp newTransaction = TsAbsent ->
  (forall t, isTimeMatch (timestamp newTransaction) t = false) /\
  run oracle (findPotentialMatches newTransaction user) w = (Ok [], w) /\
  run oracle (findCorrelations JSON_parse newTransaction user input) w = (Ok None, w).
Proof.
  intros Hts.
  assert (Hwin : calculateTimeWindow (timestamp newTransaction) = None)
    by (destruct Hts as [-> | ->]; reflexivity).
  split; [| split].
  - intros t. destruct Hts as [-> | ->]; unfold isTimeMatch; simpl;
      destruct (hasPreciseTime t); reflexivity.
  - rewrite run_findPotentialMatches. unfold candidatesFound, worldAfterSearch.
    rewrite Hwin. reflexivity.
  - rewrite run_findCorrelations. cbv zeta. unfold candidatesFound, worldAfterSearch.
    rewrite Hwin. reflexivity.
Qed.

Lemma unreadable_timestamp_is_never_correlated_witness :
  run oracleAnswers
    (findPotentialMatches
       {| id := None; userId := None; merchant := Some "Cafe X"; amount := Some 250%Q;
          currency := None; category := None; timestamp := TsInvalid; items := None;
          sources := None; correlation_id := None; correlation_info := None;
          updated_at := None; status := None |} (Some "u1")) (worldWith [cafeSms])
  = (Ok [], worldWith [cafeSms]).
Proof.
  apply (unreadable_timestamp_is_never_correlated unparsable oracleAnswers
           {| id := None; userId := None; merchant := Some "Cafe X"; amount := Some 250%Q;
              currency := None; category := None; timestamp := TsInvalid; items := None;
              sources := None; correlation_id := None; correlation_info := None;
              updated_at := None; status := None |} (Some "u1") emailInput
           (worldWith [cafeSms])).
  left. reflexivity.
Defined.

(** The background correlation returns, whatever the store and the oracle
    do. *)
Lemma analyzeForCorrelations_returns (JSON_parse : string -> option jsonValue)
    (oracle : transaction -> list transaction -> result string)
    (transactionId : string) (processed : processedData)
    (user : option string) (input : inputData) (w : world) :
  exists outcome,
    fst (run oracle (analyzeForCorrelations JSON_parse transactionId processed user input) w)
    = Ok outcome.
Proof.
  unfold analyzeForCorrelations. rewrite run_bind, run_timestampOrNow.
  destruct (pd_timestamp processed); cbv iota; rewrite run_tryCatch;
    match goal with
    | |- context [run oracle (findCorrelations ?P ?t ?u ?i) ?w0] =>
        destruct (findCorrelations_returns oracle P t u i w0) as [o Ho];
        destruct (run oracle (findCorrelations P t u i) w0) as [[r | m] w1]
    end; simpl in *; try discriminate; eauto.
Qed.

(** X15.  Neither the correlation attempt nor the background correlation
    ever throws, whatever the store and the oracle do: every failure inside
    them, that of a merge commit included, ends as [null]. *)
Theorem correlation_attempts_never_throw (JSON_parse : string -> option jsonValue)
    (oracle : transaction -> list transaction -> result string)
    (newTransaction : transaction) (transactionId : string) (processed : processedData)
    (user : option string) (input : inputData) (w : world) :
  (exists outcome,
      fst (run oracle (findCorrelations JSON_parse newTransaction user input) w) = Ok outcome) /\
  (exists outcome,
      fst (run oracle (analyzeForCorrelations JSON_parse transactionId processed user input) w)
      = Ok outcome).
Proof.
  split; [apply findCorrelations_returns | apply analyzeForCorrelations_returns].
Qed.

(** ** What the search returns *)

Lemma insertByTimeDesc_in (t x : transaction) (l : list transaction) :
  In x (insertByTimeDesc t l) <-> x = t \/ In x l.
Proof.
  induction l as [| y l IH]; simpl.
  - split; intros [H | H]; auto.
  - destruct (timeOf y <=? timeOf t)%Z; simpl.
    + split; intros [H | H]; auto.
    + rewrite IH. split; intros H; tauto.
Qed.

Lemma insertByTimeDesc_length (t : transaction) (l : list transaction) :
  List.length (insertByTimeDesc t l) = S (List.length l).
Proof.
  induction l as [| y l IH]; simpl; [reflexivity |].
  destruct (timeOf y <=? timeOf t)%Z; simpl; [reflexivity | rewrite IH; reflexivity].
Qed.

Lemma orderByTimestampDesc_in (x : transaction) (l : list transaction) :
  In x (orderByTimestampDesc l) <-> In x l.
Proof.
  unfold orderByTimestampDesc. induction l as [| y l IH]; simpl; [tauto |].
  rewrite insertByTimeDesc_in, IH. split; intros [H | H]; auto.
Qed.

Lemma orderByTimestampDesc_length (l : list transaction) :
  List.length (orderByTimestampDesc l) = List.length l.
Proof.
  unfold orderByTimestampDesc. induction l as [| y l IH]; simpl; [reflexivity |].
  rewrite insertByTimeDesc_length, IH. reflexivity.
Qed.

Lemma firstn_in {A : Type} (n : nat) (l : list A) (x : A) : In x (firstn n l) -> In x l.
Proof.
  revert l. induction n as [| n IH]; intros [| y l]; simpl; try tauto.
  intros [H | H]; [left; exact H | right; apply IH; exact H].
Qed.

(** What a query returns: stored documents of the user, active, with a
    time in the range asked for, and no more of them than the limit. *)
Lemma queryTransactions_sound (user : option string) (startDate endDate : Z) (limit : nat)
    (collection : list transaction) :
  (List.length (queryTransactions user startDate endDate limit collection) <= limit)%nat /\
  forall d, In d (queryTransactions user startDate endDate limit collection) ->
            In d collection /\ userId d = user /\ status d = Some "active" /\
            exists ms, timestamp d = TsAt ms /\ startDate <= ms <= endDate.
Proof.
  unfold queryTransactions. split; [apply firstn_le_length |].
  intros d Hin. apply firstn_in, orderByTimestampDesc_in, filter_In in Hin.
  destruct Hin as [Hin Hcond].
  apply andb_true_iff in Hcond. destruct Hcond as [Hcond Hstatus].
  apply andb_true_iff in Hcond. destruct Hcond as [Huser Hrange].
  apply strictEqString_eq in Huser, Hstatus.
  split; [exact Hin |]. split; [exact Huser |]. split; [exact Hstatus |].
  unfold inRange in Hrange. destruct (timestamp d) as [| | ms]; try discriminate.
  exists ms. split; [reflexivity |].
  apply andb_true_iff in Hrange. destruct Hrange as [H1 H2].
  apply Z.leb_le in H1, H2. lia.
Qed.




(** ** The merge commit *)

Lemma updateFirst_other (i : option string) (f : transaction -> transaction)
    (l : list transaction) (d : transaction) :
  In d l -> hasId i d = false -> In d (updateFirst i f l).
Proof.
  induction l as [| x l IH]; simpl; [tauto |].
  intros [<- | Hin] Hd.
  - rewrite Hd. left. reflexivity.
  - destruct (hasId i x); right; auto.
Qed.

Lemma updateFirst_hit (i : option string) (f : transaction -> transaction)
    (l : list transaction) :
  existsb (hasId i) l = true ->
  exists d, In d l /\ hasId i d = true /\ In (f d) (updateFirst i f l).
Proof.
  induction l as [| x l IH]; simpl; [discriminate |].
  destruct (hasId i x) eqn:Hx; simpl.
  - intros _. exists x. auto.
  - intros H. destruct (IH H) as [d [Hin [Hd Hf]]]. exists d. auto.
Qed.

Lemma updateFirst_length (i : option string) (f : transaction -> transaction)
    (l : list transaction) :
  List.length (updateFirst i f l) = List.length l.
Proof.
  induction l as [| x l IH]; simpl; [reflexivity |].
  destruct (hasId i x); simpl; [reflexivity | rewrite IH; reflexivity].
Qed.

Lemma hasId_eq (i : option string) (d : transaction) : hasId i d = true <-> id d = i.
Proof. unfold hasId, strictEqId. apply strictEqString_eq. Qed.

Lemma hasId_neq (i : option string) (d : transaction) : id d <> i -> hasId i d = false.
Proof.
  intros H. destruct (hasId i d) eqn:Hd; [| reflexivity].
  apply hasId_eq in Hd. contradiction.
Qed.

(** X16.  When the update of the winner fails, because the store call
    fails or because the winner is no longer stored, the merge throws, no
    document is changed and the deletion of the duplicate is not
    attempted. *)
Theorem failed_winner_update_changes_nothing
    (oracle : transaction -> list transaction -> result string)
    (existingTransaction newTransaction : transaction) (input : inputData) (a : analysis)
    (w : world) :
  fst (nextFault w) = true \/ existsb (hasId (id existingTransaction)) (docs w) = false ->
  exists m w',
    run oracle (mergeTransactions existingTransaction newTransaction input a) w
    = (Failed m, w') /\
    docs w' = docs w /\
    forall i, In (EvDelete i) (calls w') -> In (EvDelete i) (calls w).
Proof.
  intros Hfail. unfold mergeTransactions.
  rewrite run_tryCatch, !run_now, run_bind, run_call. cbn [handle].
  set (ev := EvUpdate _ _).
  assert (Hlog : forall i, In (EvDelete i) (calls w ++ [ev]) -> In (EvDelete i) (calls w)).
  { intros i Hin. apply in_app_or in Hin.
    destruct Hin as [Hin | [Hin | []]]; [exact Hin | discriminate]. }
  destruct (definedData _).
  2: { simpl. do 2 eexists. split; [reflexivity |]. split; [reflexivity | exact Hlog]. }
  destruct (nextFault_logCall (tick (tick (tick w))) ev) as [Hf [Hd Hc]].
  assert (Hfw : fst (nextFault (tick (tick (tick w)))) = fst (nextFault w)).
  { unfold nextFault. simpl. destruct (faults w); reflexivity. }
  rewrite Hfw in Hf.
  destruct (nextFault (logCall (tick (tick (tick w))) ev)) as [fault w4].
  simpl in Hf, Hd, Hc.
  assert (Hno : forall i, In (EvDelete i) (calls w4) -> In (EvDelete i) (calls w)).
  { intros i. rewrite Hc. apply Hlog. }
  destruct fault.
  - simpl. do 2 eexists. split; [reflexivity |]. split; assumption.
  - destruct Hfail as [Hfail | Hfail]; [congruence |].
    destruct (id existingTransaction) as [i |] eqn:Hi.
    + rewrite Hd, Hfail. simpl. do 2 eexists. split; [reflexivity |]. split; assumption.
    + simpl. do 2 eexists. split; [reflexivity |]. split; assumption.
Qed.

Lemma failed_winner_update_changes_nothing_witness :
  exists m w',
    run oracleAnswers
      (mergeTransactions cafeSms cafeEmailSaved emailInput
         (reasonedVerdict 1 "duplicate" 95)) (worldStoreDown [cafeSms; cafeEmailSaved])
    = (Failed m, w') /\
    docs w' = [cafeSms; cafeEmailSaved].
Proof.
  destruct (failed_winner_update_changes_nothing oracleAnswers cafeSms cafeEmailSaved
              emailInput (reasonedVerdict 1 "duplicate" 95)
              (worldStoreDown [cafeSms; cafeEmailSaved])) as [m [w' [Hrun [Hdocs _]]]].
  - left. reflexivity.
  - exists m, w'. split; [exact Hrun | exact Hdocs].
Defined.

(** X17.  When the merged data holds no [undefined], the winner was
    updated and the deletion of the duplicate then fails, the merge throws
    although the winner already carries the merged data, and the duplicate
    is still stored. *)
Theorem failed_duplicate_delete_keeps_update
    (oracle : transaction -> list transaction -> result string)
    (existingTransaction newTransaction : transaction) (input : inputData) (a : analysis)
    (w : world) (i : string) (later : list bool) :
  faults w = false :: true :: later ->
  id existingTransaction = Some i ->
  existsb (hasId (Some i)) (docs w) = true ->
  truthyString (id newTransaction) = true ->
  writable existingTransaction newTransaction input a ->
  exists m w' addedAt mergedAt updatedAt stamp,
    run oracle (mergeTransactions existingTransaction newTransaction input a) w
    = (Failed m, w') /\
    docs w' = updateFirst (Some i)
                (applyUpdate (buildMergedData existingTransaction newTransaction input a
                                addedAt mergedAt updatedAt) stamp) (docs w).
Proof.
  intros Hf Hi Hstored Hn Hw. unfold mergeTransactions.
  rewrite run_tryCatch, !run_now, run_bind, run_call. cbn [handle]. rewrite Hw.
  unfold nextFault at 1. simpl faults. rewrite Hf. cbv iota. rewrite Hi. simpl docs.
  rewrite Hstored. cbv iota.
  destruct (id newTransaction) as [duplicate |] eqn:Hdup; [| discriminate].
  rewrite Hn. rewrite run_bind, run_call. simpl.
  do 6 eexists. split; reflexivity.
Qed.

Lemma failed_duplicate_delete_keeps_update_witness :
  exists m w',
    run oracleAnswers
      (mergeTransactions cafeSms cafeEmailSaved emailInput
         (reasonedVerdict 1 "duplicate" 95))
      {| docs := [cafeSms; cafeEmailSaved]; faults := [false; true]; clock := jan24_1435;
         nextId := 0; calls := [] |}
    = (Failed m, w') /\
    sourceKinds w' = [(Some "A", ["sms"; "email"]); (Some "B", ["email"])].
Proof.
  destruct (failed_duplicate_delete_keeps_update oracleAnswers cafeSms cafeEmailSaved
              emailInput (reasonedVerdict 1 "duplicate" 95)
              {| docs := [cafeSms; cafeEmailSaved]; faults := [false; true];
                 clock := jan24_1435; nextId := 0; calls := [] |} "A" [])
    as [m [w' [t1 [t2 [t3 [t4 [Hrun Hdocs]]]]]]]; try reflexivity.
  - intros t1 t2 t3. reflexivity.
  - exists m, w'. split; [exact Hrun |].
    unfold sourceKinds. rewrite Hdocs. reflexivity.
Defined.

(** X18.  On a working store that holds the winner, when the merged data
    holds no [undefined], the merge returns the winner's id; afterwards no document with the duplicate's id is stored,
    the winner's document carries the merged data, and every document other
    than these two is as it was. *)
Theorem merge_commit_on_working_store
    (oracle : transaction -> list transaction -> result string)
    (existingTransaction newTransaction : transaction) (input : inputData) (a : analysis)
    (w : world) (i j : string) :
  faults w = [] ->
  id existingTransaction = Some i ->
  existsb (hasId (Some i)) (docs w) = true ->
  id newTransaction = Some j -> j <> "" -> i <> j ->
  writable existingTransaction newTransaction input a ->
  exists w' addedAt mergedAt updatedAt stamp,
    run oracle (mergeTransactions existingTransaction newTransaction input a) w
    = (Ok (Some i), w') /\
    (forall d, In d (docs w') -> id d <> Some j) /\
    (exists d, In d (docs w) /\ id d = Some i /\
               In (applyUpdate (buildMergedData existingTransaction newTransaction input a
                                  addedAt mergedAt updatedAt) stamp d) (docs w')) /\
    (forall d, In d (docs w) -> id d <> Some i -> id d <> Some j -> In d (docs w')).
Proof.
  intros Hf Hi Hstored Hj Hne Hij Hw.
  destruct (run_merge_stored oracle existingTransaction newTransaction input a w i
              Hf Hi Hstored Hw) as [w' [t1 [t2 [t3 [t4 [Hrun [_ Hdocs]]]]]]].
  assert (Htruthy : truthyString (id newTransaction) = true).
  { rewrite Hj. simpl. apply negb_true_iff. apply String.eqb_neq. exact Hne. }
  rewrite Htruthy, Hj in Hdocs. cbv zeta in Hdocs.
  exists w', t1, t2, t3, t4. split; [exact Hrun |]. rewrite Hdocs.
  split; [| split].
  - intros d Hin. apply filter_In in Hin. destruct Hin as [_ Hd].
    apply negb_true_iff in Hd. intros Heq. apply hasId_eq in Heq. congruence.
  - destruct (updateFirst_hit (Some i)
                (applyUpdate (buildMergedData existingTransaction newTransaction input a
                                t1 t2 t3) t4) (docs w) Hstored) as [d [Hin [Hd Hupd]]].
    exists d. apply hasId_eq in Hd. split; [exact Hin |]. split; [exact Hd |].
    apply filter_In. split; [exact Hupd |].
    apply negb_true_iff, hasId_neq. simpl. rewrite Hd. congruence.
  - intros d Hin Hni Hnj. apply filter_In. split.
    + apply updateFirst_other; [exact Hin | apply hasId_neq; exact Hni].
    + apply negb_true_iff, hasId_neq. exact Hnj.
Qed.

Lemma merge_commit_on_working_store_witness :
  exists w',
    run oracleAnswers
      (mergeTransactions cafeSms cafeEmailSaved emailInput
         (reasonedVerdict 1 "duplicate" 95)) (worldWith [cafeSms; cafeEmailSaved])
    = (Ok (Some "A"), w') /\
    forall d, In d (docs w') -> id d <> Some "B".
Proof.
  destruct (merge_commit_on_working_store oracleAnswers cafeSms cafeEmailSaved emailInput
              (reasonedVerdict 1 "duplicate" 95) (worldWith [cafeSms; cafeEmailSaved])
              "A" "B") as [w' [t1 [t2 [t3 [t4 [Hrun [Hgone _]]]]]]];
    try reflexivity; try discriminate.
  - intros t1 t2 t3. reflexivity.
  - exists w'. split; [exact Hrun | exact Hgone].
Defined.

(** ** Two merge commits of one pair *)

Lemma existsb_updateFirst (i j : option string) (f : transaction -> transaction)
    (l : list transaction) :
  (forall d, id (f d) = id d) ->
  existsb (hasId j) (updateFirst i f l) = existsb (hasId j) l.
Proof.
  intros Hf. induction l as [| x l IH]; simpl; [reflexivity |].
  destruct (hasId i x); simpl; [| rewrite IH; reflexivity].
  unfold hasId. rewrite Hf. reflexivity.
Qed.

Lemma existsb_removed (j : option string) (l : list transaction) :
  existsb (hasId j) (filter (fun d => negb (hasId j d)) l) = false.
Proof.
  induction l as [| x l IH]; simpl; [reflexivity |].
  destruct (hasId j x) eqn:Hx; simpl; [exact IH | rewrite Hx, IH; reflexivity].
Qed.

Lemma existsb_kept (i j : option string) (l : list transaction) :
  i <> j -> existsb (hasId i) (filter (fun d => negb (hasId j d)) l) = existsb (hasId i) l.
Proof.
  intros Hij. induction l as [| x l IH]; simpl; [reflexivity |].
  destruct (hasId j x) eqn:Hx; simpl; [| rewrite IH; reflexivity].
  rewrite IH. destruct (hasId i x) eqn:Hi; [| reflexivity].
  apply hasId_eq in Hx. apply hasId_eq in Hi. congruence.
Qed.

Lemma truthy_id (j : string) : j <> "" -> truthyString (Some j) = true.
Proof. intros H. simpl. apply negb_true_iff, String.eqb_neq. exact H. Qed.

(** A merge whose winner is not stored throws and changes no document. *)
Lemma run_merge_not_stored (oracle : transaction -> list transaction -> result string)
    (existingTransaction newTransaction : transaction) (input : inputData) (a : analysis)
    (w : world) :
  existsb (hasId (id existingTransaction)) (docs w) = false ->
  exists m w',
    run oracle (mergeTransactions existingTransaction newTransaction input a) w
    = (Failed m, w') /\
    docs w' = docs w.
Proof.
  intros Hgone. unfold mergeTransactions.
  rewrite run_tryCatch, !run_now, run_bind, run_call. cbn [handle].
  set (ev := EvUpdate _ _).
  destruct (definedData _); [| simpl; eauto].
  destruct (nextFault_logCall (tick (tick (tick w))) ev) as [_ [Hd _]].
  destruct (nextFault (logCall (tick (tick (tick w))) ev)) as [[] w4]; simpl in Hd.
  - simpl. eauto.
  - destruct (id existingTransaction) as [i |]; [| simpl; eauto].
    rewrite Hd, Hgone. simpl. eauto.
Qed.

Lemma filter_other (j : option string) (l : list transaction) (d : transaction) :
  In d l -> id d <> j -> In d (filter (fun x => negb (hasId j x)) l).
Proof.
  intros Hin Hne. apply filter_In. split; [exact Hin |].
  apply negb_true_iff, hasId_neq. exact Hne.
Qed.

(** C2, as the code has it.  No critical section surrounds the update of
    the winner and the deletion of the duplicate: they are two awaited
    store calls.  Take two stored records, a working store and merged data
    that the store accepts, and the two merge commits of the pair, each
    record being the winner of one and the duplicate of the other.  Run
    one after the other, the first commit succeeds and the second throws at
    its update, the winner it names being gone: one record of the pair is
    left.  Run with their store calls taking turns, both commits succeed
    and neither record is left.  The other documents are untouched. *)
Theorem merge_commits_converge_only_in_turn
    (oracle : transaction -> list transaction -> result string)
    (first second : transaction) (input1 input2 : inputData) (a1 a2 : analysis)
    (w : world) (i j : string) :
  faults w = [] ->
  id first = Some i -> id second = Some j -> i <> j -> i <> "" -> j <> "" ->
  existsb (hasId (Some i)) (docs w) = true ->
  existsb (hasId (Some j)) (docs w) = true ->
  writable first second input2 a1 ->
  writable second first input1 a2 ->
  let intoFirst := mergeTransactions first second input2 a1 in
  let intoSecond := mergeTransactions second first input1 a2 in
  (let one := run oracle intoFirst w in
   let two := run oracle intoSecond (snd one) in
   fst one = Ok (Some i) /\
   (exists m, fst two = Failed m) /\
   existsb (hasId (Some i)) (docs (snd two)) = true /\
   existsb (hasId (Some j)) (docs (snd two)) = false /\
   untouched i j w (snd two))
  /\
  (let outcome := runSchedule oracle [0; 1; 0; 1]%nat [intoFirst; intoSecond] w in
   fst outcome = [Ret (Some i); Ret (Some j)] /\
   existsb (hasId (Some i)) (docs (snd outcome)) = false /\
   existsb (hasId (Some j)) (docs (snd outcome)) = false /\
   untouched i j w (snd outcome)).
Proof.
  intros Hf Hi Hj Hij Hi0 Hj0 Hsi Hsj Hw1 Hw2. cbv zeta.
  assert (Hkeep : forall data stamp d, id (applyUpdate data stamp d) = id d)
    by reflexivity.
  split.
  - destruct (run_merge_stored oracle first second input2 a1 w i Hf Hi Hsi Hw1)
      as [w1 [t1 [t2 [t3 [t4 [Hrun [Hf1 Hd1]]]]]]].
    rewrite Hrun. cbn [fst snd].
    rewrite Hj, (truthy_id j Hj0) in Hd1. cbv zeta in Hd1.
    assert (Hgone : existsb (hasId (Some j)) (docs w1) = false)
      by (rewrite Hd1; apply existsb_removed).
    assert (Hthere : existsb (hasId (Some i)) (docs w1) = true).
    { rewrite Hd1, existsb_kept by congruence.
      rewrite existsb_updateFirst by apply Hkeep. exact Hsi. }
    destruct (run_merge_not_stored oracle second first input1 a2 w1)
      as [m [w2 [Hrun2 Hd2]]].
    { rewrite Hj. exact Hgone. }
    rewrite Hrun2. cbn [fst snd]. unfold untouched. rewrite Hd2.
    split; [reflexivity |]. split; [eauto |]. split; [exact Hthere |].
    split; [exact Hgone |].
    intros d Hin Hni Hnj. rewrite Hd1. apply filter_other; [| exact Hnj].
    apply updateFirst_other; [exact Hin | apply hasId_neq; exact Hni].
  - destruct w as [ds fs c n cs]. simpl in Hf, Hsi, Hsj. subst fs.
    unfold mergeTransactions. cbn -[buildMergedData updateFirst existsb].
    rewrite Hw1. rewrite Hi. cbn -[buildMergedData updateFirst existsb]. rewrite Hsi.
    cbn -[buildMergedData updateFirst existsb].
    rewrite Hw2, Hj. cbn -[buildMergedData updateFirst existsb].
    rewrite existsb_updateFirst by apply Hkeep. rewrite Hsj.
    cbn -[buildMergedData updateFirst existsb filter].
    rewrite (proj2 (String.eqb_neq j "") Hj0).
    cbn -[buildMergedData updateFirst existsb filter].
    rewrite (proj2 (String.eqb_neq i "") Hi0).
    cbn -[buildMergedData updateFirst existsb filter].
    split; [reflexivity |]. split; [apply existsb_removed |].
    split; [rewrite existsb_kept by congruence; apply existsb_removed |].
    intros d Hin Hni Hnj. simpl in Hin.
    apply filter_other; [| exact Hni]. apply filter_other; [| exact Hnj].
    apply updateFirst_other; [| apply hasId_neq; exact Hnj].
    apply updateFirst_other; [exact Hin | apply hasId_neq; exact Hni].
Qed.

(** The SMS record and the e-mail record of one purchase, each merged into
    the other. *)
Lemma merge_commits_converge_only_in_turn_witness :
  let intoSms := mergeTransactions cafeSms cafeEmailSaved emailInput
                   (reasonedVerdict 1 "duplicate" 95) in
  let intoEmail := mergeTransactions cafeEmailSaved cafeSms smsInput
                     (reasonedVerdict 1 "duplicate" 95) in
  let w := worldWith [cafeSms; cafeEmailSaved] in
  map id (docs (snd (run oracleAnswers intoEmail (snd (run oracleAnswers intoSms w)))))
  = [Some "A"] /\
  docs (snd (runSchedule oracleAnswers [0; 1; 0; 1]%nat [intoSms; intoEmail] w)) = [] /\
  existsb (hasId (Some "A"))
    (docs (snd (run oracleAnswers intoEmail (snd (run oracleAnswers intoSms w))))) = true /\
  existsb (hasId (Some "A"))
    (docs (snd (runSchedule oracleAnswers [0; 1; 0; 1]%nat [intoSms; intoEmail] w))) = false.
Proof.
  cbv zeta.
  destruct (merge_commits_converge_only_in_turn oracleAnswers cafeSms cafeEmailSaved
              smsInput emailInput (reasonedVerdict 1 "duplicate" 95)
              (reasonedVerdict 1 "duplicate" 95) (worldWith [cafeSms; cafeEmailSaved])
              "A" "B" eq_refl eq_refl eq_refl
              ltac:(discriminate) ltac:(discriminate) ltac:(discriminate)
              eq_refl eq_refl
              ltac:(intros t1 t2 t3; reflexivity) ltac:(intros t1 t2 t3; reflexivity))
    as [[_ [_ [Hone _]]] [_ [Hnone _]]].
  split; [reflexivity |]. split; [reflexivity |]. split; [exact Hone | exact Hnone].
Defined.

(** ** Receipts *)

Lemma strictEqString_neq (x y : option string) : x <> y -> strictEqString x y = false.
Proof.
  intros H. destruct (strictEqString x y) eqn:E; [| reflexivity].
  apply strictEqString_eq in E. contradiction.
Qed.

Lemma processReceipt_expense (JSON_parse : string -> option jsonValue)
    (oracle : transaction -> list transaction -> result string)
    (action : requestedAction) (processed : processedData) (user : option string)
    (input : inputData) (w : world) :
  isExpenseRequest action ->
  ReceiptService.processReceipt JSON_parse oracle action processed user input w
  = match run oracle (processReceipt JSON_parse processed user input) w with
    | (Ok outcome, w') => (Ok (ExpenseAnswer outcome), w')
    | (Failed m, w') => (Failed m, w')
    end.
Proof.
  intros [Hd Hq]. unfold ReceiptService.processReceipt.
  rewrite (strictEqString_neq _ _ Hd), (strictEqString_neq _ _ Hq). reflexivity.
Qed.

(** X19.  A receipt that asks neither for a deletion nor for a query, and
    in which no expense was detected or whose amount is missing or not
    positive, is answered with [no_expense] without any call to the store,
    the oracle or the clock. *)
Theorem no_expense_touches_nothing (JSON_parse : string -> option jsonValue)
    (oracle : transaction -> list transaction -> result string)
    (action : requestedAction) (processed : processedData) (user : option string)
    (input : inputData) (w : world) :
  isExpenseRequest action ->
  expense_detected processed = false \/ isPositive (pd_amount processed) = false ->
  ReceiptService.processReceipt JSON_parse oracle action processed user input w
  = (Ok (ExpenseAnswer NoExpense), w).
Proof.
  intros Hexpense H. rewrite processReceipt_expense by exact Hexpense.
  unfold processReceipt. rewrite run_tryCatch.
  assert (Hc : expense_detected processed && isPositive (pd_amount processed) = false).
  { destruct H as [-> | ->]; [reflexivity | apply andb_false_r]. }
  rewrite Hc. reflexivity.
Qed.

Lemma no_expense_touches_nothing_witness :
  ReceiptService.processReceipt parsesAllDuplicates oracleAnswers
    {| action_type := Some "expense"; deletion_target := None |}
    {| expense_detected := true; pd_merchant := Some "Cafe X"; pd_amount := Some 0%Q;
       pd_currency := None; pd_category := None; pd_timestamp := TsAt jan24_1430;
       pd_items := None |} (Some "u1") emailInput (worldWith [cafeSms])
  = (Ok (ExpenseAnswer NoExpense), worldWith [cafeSms]).
Proof.
  apply no_expense_touches_nothing; [split; discriminate | right; reflexivity].
Defined.

Lemma savesNothing_bind {A B : Type} (p : prog A) (f : A -> prog B) :
  savesNothing p -> (forall a, savesNothing (f a)) -> savesNothing (bind p f).
Proof.
  intros Hp Hf. induction Hp as [a | m | X e k He Hk IH]; simpl.
  - apply Hf.
  - constructor.
  - constructor; [exact He | exact IH].
Qed.

Lemma savesNothing_tryCatch {A : Type} (p : prog A) (handler : string -> prog A) :
  savesNothing p -> (forall m, savesNothing (handler m)) -> savesNothing (tryCatch p handler).
Proof.
  intros Hp Hh. induction Hp as [a | m | X e k He Hk IH]; simpl.
  - constructor.
  - apply Hh.
  - constructor; [exact He | exact IH].
Qed.

Lemma savesNothing_call {X : Type} (e : effect X) :
  isSaveEffect e = false -> savesNothing (call e).
Proof.
  intros He. unfold call. constructor; [exact He |].
  intros [x | m]; constructor.
Qed.

Lemma findCorrelations_savesNothing (JSON_parse : string -> option jsonValue)
    (newTransaction : transaction) (user : option string) (input : inputData) :
  savesNothing (findCorrelations JSON_parse newTransaction user input).
Proof.
  unfold findCorrelations.
  apply savesNothing_tryCatch; [| intros; constructor].
  apply savesNothing_bind.
  - unfold findPotentialMatches. apply savesNothing_tryCatch; [| intros; constructor].
    destruct (calculateTimeWindow (timestamp newTransaction)) as [[s e] |]; [| constructor].
    apply savesNothing_bind; [apply savesNothing_call; reflexivity | intros; constructor].
  - intros [| c rest]; [constructor |].
    apply savesNothing_bind.
    + unfold analyzeMultipleCorrelationsWithGemini.
      apply savesNothing_tryCatch; [| intros; constructor].
      apply savesNothing_bind; [apply savesNothing_call; reflexivity | intros; constructor].
    + intros correlations. destruct (decide (c :: rest) correlations) as [b |]; [| constructor].
      apply savesNothing_bind; [| intros; constructor].
      unfold mergeTransactions.
      apply savesNothing_tryCatch; [| intros; constructor].
      repeat (apply savesNothing_bind;
              [apply savesNothing_call; reflexivity | intros]).
      apply savesNothing_bind; [| intros; constructor].
      destruct (id newTransaction); [| constructor].
      destruct (truthyString _); [apply savesNothing_call; reflexivity | constructor].
Qed.

Section NoSave.

Variable oracle : transaction -> list transaction -> result string.

Lemma handle_no_save {X : Type} (e : effect X) (w : world) :
  isSaveEffect e = false ->
  exists evs, calls (snd (handle oracle e w)) = calls w ++ evs /\
              Forall (fun ev => ~ isSave ev) evs.
Proof.
  intros He. destruct e; try discriminate; simpl.
  - destruct (nextFault_logCall w (EvQuery user startDate endDate)) as [_ [_ Hc]].
    destruct (nextFault (logCall w (EvQuery user startDate endDate))) as [[] w'];
      simpl in *; eexists; (split; [exact Hc | repeat constructor; auto]).
  - destruct (definedData data);
      [| simpl; eexists; (split; [reflexivity | repeat constructor; auto])].
    destruct (nextFault_logCall w (EvUpdate transactionId data)) as [_ [_ Hc]].
    destruct (nextFault (logCall w (EvUpdate transactionId data))) as [[] w'];
      simpl in *; [eexists; (split; [exact Hc | repeat constructor; auto]) |].
    destruct transactionId; simpl; [destruct (existsb _ _); simpl |];
      eexists; (split; [exact Hc | repeat constructor; auto]).
  - destruct (nextFault_logCall w (EvDelete transactionId)) as [_ [_ Hc]].
    destruct (nextFault (logCall w (EvDelete transactionId))) as [[] w'];
      simpl in *; eexists; (split; [exact Hc | repeat constructor; auto]).
  - eexists. split; [reflexivity | repeat constructor; auto].
  - exists []. split; [symmetry; apply app_nil_r | constructor].
Qed.

Lemma run_no_save {A : Type} (p : prog A) (w : world) :
  savesNothing p ->
  exists evs, calls (snd (run oracle p w)) = calls w ++ evs /\
              Forall (fun ev => ~ isSave ev) evs.
Proof.
  intros Hp. revert w. induction Hp as [a | m | X e k He Hk IH]; intros w; simpl.
  - exists []. split; [symmetry; apply app_nil_r | constructor].
  - exists []. split; [symmetry; apply app_nil_r | constructor].
  - destruct (handle_no_save e w He) as [evs1 [H1 Hn1]].
    destruct (handle oracle e w) as [r w']. simpl in H1.
    destruct (IH r w') as [evs2 [H2 Hn2]].
    exists (evs1 ++ evs2). split.
    + rewrite H2, H1. symmetry. apply app_assoc.
    + apply Forall_app. auto.
Qed.

End NoSave.

Lemma analyzeForCorrelations_savesNothing (JSON_parse : string -> option jsonValue)
    (transactionId : string) (processed : processedData) (user : option string)
    (input : inputData) :
  savesNothing (analyzeForCorrelations JSON_parse transactionId processed user input).
Proof.
  unfold analyzeForCorrelations. apply savesNothing_bind.
  - destruct (pd_timestamp processed); simpl; try constructor.
    + reflexivity.
    + intros [now | m]; constructor.
  - intros stamp. apply savesNothing_tryCatch; [| intros; constructor].
    apply findCorrelations_savesNothing.
Qed.

(** The calls of the expense branch: what was asked of [saveTransaction]. *)
Lemma expense_branch_saves_once (JSON_parse : string -> option jsonValue)
    (oracle : transaction -> list transaction -> result string)
    (processed : processedData) (user : option string) (input : inputData) (w : world) :
  let outcome := run oracle (processReceipt JSON_parse processed user input) w in
  exists evs,
    calls (snd outcome) = calls w ++ evs /\
    (forall c, fst outcome = Ok (ExpenseMerged c) -> Forall (fun ev => ~ isSave ev) evs) /\
    (forall i, fst outcome = Ok (ExpenseCreated i) ->
               exists stamp before after,
                 evs = before ++ EvSave (transactionData processed user input stamp) :: after /\
                 Forall (fun ev => ~ isSave ev) before /\
                 Forall (fun ev => ~ isSave ev) after) /\
    (fst outcome = Ok NoExpense -> evs = []).
Proof.
  cbv zeta. unfold processReceipt. rewrite run_tryCatch.
  destruct (expense_detected processed && isPositive (pd_amount processed)).
  2: { exists []. simpl. split; [symmetry; apply app_nil_r |].
       repeat split; intros; try discriminate; reflexivity. }
  rewrite run_bind, run_timestampOrNow.
  set (start := match pd_timestamp processed with
                | TsAbsent => (Ok (TsAt (clock w)), tick w)
                | _ => (Ok (pd_timestamp processed), w)
                end).
  assert (Hstart : exists stamp w0, start = (Ok stamp, w0) /\ calls w0 = calls w).
  { unfold start. destruct (pd_timestamp processed); do 2 eexists; split; reflexivity. }
  destruct Hstart as [stamp [w0 [Hs Hc0]]].
  replace (match pd_timestamp processed with
           | TsAbsent => (Ok (TsAt (clock w)), tick w)
           | TsInvalid | TsAt _ => (Ok (pd_timestamp processed), w)
           end) with start by (unfold start; destruct (pd_timestamp processed); reflexivity).
  rewrite Hs. cbv iota. rewrite run_bind.
  destruct (run_no_save oracle _ w0
              (findCorrelations_savesNothing JSON_parse (tempTransaction processed stamp)
                 user input)) as [evs1 [Hc1 Hn1]].
  destruct (run oracle (findCorrelations JSON_parse (tempTransaction processed stamp)
                          user input) w0) as [[[c |] | m] w1]; simpl in Hc1.
  - (* merged *)
    exists evs1. simpl. rewrite Hc1, Hc0. split; [reflexivity |].
    repeat split; intros; try discriminate; exact Hn1.
  - (* no correlation: the transaction is created *)
    rewrite run_bind. unfold createTransaction.
    rewrite run_tryCatch, run_bind, run_timestampOrNow.
    assert (Hstamp : exists stamp' w1',
               match pd_timestamp processed with
               | TsAbsent => (Ok (TsAt (clock w1)), tick w1)
               | TsInvalid | TsAt _ => (Ok (pd_timestamp processed), w1)
               end = (Ok stamp', w1') /\ calls w1' = calls w1).
    { destruct (pd_timestamp processed); do 2 eexists; split; reflexivity. }
    destruct Hstamp as [stamp' [w1' [-> Hc1']]]. cbv iota.
    rewrite run_call. simpl handle.
    set (data := transactionData processed user input stamp').
    destruct (nextFault_logCall w1' (EvSave data)) as [_ [_ Hc2]].
    destruct (nextFault (logCall w1' (EvSave data))) as [[] w2]; simpl in Hc2.
    + exists (evs1 ++ [EvSave data]). simpl.
      rewrite Hc2, Hc1', Hc1, Hc0, app_assoc. split; [reflexivity |].
      repeat split; intros; discriminate.
    + cbv iota. rewrite run_bind.
      match goal with
      | |- context [run oracle (analyzeForCorrelations ?P ?i ?pd ?u ?inp) ?w2'] =>
          destruct (run_no_save oracle (analyzeForCorrelations P i pd u inp) w2'
                      (analyzeForCorrelations_savesNothing P i pd u inp))
            as [more [Hmore Hnmore]];
          destruct (analyzeForCorrelations_returns P oracle i pd u inp w2') as [r Hr];
          destruct (run oracle (analyzeForCorrelations P i pd u inp) w2') as [[r' | m] w3]
      end; simpl in Hr, Hmore; [| discriminate].
      simpl in Hmore. rewrite Hc2, Hc1', Hc1, Hc0 in Hmore.
      exists (evs1 ++ EvSave data :: more). simpl.
      split; [rewrite Hmore, <- !app_assoc; reflexivity |].
      split; [intros; discriminate |]. split; [| intros; discriminate].
      intros i _. exists stamp', evs1, more. auto.
  - (* the attempt cannot throw; were it to, the request would throw *)
    simpl. exists evs1. rewrite Hc1, Hc0. split; [reflexivity |].
    repeat split; intros; discriminate.
Qed.

(** X20.  A request that asks neither for a deletion nor for a query calls
    [saveTransaction] at most once: not at all when it answers
    [expense_merged]; exactly once, with the transaction data of the
    receipt, when it answers [expense_created]; and it makes no call
    whatever when it answers [no_expense]. *)
Theorem receipt_saves_at_most_once (JSON_parse : string -> option jsonValue)
    (oracle : transaction -> list transaction -> result string)
    (action : requestedAction) (processed : processedData) (user : option string)
    (input : inputData) (w : world) :
  isExpenseRequest action ->
  let outcome :=
    ReceiptService.processReceipt JSON_parse oracle action processed user input w in
  exists evs,
    calls (snd outcome) = calls w ++ evs /\
    (forall c, fst outcome = Ok (ExpenseAnswer (ExpenseMerged c)) ->
               Forall (fun ev => ~ isSave ev) evs) /\
    (forall i, fst outcome = Ok (ExpenseAnswer (ExpenseCreated i)) ->
               exists stamp before after,
                 evs = before ++ EvSave (transactionData processed user input stamp) :: after /\
                 Forall (fun ev => ~ isSave ev) before /\
                 Forall (fun ev => ~ isSave ev) after) /\
    (fst outcome = Ok (ExpenseAnswer NoExpense) -> evs = []).
Proof.
  intros Hexpense. cbv zeta. rewrite processReceipt_expense by exact Hexpense.
  destruct (expense_branch_saves_once JSON_parse oracle processed user input w)
    as [evs [Hcalls [Hmerged [Hcreated Hnone]]]].
  destruct (run oracle (processReceipt JSON_parse processed user input) w)
    as [[outcome | m] w']; simpl in *.
  - exists evs. split; [exact Hcalls |]. split; [| split].
    + intros c [= ->]. apply (Hmerged c eq_refl).
    + intros i [= ->]. apply (Hcreated i eq_refl).
    + intros [= ->]. apply Hnone. reflexivity.
  - exists evs. split; [exact Hcalls |]. repeat split; intros; discriminate.
Qed.

Lemma receipt_saves_at_most_once_witness :
  let processed := fst (cafeReceipt "email" 252 jan24_1435) in
  let action := {| action_type := Some "expense"; deletion_target := None |} in
  let merging := ReceiptService.processReceipt parsesAllDuplicates oracleAnswers action
                   processed (Some "u1") emailInput (worldWith [cafeSms]) in
  let creating := ReceiptService.processReceipt parsesAllDuplicates oracleAnswers action
                    processed (Some "u1") emailInput (worldWith []) in
  (exists c, fst merging = Ok (ExpenseAnswer (ExpenseMerged c))) /\
  Forall (fun ev => ~ isSave ev) (calls (snd merging)) /\
  fst creating = Ok (ExpenseAnswer (ExpenseCreated "doc0")) /\
  map eventName (calls (snd creating)) = ["query"; "save"; "query"].
Proof.
  cbv zeta.
  destruct (receipt_saves_at_most_once parsesAllDuplicates oracleAnswers
              {| action_type := Some "expense"; deletion_target := None |}
              (fst (cafeReceipt "email" 252 jan24_1435)) (Some "u1") emailInput
              (worldWith [cafeSms]) ltac:(split; discriminate)) as [evs [Hcalls [Hmerged _]]].
  split; [eexists; reflexivity |].
  split; [rewrite Hcalls; apply (Hmerged _ eq_refl) |].
  split; reflexivity.
Defined.

(** ** A single pair *)

(** X25.  The analysis of a single pair never throws and leaves the store
    alone.  When the oracle call fails, or its answer cannot be parsed or is
    not an object, the verdict is the default one; and a verdict is
    correlated only if the parsed answer says [is_correlated: true]. *)
Theorem single_pair_analysis_self_heals (JSON_parse : string -> option jsonEntry)
    (oracle : transaction -> list transaction -> result string)
    (transaction1 transaction2 : transaction) (w : world) :
  exists a,
    run oracle (analyzeCorrelationWithGemini JSON_parse transaction1 transaction2) w
    = (Ok a, logCall w (EvOracle transaction1 [transaction2])) /\
    ((exists m, oracle transaction1 [transaction2] = Failed m) \/
     (exists response, oracle transaction1 [transaction2] = Ok response /\
                       (JSON_parse response = None \/
                        JSON_parse response = Some EntryPrimitive)) ->
     isDefaultVerdict a) /\
    (is_correlated a = true ->
     exists response r,
       oracle transaction1 [transaction2] = Ok response /\
       JSON_parse response = Some (EntryObject r) /\
       raw_is_correlated r = Some true).
Proof.
  unfold analyzeCorrelationWithGemini.
  rewrite run_tryCatch, run_bind, run_call. simpl handle.
  destruct (oracle transaction1 [transaction2]) as [response | m] eqn:Horacle.
  - simpl. eexists. split; [reflexivity |].
    unfold parseGeminiCorrelationResponse. split.
    + intros [[m Hm] | [response' [[= <-] [Hp | Hp]]]]; [discriminate | |];
        rewrite Hp; repeat split.
    + destruct (JSON_parse response) as [[r |] |] eqn:Hp; simpl; try discriminate.
      intros Hc. exists response, r. repeat split; auto.
      destruct (raw_is_correlated r) as [[] |]; simpl in Hc; congruence.
  - simpl. eexists. split; [reflexivity |]. split; [intros; repeat split | discriminate].
Qed.

Lemma single_pair_analysis_self_heals_witness :
  exists a,
    fst (run oracleTimesOut
           (analyzeCorrelationWithGemini (fun _ => None) cafeEmail cafeSms) (worldWith []))
    = Ok a /\ isDefaultVerdict a.
Proof.
  destruct (single_pair_analysis_self_heals (fun _ => None) oracleTimesOut cafeEmail cafeSms
              (worldWith [])) as [a [Hrun [Hdefault _]]].
  exists a. split; [rewrite Hrun; reflexivity |].
  apply Hdefault. left. exists "timeout". reflexivity.
Defined.

(** ** Correlation records *)

Lemma fold_betterCorrelation (rest : list correlated) (current : correlated) :
  notHigherThan (fold_left betterCorrelation rest current) current /\
  exists before after,
    current :: rest = before ++ fold_left betterCorrelation rest current :: after /\
    Forall (lowerThan (fold_left betterCorrelation rest current)) before /\
    Forall (notHigherThan (fold_left betterCorrelation rest current)) after.
Proof.
  revert current. induction rest as [| x rest IH]; intros current; simpl.
  - split; [unfold notHigherThan; lra |].
    exists [], []. repeat split; constructor.
  - assert (Hcase :
      (betterCorrelation current x = x /\
       (confidence (cor_correlation current) < confidence (cor_correlation x))%Q) \/
      (betterCorrelation current x = current /\
       (confidence (cor_correlation x) <= confidence (cor_correlation current))%Q)).
    { unfold betterCorrelation.
      destruct (Qlt_bool (confidence (cor_correlation current))
                  (confidence (cor_correlation x))) eqn:Hlt.
      - left. split; [reflexivity | apply Qlt_bool_iff; exact Hlt].
      - right. split; [reflexivity | apply Qlt_bool_false; exact Hlt]. }
    destruct Hcase as [[-> Hlt] | [-> Hle]].
    + destruct (IH x) as [Hmono [before [after [Hsplit [Hb Ha]]]]].
      split; [unfold notHigherThan in *; lra |].
      exists (current :: before), after. rewrite Hsplit. split; [reflexivity |].
      split; [| exact Ha].
      constructor; [unfold lowerThan, notHigherThan in *; lra | exact Hb].
    + destruct (IH current) as [Hmono [before [after [Hsplit [Hb Ha]]]]].
      split; [exact Hmono |].
      destruct before as [| b before]; simpl in Hsplit; injection Hsplit as Hhead Hrest.
      * exists [], (x :: after). simpl.
        split; [f_equal; [exact Hhead | f_equal; exact Hrest] |].
        split; [constructor |].
        constructor; [unfold notHigherThan in *; lra | exact Ha].
      * subst b. exists (current :: x :: before), after. simpl.
        split; [do 2 f_equal; exact Hrest |]. split; [| exact Ha].
        inversion Hb as [| ? ? Hcur Hb']. subst.
        constructor; [exact Hcur |]. constructor; [| exact Hb'].
        unfold lowerThan in *. lra.
Qed.

(** X21.  The best match of a correlation record is the first of the
    entries with the greatest confidence, whether or not its verdict is
    correlated and whatever the confidence; with no entry at all the
    creation throws before any call to the store. *)
Theorem best_match_is_first_of_greatest :
  (forall newTransaction suffix w,
      exists m, createCorrelationRecord newTransaction [] suffix w = (Failed m, w)) /\
  (forall first rest,
      exists best before after,
        bestCorrelationOf (first :: rest) = Some best /\
        first :: rest = before ++ best :: after /\
        Forall (lowerThan best) before /\ Forall (notHigherThan best) after).
Proof.
  split.
  - intros. eexists. reflexivity.
  - intros first rest.
    destruct (fold_betterCorrelation rest first) as [_ [before [after H]]].
    exists (fold_left betterCorrelation rest first), before, after.
    split; [reflexivity | exact H].
Qed.

(** ** Updates of single fields *)

Lemma nextFault_docs (w : world) : docs (snd (nextFault w)) = docs w.
Proof. unfold nextFault. destruct (faults w); reflexivity. Qed.

Lemma updateFirst_ids (i : option string) (f : transaction -> transaction)
    (l : list transaction) :
  (forall d, id (f d) = id d) -> map id (updateFirst i f l) = map id l.
Proof.
  intros Hf. induction l as [| x l IH]; simpl; [reflexivity |].
  destruct (hasId i x); simpl; [rewrite Hf; reflexivity | rewrite IH; reflexivity].
Qed.

(** With ids that are unique, a document of the updated list is the
    updated document, or an untouched one with another id. *)
Lemma updateFirst_inv (i : option string) (f : transaction -> transaction)
    (l : list transaction) (d' : transaction) :
  NoDup (map id l) -> In d' (updateFirst i f l) ->
  (exists d, In d l /\ id d = i /\ d' = f d) \/ (In d' l /\ id d' <> i).
Proof.
  induction l as [| x l IH]; simpl; [tauto |].
  intros Hnd Hin. inversion Hnd as [| ? ? Hx Hnd']. subst.
  destruct (hasId i x) eqn:Hxi.
  - apply hasId_eq in Hxi. destruct Hin as [<- | Hin].
    + left. exists x. auto.
    + right. split; [right; exact Hin |].
      intros Heq. apply Hx. rewrite Hxi, <- Heq. apply in_map. exact Hin.
  - destruct Hin as [<- | Hin].
    + right. split; [left; reflexivity |].
      intros Heq. apply hasId_eq in Heq. congruence.
    + destruct (IH Hnd' Hin) as [[d [Hd [Hid ->]]] | [Hd Hid]].
      * left. exists d. auto.
      * right. auto.
Qed.

(** What an update of single fields does to the documents. *)
Lemma updateFields_docs (i : option string) (change : transaction -> transaction)
    (w w' : world) (r : result unit) :
  updateFields i change w = (r, w') ->
  (exists m, r = Failed m /\ docs w' = docs w) \/
  (r = Ok tt /\ fst (nextFault w) = false /\ existsb (hasId i) (docs w) = true /\
   exists g,
     docs w' = updateFirst i g (docs w) /\
     forall d, id (g d) = id (change d) /\ userId (g d) = userId (change d) /\
               status (g d) = status (change d) /\
               correlation_id (g d) = correlation_id (change d) /\
               timestamp (g d) = timestamp (change d) /\
               amount (g d) = amount (change d) /\
               sources (g d) = sources (change d)).
Proof.
  unfold updateFields. pose proof (nextFault_docs w) as Hd.
  destruct (nextFault w) as [fault w1]. simpl in Hd. cbv beta iota.
  destruct fault.
  - intros [= <- <-]. left. eauto.
  - destruct i as [i |]; [| intros [= <- <-]; left; eauto].
    rewrite Hd. destruct (existsb (hasId (Some i)) (docs w)) eqn:Hex.
    + intros [= <- <-]. right. repeat split; auto.
      eexists. simpl. split; [reflexivity |].
      intros d. repeat split.
    + intros [= <- <-]. left. eauto.
Qed.

Lemma updateFields_marks (i : option string) (correlationId : string)
    (marked : list (option string)) (w w' : world) (r : result unit) :
  updateFields i (setCorrelationId correlationId) w = (r, w') ->
  uniqueIds w -> carry correlationId marked w ->
  uniqueIds w' /\ carry correlationId marked w' /\
  (r = Ok tt -> carry correlationId (i :: marked) w').
Proof.
  intros Hup Hu Hc. destruct (updateFields_docs _ _ _ _ _ Hup)
    as [[m [-> Hd]] | [-> [_ [_ [g [Hd Hg]]]]]].
  - unfold uniqueIds, carry in *. rewrite Hd. split; [exact Hu |].
    split; [exact Hc | discriminate].
  - assert (Hid : forall d, id (g d) = id d) by (intros d; apply (Hg d)).
    assert (Hcor : forall d, correlation_id (g d) = Some correlationId)
      by (intros d; destruct (Hg d) as [_ [_ [_ [H _]]]]; exact H).
    assert (Hall : forall marked', carry correlationId marked' w ->
                                   carry correlationId (i :: marked') w').
    { intros marked' Hc' d' Hin Hm. unfold carry in Hc'. rewrite Hd in Hin.
      destruct (updateFirst_inv _ _ _ _ Hu Hin) as [[d [Hdin [Hdi ->]]] | [Hdin Hdi]].
      - apply Hcor.
      - destruct Hm as [Hm | Hm]; [congruence | apply Hc'; assumption]. }
    split; [unfold uniqueIds in *; rewrite Hd, updateFirst_ids; auto |].
    split; [| intros _; apply Hall; exact Hc].
    intros d' Hin Hm. apply (Hall marked Hc d' Hin). right. exact Hm.
Qed.

Lemma updateCorrelated_marks (correlations : list correlated) (correlationId : string)
    (marked : list (option string)) (w w' : world) (r : result unit) :
  updateCorrelated correlations correlationId w = (r, w') ->
  uniqueIds w -> carry correlationId marked w ->
  uniqueIds w' /\ carry correlationId marked w' /\
  (r = Ok tt ->
   carry correlationId (map (fun c => id (cor_transaction c)) correlations ++ marked) w').
Proof.
  revert marked w. induction correlations as [| c rest IH]; intros marked w; simpl.
  - intros [= <- <-] Hu Hc. auto.
  - destruct (updateFields (id (cor_transaction c)) (setCorrelationId correlationId) w)
      as [[[] | m] w1] eqn:Hup; intros Hrun Hu Hc;
      destruct (updateFields_marks _ _ _ _ _ _ Hup Hu Hc) as [Hu1 [Hc1 Hm1]].
    + destruct (IH _ _ Hrun Hu1 (Hm1 eq_refl)) as [Hu' [Hc' Hm']].
      split; [exact Hu' |]. split.
      * intros d Hin Hm. apply (Hc' d Hin). right. exact Hm.
      * intros Hr d Hin Hm. apply (Hm' Hr d Hin).
        simpl in Hm. apply in_or_app.
        destruct Hm as [Hm | Hm]; [right; left; exact Hm |].
        apply in_app_or in Hm.
        destruct Hm as [Hm | Hm]; [left; exact Hm | right; right; exact Hm].
    + injection Hrun as <- <-. split; [exact Hu1 |]. split; [exact Hc1 | discriminate].
Qed.

Lemma candidates_stored_uncorrelated (newTransaction : transaction) (user : option string)
    (w : world) (t : transaction) :
  In t (candidatesFound newTransaction user w) ->
  In t (docs w) /\ truthyString (correlation_id t) = false /\ status t = Some "active".
Proof.
  unfold candidatesFound.
  destruct (calculateTimeWindow (timestamp newTransaction)) as [[s e] |]; [| intros []].
  destruct (fst (nextFault w)); [intros [] |].
  intros Hin. apply candidateLoop_in in Hin. destruct Hin as [Hin [_ [Hc _]]].
  destruct (queryTransactions_sound user s e 50 (docs w)) as [_ Hsound].
  destruct (Hsound t Hin) as [Hstored [_ [Hstatus _]]]. auto.
Qed.

(** X22.  Once a correlation record has been created, the transactions it
    binds are out of the candidate pool: with ids that are unique, no later
    candidate search returns the primary transaction or one of the
    correlated transactions. *)
Theorem correlated_transactions_leave_candidate_pool (newTransaction : transaction)
    (correlations : list correlated) (suffix : string) (w w' : world) (best : correlated) :
  uniqueIds w ->
  createCorrelationRecord newTransaction correlations suffix w = (Ok best, w') ->
  forall later user t,
    In t (candidatesFound later user w') ->
    id t <> id newTransaction /\
    forall c, In c correlations -> id t <> id (cor_transaction c).
Proof.
  intros Hu Hrun later user t Hin.
  unfold createCorrelationRecord in Hrun.
  destruct (bestCorrelationOf correlations) as [b |]; [| discriminate].
  unfold saveCorrelationRecord in Hrun.
  pose proof (nextFault_docs w) as Hd1.
  destruct (nextFault w) as [[] w1]; [discriminate |]. simpl in Hd1.
  unfold updateTransactionsWithCorrelation in Hrun.
  destruct (updateFields (id newTransaction) (setCorrelationId ("corr_" ++ suffix)) w1)
    as [[[] | m] w2] eqn:Hprimary; [| discriminate].
  destruct (updateCorrelated correlations ("corr_" ++ suffix) w2) as [[[] | m] w3] eqn:Hrest;
    [| discriminate].
  injection Hrun as _ <-.
  assert (Hu1 : uniqueIds w1) by (unfold uniqueIds in *; rewrite Hd1; exact Hu).
  assert (Hc1 : carry ("corr_" ++ suffix) [] w1) by (intros d _ []).
  destruct (updateFields_marks _ _ _ _ _ _ Hprimary Hu1 Hc1) as [Hu2 [_ Hm2]].
  destruct (updateCorrelated_marks _ _ _ _ _ _ Hrest Hu2 (Hm2 eq_refl)) as [_ [_ Hm3]].
  specialize (Hm3 eq_refl).
  destruct (candidates_stored_uncorrelated later user w3 t Hin) as [Hstored [Hfalsy _]].
  assert (Hnot : ~ In (id t) (map (fun c => id (cor_transaction c)) correlations
                              ++ [id newTransaction])).
  { intros Hm. rewrite (Hm3 t Hstored Hm) in Hfalsy. discriminate. }
  split.
  - intros Heq. apply Hnot. apply in_or_app. right. left. symmetry. exact Heq.
  - intros c Hc Heq. apply Hnot. apply in_or_app. left.
    rewrite Heq. apply (in_map (fun c => id (cor_transaction c))). exact Hc.
Qed.

Lemma correlated_transactions_leave_candidate_pool_witness :
  exists best w',
    createCorrelationRecord cafeEmailSaved
      [ {| cor_transaction := cafeSms;
           cor_correlation := reasonedVerdict 1 "duplicate" 95 |} ]
      "1737729300000_k3x9" (worldWith [cafeSms; cafeEmailSaved]) = (Ok best, w') /\
    candidatesFound cafeEmail (Some "u1") (worldWith [cafeSms; cafeEmailSaved])
    = [cafeEmailSaved; cafeSms] /\
    forall t, In t (candidatesFound cafeEmail (Some "u1") w') ->
              id t <> Some "B" /\ id t <> Some "A".
Proof.
  eexists. eexists. split; [reflexivity |]. split; [reflexivity |].
  intros t Hin.
  destruct (correlated_transactions_leave_candidate_pool cafeEmailSaved
              [ {| cor_transaction := cafeSms;
                   cor_correlation := reasonedVerdict 1 "duplicate" 95 |} ]
              "1737729300000_k3x9" (worldWith [cafeSms; cafeEmailSaved]) _ _
              ltac:(repeat constructor; simpl; intuition discriminate) eq_refl
              cafeEmail (Some "u1") t Hin) as [Hb Ha].
  split; [exact Hb |]. apply (Ha _ (or_introl eq_refl)).
Defined.

(** X26.  The updates that bind transactions to a correlation record are
    not undone: when the update of the primary transaction succeeded and a
    later update fails, the call throws and the primary transaction stays
    bound. *)
Theorem failed_binding_is_not_rolled_back (primary : string)
    (correlations : list correlated) (correlationId : string) (w w' : world) (m : string) :
  uniqueIds w ->
  fst (nextFault w) = false ->
  existsb (hasId (Some primary)) (docs w) = true ->
  updateTransactionsWithCorrelation (Some primary) correlations correlationId w
  = (Failed m, w') ->
  exists d, In d (docs w') /\ id d = Some primary /\ correlation_id d = Some correlationId.
Proof.
  intros Hu Hf Hex Hrun. unfold updateTransactionsWithCorrelation in Hrun.
  destruct (updateFields (Some primary) (setCorrelationId correlationId) w)
    as [[[] | m1] w1] eqn:Hprimary.
  - assert (Hc0 : carry correlationId [] w) by (intros d _ []).
    destruct (updateFields_marks _ _ _ _ _ _ Hprimary Hu Hc0) as [Hu1 [_ Hm1]].
    destruct (updateCorrelated_marks _ _ _ _ _ _ Hrun Hu1 (Hm1 eq_refl)) as [Hu' [Hc' _]].
    destruct (updateFields_docs _ _ _ _ _ Hprimary)
      as [[m' [Hm' _]] | [_ [_ [_ [g [Hd Hg]]]]]]; [discriminate |].
    assert (Hids : In (Some primary) (map id (docs w'))).
    { assert (Hstep : forall cs c w0 w0' r, updateCorrelated cs c w0 = (r, w0') ->
                                           map id (docs w0') = map id (docs w0)).
      { induction cs as [| c0 cs IH]; intros c w0 w0' r; simpl.
        - intros [= <- <-]. reflexivity.
        - destruct (updateFields (id (cor_transaction c0)) (setCorrelationId c) w0)
            as [[[] | m2] w2] eqn:Hup; intros Hr.
          + rewrite (IH _ _ _ _ Hr).
            destruct (updateFields_docs _ _ _ _ _ Hup)
              as [[m' [Hm' Hd']] | [_ [_ [_ [g' [Hd' Hg']]]]]]; [discriminate |].
            rewrite Hd'. apply updateFirst_ids. intros d. apply (Hg' d).
          + injection Hr as <- <-.
            destruct (updateFields_docs _ _ _ _ _ Hup)
              as [[m' [_ Hd']] | [Hok _]]; [rewrite Hd'; reflexivity | discriminate]. }
      rewrite (Hstep _ _ _ _ _ Hrun), Hd, updateFirst_ids by (intros d; apply (Hg d)).
      apply existsb_exists in Hex. destruct Hex as [d [Hin Hd0]].
      apply hasId_eq in Hd0. rewrite <- Hd0. apply in_map. exact Hin. }
    apply in_map_iff in Hids. destruct Hids as [d [Hid Hin]].
    exists d. split; [exact Hin |]. split; [exact Hid |].
    apply (Hc' d Hin). rewrite Hid. left. reflexivity.
  - injection Hrun as <- <-.
    destruct (updateFields_docs _ _ _ _ _ Hprimary)
      as [[m' [_ Hd]] | [Hok _]]; [| discriminate].
    unfold updateFields in Hprimary. destruct (nextFault w) as [fault w0] eqn:Hnf.
    simpl in Hf. subst fault.
    pose proof (nextFault_docs w) as Hd0. rewrite Hnf in Hd0. simpl in Hd0.
    rewrite Hd0, Hex in Hprimary. discriminate.
Qed.

Lemma failed_binding_is_not_rolled_back_witness :
  uniqueIds (worldWith [cafeEmailSaved]) /\
  exists m w',
    updateTransactionsWithCorrelation (Some "B")
      [ {| cor_transaction := cafeSms;
           cor_correlation := reasonedVerdict 1 "duplicate" 95 |} ]
      "corr_1737729300000_k3x9" (worldWith [cafeEmailSaved]) = (Failed m, w') /\
    exists d, In d (docs w') /\ id d = Some "B"
              /\ correlation_id d = Some "corr_1737729300000_k3x9".
Proof.
  assert (Hu : uniqueIds (worldWith [cafeEmailSaved]))
    by (repeat constructor; simpl; intuition discriminate).
  split; [exact Hu |].
  eexists. eexists. split; [reflexivity |].
  eapply (failed_binding_is_not_rolled_back "B"
            [ {| cor_transaction := cafeSms;
                 cor_correlation := reasonedVerdict 1 "duplicate" 95 |} ]
            "corr_1737729300000_k3x9" (worldWith [cafeEmailSaved]));
    [exact Hu | reflexivity | reflexivity | reflexivity].
Defined.

(** ** Soft deletion *)

Lemma find_hasId (i : option string) (l : list transaction) (d : transaction) :
  find (hasId i) l = Some d -> In d l /\ id d = i.
Proof.
  intros H. apply find_some in H. destruct H as [Hin Hid].
  apply hasId_eq in Hid. auto.
Qed.

Lemma uniqueIds_same (l : list transaction) (d1 d2 : transaction) :
  NoDup (map id l) -> In d1 l -> In d2 l -> id d1 = id d2 -> d1 = d2.
Proof.
  induction l as [| x l IH]; simpl; [tauto |].
  intros Hnd H1 H2 Heq. inversion Hnd as [| ? ? Hx Hnd']. subst.
  destruct H1 as [<- | H1], H2 as [<- | H2]; auto.
  - exfalso. apply Hx. rewrite Heq. apply in_map. exact H2.
  - exfalso. apply Hx. rewrite <- Heq. apply in_map. exact H1.
Qed.

Lemma getDoc_docs (transactionId : string) (w w' : world) (r : result (option transaction)) :
  getDoc transactionId w = (r, w') ->
  docs w' = docs w /\
  (forall found, r = Ok found -> found = find (hasId (Some transactionId)) (docs w)).
Proof.
  unfold getDoc. pose proof (nextFault_docs w) as Hd.
  destruct (nextFault w) as [[] w1]; simpl in Hd; intros [= <- <-].
  - split; [exact Hd | discriminate].
  - split; [exact Hd |]. intros found [= <-]. rewrite Hd. reflexivity.
Qed.

(** The outcomes of [deleteTransaction]. *)
Lemma deleteTransaction_docs (transactionId : string)
    (user : option string) (w w' : world) (r : result bool) :
  uniqueIds w ->
  deleteTransaction transactionId user w = (r, w') ->
  (exists m, r = Failed m /\ docs w' = docs w) \/
  (r = Ok true /\
   (exists d, In d (docs w) /\ id d = Some transactionId /\ userId d = user) /\
   map id (docs w') = map id (docs w) /\
   (forall d', In d' (docs w') ->
               (id d' = Some transactionId /\ status d' = Some "deleted") \/
               (id d' <> Some transactionId /\ In d' (docs w)))).
Proof.
  intros Hu Hrun. unfold deleteTransaction in Hrun.
  destruct (getDoc transactionId w) as [[[d |] | m] w1] eqn:Hget;
    destruct (getDoc_docs _ _ _ _ Hget) as [Hd1 Hfound].
  - specialize (Hfound _ eq_refl). symmetry in Hfound.
    apply find_hasId in Hfound. destruct Hfound as [Hin Hid].
    destruct (strictEqString (userId d) user) eqn:Howner.
    + apply strictEqString_eq in Howner.
      destruct (updateFields (Some transactionId) setDeleted w1) as [[[] | m] w2] eqn:Hup;
        injection Hrun as <- <-;
        destruct (updateFields_docs _ _ _ _ _ Hup)
          as [[m' [Hm' Hd2]] | [Hok [_ [_ [g [Hd2 Hg]]]]]]; try discriminate.
      * right. split; [reflexivity |].
        split; [exists d; auto |].
        split; [rewrite Hd2, updateFirst_ids, Hd1; [reflexivity |]; intros x; apply (Hg x) |].
        intros d' Hin'. rewrite Hd2 in Hin'.
        assert (Hu1 : NoDup (map id (docs w1))) by (rewrite Hd1; exact Hu).
        destruct (updateFirst_inv _ _ _ _ Hu1 Hin') as [[x [Hx [Hxi ->]]] | [Hx Hxi]].
        -- left. destruct (Hg x) as [Hgi [_ [Hgs _]]]. rewrite Hgi, Hgs. simpl. auto.
        -- right. rewrite <- Hd1. auto.
      * left. exists "Failed to delete transaction". rewrite Hd2, Hd1. auto.
    + injection Hrun as <- <-. left. eauto.
  - injection Hrun as <- <-. left. eauto.
  - injection Hrun as <- <-. left. eauto.
Qed.

(** X23.  [deleteTransaction] either throws and leaves every document as
    it was, or succeeds; it succeeds only on a stored document of the
    caller, which stays stored with status [deleted] while every other
    document is untouched, and which no later candidate search returns. *)
Theorem deleteTransaction_soft_deletes_own_record (transactionId : string)
    (user : option string) (w w' : world) (r : result bool) :
  uniqueIds w ->
  deleteTransaction transactionId user w = (r, w') ->
  (exists m, r = Failed m /\ docs w' = docs w) \/
  (r = Ok true /\
   (exists d, In d (docs w) /\ id d = Some transactionId /\ userId d = user) /\
   map id (docs w') = map id (docs w) /\
   (forall d', In d' (docs w') ->
               (id d' = Some transactionId /\ status d' = Some "deleted") \/
               (id d' <> Some transactionId /\ In d' (docs w))) /\
   forall later anyUser t,
     In t (candidatesFound later anyUser w') -> id t <> Some transactionId).
Proof.
  intros Hu Hrun.
  destruct (deleteTransaction_docs _ _ _ _ _ Hu Hrun)
    as [Hfailed | [Hr [Hown [Hids Hall]]]]; [left; exact Hfailed |].
  right. repeat (split; [assumption |]).
  intros later anyUser t Hcand Hidt.
  destruct (candidates_stored_uncorrelated later anyUser w' t Hcand)
    as [Hstored [_ Hactive]].
  destruct (Hall t Hstored) as [[_ Hdel] | [Hne _]]; [congruence | contradiction].
Qed.

Lemma deleteTransaction_soft_deletes_own_record_witness :
  uniqueIds (worldWith [cafeSms; cafeEmailSaved]) /\
  exists w',
    deleteTransaction "A" (Some "u1") (worldWith [cafeSms; cafeEmailSaved]) = (Ok true, w') /\
    map id (docs w') = [Some "A"; Some "B"] /\
    forall later anyUser t, In t (candidatesFound later anyUser w') -> id t <> Some "A".
Proof.
  assert (Hu : uniqueIds (worldWith [cafeSms; cafeEmailSaved]))
    by (repeat constructor; simpl; intuition discriminate).
  split; [exact Hu |].
  eexists. split; [reflexivity |].
  destruct (deleteTransaction_soft_deletes_own_record "A" (Some "u1")
              (worldWith [cafeSms; cafeEmailSaved]) _ _ Hu eq_refl)
    as [[m [Hm _]] | [_ [_ [Hids [_ Hnever]]]]]; [discriminate |].
  split; [exact Hids | exact Hnever].
Defined.

(** ** Deletion requests *)

Lemma recentTransactions_sound (user : option string) (limit : nat)
    (collection : list transaction) (t : transaction) :
  In t (recentTransactions user limit collection) ->
  In t collection /\ userId t = user /\ status t = Some "active".
Proof.
  unfold recentTransactions. intros Hin.
  apply firstn_in in Hin. apply (proj1 (orderByTimestampDesc_in _ _)) in Hin.
  apply filter_In in Hin. destruct Hin as [Hin Htest].
  apply andb_true_iff in Htest. destruct Htest as [Htest Hstatus].
  apply andb_true_iff in Htest. destruct Htest as [Huser _].
  apply strictEqString_eq in Huser. apply strictEqString_eq in Hstatus. auto.
Qed.

Lemma getRecentTransactions_docs (user : option string) (limit : nat) (w w' : world)
    (r : result (list transaction)) :
  getRecentTransactions user limit w = (r, w') ->
  docs w' = docs w /\
  (forall found, r = Ok found -> found = recentTransactions user limit (docs w)).
Proof.
  unfold getRecentTransactions. pose proof (nextFault_docs w) as Hd.
  destruct (nextFault w) as [[] w1]; simpl in Hd; intros [= <- <-].
  - split; [exact Hd | discriminate].
  - split; [exact Hd |]. intros found [= <-]. rewrite Hd. reflexivity.
Qed.

(** X24.  A deletion request that returns deletes at most one transaction:
    either none of the ten latest active transactions of the user matches
    the target and the store is unchanged, or exactly one matching active
    transaction of the user is soft-deleted and every other document is
    untouched. *)
Theorem handleDeletion_deletes_at_most_one (deletion_target : option string)
    (user : option string) (w w' : world) (deleted_count : nat) :
  uniqueIds w ->
  handleDeletion deletion_target user w = (Ok deleted_count, w') ->
  (deleted_count = 0%nat /\ docs w' = docs w /\
   forall t, In t (recentTransactions user 10 (docs w)) ->
             matchesDeletionTarget (deletionTargetOf deletion_target) t = false) \/
  (deleted_count = 1%nat /\
   exists t, In t (docs w) /\ userId t = user /\ status t = Some "active" /\
             matchesDeletionTarget (deletionTargetOf deletion_target) t = true /\
             map id (docs w') = map id (docs w) /\
             forall d', In d' (docs w') ->
                        (id d' = id t /\ status d' = Some "deleted") \/
                        (id d' <> id t /\ In d' (docs w))).
Proof.
  intros Hu Hrun. unfold handleDeletion in Hrun.
  destruct (getRecentTransactions user 10 w) as [[transactions | m] w1] eqn:Hget;
    [| discriminate].
  destruct (getRecentTransactions_docs _ _ _ _ _ Hget) as [Hd1 Hfound].
  specialize (Hfound _ eq_refl). subst transactions.
  destruct (find (matchesDeletionTarget (deletionTargetOf deletion_target))
              (recentTransactions user 10 (docs w))) as [t |] eqn:Hfind.
  - apply find_some in Hfind. destruct Hfind as [Hin Hmatch].
    apply recentTransactions_sound in Hin. destruct Hin as [Hin [Huser Hactive]].
    destruct (id t) as [transactionId |] eqn:Hid; [| discriminate].
    destruct (deleteTransaction transactionId user w1) as [[b | m] w2] eqn:Hdel;
      [| discriminate].
    injection Hrun as <- <-.
    assert (Hu1 : uniqueIds w1) by (unfold uniqueIds in *; rewrite Hd1; exact Hu).
    destruct (deleteTransaction_docs _ _ _ _ _ Hu1 Hdel)
      as [[m [Hm _]] | [_ [_ [Hids Hall]]]]; [discriminate |].
    right. split; [reflexivity |]. exists t. rewrite Hid, <- Hd1. rewrite <- Hd1 in Hin.
    repeat (split; [assumption |]). exact Hall.
  - injection Hrun as <- <-. left. split; [reflexivity |]. split; [exact Hd1 |].
    intros t Hin. apply (find_none _ _ Hfind t Hin).
Qed.

Lemma handleDeletion_deletes_at_most_one_witness :
  uniqueIds (worldWith [cafeSms; cafeEmailSaved]) /\
  exists w',
    handleDeletion (Some "Cafe") (Some "u1") (worldWith [cafeSms; cafeEmailSaved])
    = (Ok 1%nat, w') /\
    map status (docs w') = [Some "active"; Some "deleted"].
Proof.
  assert (Hu : uniqueIds (worldWith [cafeSms; cafeEmailSaved]))
    by (repeat constructor; simpl; intuition discriminate).
  split; [exact Hu |].
  eexists. split; [reflexivity |].
  destruct (handleDeletion_deletes_at_most_one (Some "Cafe") (Some "u1")
              (worldWith [cafeSms; cafeEmailSaved]) _ _ Hu eq_refl)
    as [[H0 _] | _]; [discriminate | reflexivity].
Defined.

Lemma includes_empty (s : string) : includes s "" = true.
Proof. destruct s; reflexivity. Qed.

Lemma nextFault_working (w : world) : faults w = [] -> nextFault w = (false, w).
Proof. unfold nextFault. intros ->. reflexivity. Qed.

(** X27.  A deletion request without a target (or with the empty target)
    matches every transaction that has a merchant or a category: on a
    working store it deletes the latest active transaction of the user. *)
Theorem handleDeletion_without_target_deletes_latest (deletion_target : option string)
    (user : option string) (w : world) (t : transaction) (rest : list transaction)
    (transactionId : string) :
  uniqueIds w ->
  faults w = [] ->
  deletion_target = None \/ deletion_target = Some "" ->
  recentTransactions user 10 (docs w) = t :: rest ->
  merchant t <> None \/ category t <> None ->
  id t = Some transactionId ->
  exists w',
    handleDeletion deletion_target user w = (Ok 1%nat, w') /\
    exists d', In d' (docs w') /\ id d' = Some transactionId /\ status d' = Some "deleted".
Proof.
  intros Hu Hfaults Htarget Hrecent Hnamed Hid.
  assert (Ht : deletionTargetOf deletion_target = "")
    by (destruct Htarget as [-> | ->]; reflexivity).
  assert (Hmatch : matchesDeletionTarget "" t = true).
  { unfold matchesDeletionTarget.
    destruct (merchant t) as [m |]; [rewrite includes_empty; reflexivity |].
    destruct (category t) as [c |]; [rewrite includes_empty; reflexivity |].
    destruct Hnamed as [H | H]; contradiction. }
  assert (Hin : In t (recentTransactions user 10 (docs w)))
    by (rewrite Hrecent; left; reflexivity).
  apply recentTransactions_sound in Hin. destruct Hin as [Hin [Huser Hactive]].
  assert (Hfind : find (hasId (Some transactionId)) (docs w) = Some t).
  { destruct (find (hasId (Some transactionId)) (docs w)) as [d |] eqn:Hf.
    - apply find_hasId in Hf. destruct Hf as [Hdin Hdid].
      f_equal. apply (uniqueIds_same (docs w)); auto. congruence.
    - exfalso. pose proof (find_none _ _ Hf t Hin) as Hno.
      apply hasId_eq in Hid. congruence. }
  assert (Hex : existsb (hasId (Some transactionId)) (docs w) = true).
  { apply existsb_exists. exists t. split; [exact Hin | apply hasId_eq; exact Hid]. }
  assert (Hdel : exists w', deleteTransaction transactionId user w = (Ok true, w')).
  { unfold deleteTransaction, getDoc. rewrite (nextFault_working w Hfaults), Hfind.
    rewrite (proj2 (strictEqString_eq _ _) Huser).
    unfold updateFields. rewrite (nextFault_working w Hfaults), Hex. eauto. }
  destruct Hdel as [w' Hdel]. exists w'. split.
  - unfold handleDeletion, getRecentTransactions.
    rewrite (nextFault_working w Hfaults), Ht, Hrecent. simpl find. rewrite Hmatch, Hid, Hdel.
    reflexivity.
  - destruct (deleteTransaction_docs _ _ _ _ _ Hu Hdel)
      as [[m [Hm _]] | [_ [_ [Hids Hall]]]]; [discriminate |].
    assert (Hstill : In (Some transactionId) (map id (docs w'))).
    { rewrite Hids, <- Hid. apply in_map. exact Hin. }
    apply in_map_iff in Hstill. destruct Hstill as [d' [Hd'id Hd'in]].
    exists d'. split; [exact Hd'in |]. split; [exact Hd'id |].
    destruct (Hall d' Hd'in) as [[_ Hs] | [Hne _]]; [exact Hs | contradiction].
Qed.

Lemma handleDeletion_without_target_deletes_latest_witness :
  exists w' d',
    handleDeletion None (Some "u1") (worldWith [cafeSms; cafeEmailSaved]) = (Ok 1%nat, w') /\
    In d' (docs w') /\ id d' = Some "B" /\ status d' = Some "deleted".
Proof.
  destruct (handleDeletion_without_target_deletes_latest None (Some "u1")
              (worldWith [cafeSms; cafeEmailSaved]) cafeEmailSaved [cafeSms] "B"
              ltac:(repeat constructor; simpl; intuition discriminate)
              eq_refl (or_introl eq_refl) eq_refl
              ltac:(left; discriminate) eq_refl) as [w' [Hrun [d' Hd']]].
  exists w', d'. split; [exact Hrun | exact Hd'].
Defined.

(** ** Reading one transaction *)

(** X28.  [getTransaction] returns only a stored document with the id
    asked for that belongs to the caller, and never changes the store. *)
Theorem getTransaction_returns_own_record (transactionId : string) (user : option string)
    (w w' : world) (r : result transaction) :
  getTransaction transactionId user w = (r, w') ->
  docs w' = docs w /\
  forall d, r = Ok d -> In d (docs w) /\ id d = Some transactionId /\ userId d = user.
Proof.
  unfold getTransaction. intros Hrun.
  destruct (getDoc transactionId w) as [[[d |] | m] w1] eqn:Hget;
    destruct (getDoc_docs _ _ _ _ Hget) as [Hd1 Hfound].
  - specialize (Hfound _ eq_refl). symmetry in Hfound.
    apply find_hasId in Hfound. destruct Hfound as [Hin Hid].
    destruct (strictEqString (userId d) user) eqn:Howner; injection Hrun as <- <-.
    + apply strictEqString_eq in Howner. split; [exact Hd1 |].
      intros d0 [= <-]. auto.
    + split; [exact Hd1 | discriminate].
  - injection Hrun as <- <-. split; [exact Hd1 | discriminate].
  - injection Hrun as <- <-. split; [exact Hd1 | discriminate].
Qed.

Lemma getTransaction_returns_own_record_witness :
  fst (getTransaction "A" (Some "u1") (worldWith [cafeSms; cafeEmailSaved])) = Ok cafeSms /\
  (exists m, fst (getTransaction "A" (Some "u2") (worldWith [cafeSms; cafeEmailSaved]))
             = Failed m) /\
  In cafeSms [cafeSms; cafeEmailSaved] /\ id cafeSms = Some "A" /\ userId cafeSms = Some "u1".
Proof.
  split; [reflexivity |]. split; [eexists; reflexivity |].
  exact (proj2 (getTransaction_returns_own_record "A" (Some "u1")
                  (worldWith [cafeSms; cafeEmailSaved]) _ _ eq_refl) cafeSms eq_refl).
Defined.
